(** * Fault-geometry and dip-projection pipeline of GemPy_Model_Mexico_Basin

    Shallow embedding of the three scripts that carry the geometry of the
    repository:

    - [Scripts/01_Extend_faults.py]        (module [Extender]),
    - [Scripts/02_Calculate_apparent_dip.py] (module [Engine]),
    - [Scripts/03_Add_faults.py]           (module [Projector]).

    Numbers.  Python floats are embedded as the real numbers of the Standard
    Library: [math.sin], [math.atan], [math.acos], [math.hypot] are the real
    functions, comparisons are the real order, and no rounding takes place.
    Every statement below is therefore a statement about the
    exact-arithmetic reading of the scripts.  The tangent has poles, where
    this reading has no value to offer (the library function [tan] is 0
    there, by the convention [/ 0 = 0]) while the script computes a large
    float.  The Projector is therefore defined over the tangent it is given,
    of which the statements assume at most that it is the real tangent away
    from the poles and that it is not small at a pole; in the Engine, what
    is stated about the value of the apparent dip is stated for true dips
    below 90.

    Exceptions.  A Python function that may raise is a function into
    [Result]; [Raise e] is an uncaught exception leaving the function.

    External libraries.  shapely's [intersection] between two line
    geometries is a parameter of the Engine; the clip of a polyline by the
    model area in the Extender is kept symbolic and read as a set of points;
    rasterio's [index] and numpy's 2-D indexing are modelled for a raster
    whose transform has no rotation terms. *)

From Stdlib Require Import Reals Lra Lia List Ascii String Bool ZArith Zfloor.
From Stdlib Require Import Permutation Sorted.
Import ListNotations.

Open Scope string_scope.
Open Scope list_scope.
Open Scope R_scope.

(** ** Exceptions *)

Inductive PyError : Type :=
| ValueError (msg : string)
| IndexError
| KeyError
| NotImplementedError.

Inductive Result (A : Type) : Type :=
| Ok (a : A)
| Raise (e : PyError).

Arguments Ok {A} a.
Arguments Raise {A} e.

Definition bind {A B : Type} (m : Result A) (k : A -> Result B) : Result B :=
  match m with
  | Ok a => k a
  | Raise e => Raise e
  end.

Notation "x <- m ;; k" := (bind m (fun x => k))
  (at level 61, m at next level, right associativity).
Notation "' p <- m ;; k" := (bind m (fun p => k))
  (at level 61, p pattern, m at next level, right associativity).

(** Sequential traversal of a list by a body that may raise: the first
    exception leaves the loop. *)
Fixpoint mapM {A B : Type} (f : A -> Result B) (l : list A) : Result (list B) :=
  match l with
  | [] => Ok []
  | a :: l' => b <- f a ;; bs <- mapM f l' ;; Ok (b :: bs)
  end.

(** ** Numbers and points *)

Definition Point : Type := (R * R)%type.

Definition px (p : Point) : R := fst p.
Definition py (p : Point) : R := snd p.

Definition Req_b (a b : R) : bool := if Req_dec_T a b then true else false.
Definition Rle_b (a b : R) : bool := if Rle_dec a b then true else false.

Definition Point_eqb (p q : Point) : bool :=
  Req_b (px p) (px q) && Req_b (py p) (py q).

(** [math.radians], [math.degrees], [math.hypot] *)
Definition radians (x : R) : R := x * (PI / 180).
Definition degrees (x : R) : R := x * (180 / PI).
Definition hypot (x y : R) : R := sqrt (x * x + y * y).

(** [coords[0]] and [coords[-1]] *)
Definition first_coord {A : Type} (l : list A) : Result A :=
  match l with
  | [] => Raise IndexError
  | a :: _ => Ok a
  end.

Definition last_coord {A : Type} (l : list A) : Result A :=
  match l with
  | [] => Raise IndexError
  | a :: l' => Ok (last l' a)
  end.

(** ** Intersection and dip engine: [Scripts/02_Calculate_apparent_dip.py] *)

Module Engine.

(** The shapely geometries the script meets.  [GOther] stands for every
    result of an intersection that is neither a point nor a multi-point:
    an empty geometry, a line of overlap, a collection. *)
Inductive Geometry : Type :=
| GPoint (p : Point)
| GMultiPoint (pts : list Point)
| GLineString (line : list Point)
| GMultiLineString (parts : list (list Point))
| GOther.

Definition geom_type (g : Geometry) : string :=
  match g with
  | GPoint _ => "Point"
  | GMultiPoint _ => "MultiPoint"
  | GLineString _ => "LineString"
  | GMultiLineString _ => "MultiLineString"
  | GOther => "GeometryCollection"
  end.

Definition isinstance_Point (g : Geometry) : bool :=
  match g with GPoint _ => true | _ => false end.

(** [g.coords]: multi-part geometries do not provide a coordinate sequence. *)
Definition coords (g : Geometry) : Result (list Point) :=
  match g with
  | GPoint p => Ok [p]
  | GLineString line => Ok line
  | _ => Raise NotImplementedError
  end.

(** [g.geoms[0]] *)
Definition geoms0 (g : Geometry) : Result Geometry :=
  match g with
  | GMultiPoint pts => p <- first_coord pts ;; Ok (GPoint p)
  | GMultiLineString parts => l <- first_coord parts ;; Ok (GLineString l)
  | _ => Raise NotImplementedError
  end.

(** [g.geoms], as used on a multi-point. *)
Definition geoms_points (g : Geometry) : list Point :=
  match g with
  | GMultiPoint pts => pts
  | GPoint p => [p]
  | _ => []
  end.

Definition in_strings (s : string) (l : list string) : bool :=
  existsb (String.eqb s) l.

(** *** The elevation raster *)

(** A single-band raster with the affine transform
    [x = c + a * col], [y = f + e * row] (no rotation terms; [e] is negative
    for a north-up raster), and its band as rows of cells. *)
Record DEM : Type := mkDEM {
  dem_a : R;
  dem_c : R;
  dem_e : R;
  dem_f : R;
  dem_band1 : list (list R)
}.

(** [dem.index(x, y)]: the inverse transform followed by [math.floor];
    no bounds are checked. *)
Definition dem_index (dem : DEM) (x y : R) : Z * Z :=
  (Zfloor ((y - dem_f dem) / dem_e dem), Zfloor ((x - dem_c dem) / dem_a dem)).

Definition height (band : list (list R)) : Z := Z.of_nat (List.length band).
Definition width (band : list (list R)) : Z := Z.of_nat (List.length (hd [] band)).

(** numpy's normalisation of one index along an axis of size [n]: an index
    in [-n, 0) counts from the end, anything outside [-n, n) raises. *)
Definition np_axis_index (n i : Z) : Result nat :=
  if ((0 <=? i) && (i <? n))%Z then Ok (Z.to_nat i)
  else if ((- n <=? i) && (i <? 0))%Z then Ok (Z.to_nat (i + n))
  else Raise IndexError.

(** [band[row, col]] *)
Definition np_getitem (band : list (list R)) (row col : Z) : Result R :=
  r <- np_axis_index (height band) row ;;
  c <- np_axis_index (width band) col ;;
  match nth_error band r with
  | Some cells =>
      match nth_error cells c with
      | Some v => Ok v
      | None => Raise IndexError
      end
  | None => Raise IndexError
  end.

(** [get_elevation(x, y, dem)] *)
Definition get_elevation (x y : R) (dem : DEM) : Result R :=
  let '(row, col) := dem_index dem x y in
  elevation <- np_getitem (dem_band1 dem) row col ;;
  Ok elevation.

(** The coordinate lies on a cell of the raster. *)
Definition covered (dem : DEM) (x y : R) : Prop :=
  let '(row, col) := dem_index dem x y in
  (0 <= row < height (dem_band1 dem))%Z /\ (0 <= col < width (dem_band1 dem))%Z.

(** [calculate_distance(start_point, intersection_point)] *)
Definition calculate_distance (start_point intersection_point : Point) : R :=
  hypot (px intersection_point - px start_point)
        (py intersection_point - py start_point).

(** [calculate_angle(line1, line2)] *)
Definition calculate_angle (line1 line2 : Geometry) : Result R :=
  if negb (in_strings (geom_type line1) ["LineString"; "MultiLineString"])
     || negb (in_strings (geom_type line2) ["LineString"; "MultiLineString"])
  then Raise (ValueError "Both geometries must be LineString or MultiLineString.")
  else
    line1 <- (if String.eqb (geom_type line1) "MultiLineString"
              then geoms0 line1 else Ok line1) ;;
    line2 <- (if String.eqb (geom_type line2) "MultiLineString"
              then geoms0 line2 else Ok line2) ;;
    c1 <- coords line1 ;;
    '(x1, y1) <- first_coord c1 ;;
    '(x2, y2) <- last_coord c1 ;;
    c2 <- coords line2 ;;
    '(x3, y3) <- first_coord c2 ;;
    '(x4, y4) <- last_coord c2 ;;
    let v1 := (x2 - x1, y2 - y1) in
    let v2 := (x4 - x3, y4 - y3) in
    let mag_v1 := hypot (fst v1) (snd v1) in
    let mag_v2 := hypot (fst v2) (snd v2) in
    if Req_b mag_v1 0 || Req_b mag_v2 0
    then Raise (ValueError "One of the lines has zero length.")
    else
      let dot_product := fst v1 * fst v2 + snd v1 * snd v2 in
      let cos_angle := Rmax (-1) (Rmin 1 (dot_product / (mag_v1 * mag_v2))) in
      let angle_rad := acos cos_angle in
      Ok (degrees angle_rad).

(** [calculate_apparent_dip(angle_deg, dip_deg)].  Floats are read as exact
    reals.  At a true dip of exactly 90 the real tangent has no value (the
    library function [tan] is 0 there by convention), and in the script's
    floats the product of the sine and the tangent is ill-conditioned
    there: what is stated about the value returned is stated for true dips
    below 90. *)
Definition calculate_apparent_dip (angle_deg dip_deg : R) : Result R :=
  if negb (Rle_b 0 angle_deg && Rle_b angle_deg 180)
     || negb (Rle_b 0 dip_deg && Rle_b dip_deg 90)
  then Raise (ValueError "Angle or dip out of valid range.")
  else
    let angle_rad := radians angle_deg in
    let dip_rad := radians dip_deg in
    let apparent_dip_rad := atan (sin angle_rad * tan dip_rad) in
    Ok (degrees apparent_dip_rad).

(** *** Rows of the three tables *)

Record SectionRow : Type := mkSection {
  sec_name : string;
  sec_geometry : Geometry
}.

Record FaultRow : Type := mkFault {
  flt_Fault : string;
  flt_geometry : Geometry;
  flt_Dip : R;
  flt_azimuth : R;
  flt_Side_Dip : string;
  flt_dip_direct : string
}.

Record Intersection : Type := mkIntersection {
  geometry : Point;
  elevation : R;
  distance : R;
  angle : R;
  Azimuth : R;
  apparent_dip : R;
  true_dip : R;
  dip_side : string;
  section_id : string;
  fault_id : string;
  dip_direction : string
}.

Section ProcessIntersections.

(** shapely's [section.geometry.intersection(fault.geometry)] *)
Variable intersection : Geometry -> Geometry -> Geometry.

(** The points the inner loop runs over. *)
Definition crossing_points (section : SectionRow) (fault : FaultRow) : list Point :=
  let inter := intersection (sec_geometry section) (flt_geometry fault) in
  if isinstance_Point inter then geoms_points inter
  else if String.eqb (geom_type inter) "MultiPoint" then geoms_points inter
  else [].

(** Body of the innermost loop: the record built for one crossing point. *)
Definition process_point (section : SectionRow) (fault : FaultRow) (dem : DEM)
    (point : Point) : Result Intersection :=
  elevation <- get_elevation (px point) (py point) dem ;;
  cs <- coords (sec_geometry section) ;;
  start_point <- first_coord cs ;;
  let distance := calculate_distance start_point point in
  angle <- calculate_angle (sec_geometry section) (flt_geometry fault) ;;
  let dip := flt_Dip fault in
  apparent_dip <- calculate_apparent_dip angle dip ;;
  Ok {| geometry := point;
        elevation := elevation;
        distance := distance;
        angle := angle;
        Azimuth := flt_azimuth fault;
        apparent_dip := apparent_dip;
        true_dip := dip;
        dip_side := flt_Side_Dip fault;
        section_id := sec_name section;
        fault_id := flt_Fault fault;
        dip_direction := flt_dip_direct fault |}.

(** One (section, fault) pair: the records of its crossing points. *)
Definition process_pair (dem : DEM) (section : SectionRow) (fault : FaultRow)
    : Result (list Intersection) :=
  mapM (process_point section fault dem) (crossing_points section fault).

(** One section against every fault. *)
Definition process_section (faults : list FaultRow) (dem : DEM)
    (section : SectionRow) : Result (list Intersection) :=
  rs <- mapM (process_pair dem section) faults ;; Ok (List.concat rs).

(** [process_intersections(sections, faults, dem)]: the records are appended
    in loop order; an exception in any iteration leaves the function. *)
Definition process_intersections (sections : list SectionRow)
    (faults : list FaultRow) (dem : DEM) : Result (list Intersection) :=
  rs <- mapM (process_section faults dem) sections ;; Ok (List.concat rs).

End ProcessIntersections.

(** *** Saving: one row per (section_id, fault_id) *)

Definition same_ids (s f : string) (r : Intersection) : bool :=
  String.eqb (section_id r) s && String.eqb (fault_id r) f.

(** [gdf.drop_duplicates(subset=["section_id", "fault_id"])]: a row is
    dropped when an earlier row carries the same two identifiers. *)
Fixpoint drop_duplicates_from (seen : list (string * string))
    (rows : list Intersection) : list Intersection :=
  match rows with
  | [] => []
  | r :: rest =>
      if existsb (fun k => String.eqb (fst k) (section_id r)
                           && String.eqb (snd k) (fault_id r)) seen
      then drop_duplicates_from seen rest
      else r :: drop_duplicates_from ((section_id r, fault_id r) :: seen) rest
  end.

Definition drop_duplicates (rows : list Intersection) : list Intersection :=
  drop_duplicates_from [] rows.

(** [save_results(intersections_info, crs, output_path)]: the rows written
    to the output file, for a list that holds at least one record.  On an
    empty list the table has no columns, the script raises before anything
    is written, and there are no rows to speak of. *)
Definition save_results (intersections_info : list Intersection)
    : list Intersection :=
  drop_duplicates intersections_info.

End Engine.

(** ** Fault extender: [Scripts/01_Extend_faults.py] *)

Module Extender.

(** A fault trace is the coordinate sequence of its [LineString]. *)
Definition Line : Type := list Point.

(** The model area is a polygon; only the set of points it covers matters. *)
Definition Area : Type := Point -> Prop.

(** [get_endpoints(line)] *)
Definition get_endpoints (line : Line) : Result (Point * Point) :=
  s <- first_coord line ;;
  e <- last_coord line ;;
  Ok (s, e).

(** [all_points.count(pt)]: equality of shapely points is equality of their
    coordinates. *)
Fixpoint count (pt : Point) (all_points : list Point) : nat :=
  match all_points with
  | [] => O
  | q :: rest => if Point_eqb q pt then S (count pt rest) else count pt rest
  end.

(** The dictionary [counts], as the list of its insertions, and [counts[pt]]. *)
Definition counts_of (all_points : list Point) : list (Point * nat) :=
  map (fun pt => (pt, count pt all_points)) all_points.

Fixpoint lookup (counts : list (Point * nat)) (pt : Point) : Result nat :=
  match counts with
  | [] => Raise KeyError
  | (q, n) :: rest => if Point_eqb q pt then Ok n else lookup rest pt
  end.

(** [count_connections(group)]: the column [endpoint_connections], one pair
    (multiplicity of the start, multiplicity of the end) per row. *)
Definition count_connections (group : list Line) : Result (list (nat * nat)) :=
  endpoints <- mapM get_endpoints group ;;
  let all_points := flat_map (fun se => [fst se; snd se]) endpoints in
  let counts := counts_of all_points in
  mapM (fun se =>
          c1 <- lookup counts (fst se) ;;
          c2 <- lookup counts (snd se) ;;
          Ok (c1, c2)) endpoints.

(** What [extend_fault] returns: the fault line it was given, or
    [extended_line.intersection(model_area.geometry.iloc[0])]. *)
Inductive Extended : Type :=
| Unchanged (fault_line : Line)
| Clipped (extended_line : Line) (model_area : Area).

(** [extend_fault(fault_line, connections, model_area, factor=1000)] *)
Definition extend_fault (fault_line : Line) (connections : nat * nat)
    (model_area : Area) (factor : R) : Result Extended :=
  start_point <- first_coord fault_line ;;
  end_point <- last_coord fault_line ;;
  let direction_x := px end_point - px start_point in
  let direction_y := py end_point - py start_point in
  let new_geometries : list Line := [] in
  let new_geometries :=
    if Nat.eqb (fst connections) 1
    then new_geometries ++
         [[(px start_point - direction_x * factor,
            py start_point - direction_y * factor);
           start_point]]
    else new_geometries in
  let new_geometries :=
    if Nat.eqb (snd connections) 1
    then new_geometries ++
         [[end_point;
           (px end_point + direction_x * factor,
            py end_point + direction_y * factor)]]
    else new_geometries in
  match new_geometries with
  | _ :: _ =>
      let extended_line :=
        [start_point] ++ List.concat new_geometries ++ [end_point] in
      Ok (Clipped extended_line model_area)
  | [] => Ok (Unchanged fault_line)
  end.

Definition default_factor : R := 1000.

(** [extended_faults.combine_first(faults_with_info)], on the geometry of one
    row: a null entry is filled from the other frame. *)
Definition combine_first {A : Type} (x other : option A) : option A :=
  match x with
  | Some a => Some a
  | None => other
  end.

(** The geometry [process_faults] writes for one row. *)
Definition final_geometry (fault_line : Line) (connections : nat * nat)
    (model_area : Area) : Result (option Extended) :=
  g <- extend_fault fault_line connections model_area default_factor ;;
  Ok (combine_first (Some g) (Some (Unchanged fault_line))).

(** *** Geometries as sets of points *)

Definition on_segment (p a b : Point) : Prop :=
  exists t : R, 0 <= t <= 1 /\
    px p = px a + t * (px b - px a) /\ py p = py a + t * (py b - py a).

Fixpoint on_line (p : Point) (l : Line) : Prop :=
  match l with
  | a :: ((b :: _) as rest) => on_segment p a b \/ on_line p rest
  | _ => False
  end.

Definition points_of (g : Extended) : Point -> Prop :=
  match g with
  | Unchanged l => fun p => on_line p l
  | Clipped l area => fun p => on_line p l /\ area p
  end.

Definition subset (A B : Point -> Prop) : Prop := forall p, A p -> B p.

Definition strict_superset (A B : Point -> Prop) : Prop :=
  subset B A /\ exists q, A q /\ ~ B q.

Definition is_empty (A : Point -> Prop) : Prop := forall p, ~ A p.

(** An axis-parallel rectangle, as a model area. *)
Definition box (x0 y0 x1 y1 : R) : Area :=
  fun p => x0 <= px p <= x1 /\ y0 <= py p <= y1.

End Extender.

(** ** Fault projector: [Scripts/03_Add_faults.py] *)

Module Projector.

(** A row of the dip file, with the columns the script reads. *)
Record DipRow : Type := mkDipRow {
  section_id : string;
  fault_id : string;
  distance : R;
  elevation : R;
  apparent_d : R;
  dip_side : string
}.

(** A feature of a section file: a line in the (distance, elevation) plane
    and its unit label. *)
Record Feature : Type := mkFeature {
  geometry : list Point;
  Uni : string
}.

(** [math.isclose(a, b, abs_tol=abs_tol)], with the default [rel_tol]. *)
Definition rel_tol : R := / 1000000000.

Definition isclose (a b abs_tol : R) : bool :=
  Req_b a b
  || (let diff := Rabs (b - a) in
      Rle_b diff (Rabs (rel_tol * b))
      || Rle_b diff (Rabs (rel_tol * a))
      || Rle_b diff abs_tol).

Definition abs_tol_dip : R := / 1000000.

(** [math.tan].  Floats are read as exact reals, and away from its poles the
    tangent the script calls is the real tangent.  At a pole the real
    tangent has no value (the library function [tan] is 0 there by
    convention), whereas the script gets a large finite number, since the
    double nearest to PI/2 is not PI/2: [math.tan(math.radians(90))] is
    1.633123935319537e16.  The projector is therefore defined over the
    tangent it is given; [regular_tangent] says that this tangent is the
    real one wherever the real one is defined, [steep_at_poles] that it is
    not small at a pole. *)
Definition regular_tangent (math_tan : R -> R) : Prop :=
  forall x : R, cos x <> 0 -> math_tan x = tan x.

Definition steep_at_poles (math_tan : R -> R) : Prop :=
  forall x : R, cos x = 0 -> 1 <= Rabs (math_tan x).

Section Tangent.

Variable math_tan : R -> R.

(** Body of the loop over the faults of one section: [None] is a
    [continue], [Some] is the dictionary appended to [new_faults]. *)
Definition project_fault (existing_faults : list string) (max_depth : R)
    (fault : DipRow) : option Feature :=
  let fault_id := fault_id fault in
  if existsb (String.eqb fault_id) existing_faults then None
  else
    let x_start := distance fault in
    let y_start := elevation fault in
    let apparent_dip_rad := radians (apparent_d fault) in
    if Req_b apparent_dip_rad 0
       || isclose (math_tan apparent_dip_rad) 0 abs_tol_dip
    then None
    else
      let direction := if String.eqb (dip_side fault) "L" then -1 else 1 in
      let length := max_depth / math_tan apparent_dip_rad in
      let x_end := x_start + direction * Rabs length in
      let y_end := max_depth in
      let fault_line := [(x_start, y_start); (x_end, y_end)] in
      Some {| geometry := fault_line; Uni := fault_id |}.

Fixpoint collect_new (existing_faults : list string) (max_depth : R)
    (section_faults : list DipRow) : list Feature :=
  match section_faults with
  | [] => []
  | fault :: rest =>
      match project_fault existing_faults max_depth fault with
      | Some feature => feature :: collect_new existing_faults max_depth rest
      | None => collect_new existing_faults max_depth rest
      end
  end.

(** The features appended to one section. *)
Definition new_faults (section_gdf : list Feature) (section_faults : list DipRow)
    (max_depth : R) : list Feature :=
  let existing_faults := map Uni section_gdf in
  collect_new existing_faults max_depth section_faults.

(** Body of the loop over the sections, once the section file is read:
    the feature collection written for the section. *)
Definition add_faults_to_section (section_gdf : list Feature)
    (section_faults : list DipRow) (max_depth : R) : list Feature :=
  match new_faults section_gdf section_faults max_depth with
  | (_ :: _) as faults => section_gdf ++ faults
  | [] => section_gdf
  end.

(** [dip_gdf["section_id"].unique()]: first occurrences, in order. *)
Fixpoint unique_from (seen : list string) (l : list string) : list string :=
  match l with
  | [] => []
  | s :: rest =>
      if existsb (String.eqb s) seen then unique_from seen rest
      else s :: unique_from (s :: seen) rest
  end.

Definition unique (l : list string) : list string := unique_from [] l.

(** A folder of section files: the feature collection of [<section_id>.shp],
    when the file exists. *)
Definition Folder : Type := string -> option (list Feature).

(** [add_faults_to_sections(sections_folder, output_folder, dip_file,
    max_depth)]: the files written to the output folder, in order. *)
Definition add_faults_to_sections (sections_folder : Folder)
    (dip_gdf : list DipRow) (max_depth : R) : list (string * list Feature) :=
  flat_map
    (fun sid =>
       match sections_folder sid with
       | None => []
       | Some section_gdf =>
           let section_faults :=
             filter (fun row => String.eqb (section_id row) sid) dip_gdf in
           [(sid, add_faults_to_section section_gdf section_faults max_depth)]
       end)
    (unique (map section_id dip_gdf)).

End Tangent.

(** The folder after the files of a run are written into it. *)
Fixpoint write_all (files : list (string * list Feature)) (folder : Folder)
    : Folder :=
  match files with
  | [] => folder
  | (sid, gdf) :: rest =>
      write_all rest
        (fun s => if String.eqb s sid then Some gdf else folder s)
  end.

End Projector.

(** ** Concrete inputs used by the examples below *)

Module Examples.

Import Engine.

(** A one-cell raster over the unit square, of elevation 2240. *)
Definition unit_dem : DEM :=
  {| dem_a := 1; dem_c := 0; dem_e := -1; dem_f := 1; dem_band1 := [[2240]] |}.

(** A 2 x 2 raster over the square [0, 2) x (0, 2]. *)
Definition dem22 : DEM :=
  {| dem_a := 1; dem_c := 0; dem_e := -1; dem_f := 2;
     dem_band1 := [[10; 20]; [30; 40]] |}.

(** A west-east section through the unit square and two south-north faults
    crossing it at (1/2, 1/2). *)
Definition section_A : SectionRow :=
  {| sec_name := "A"; sec_geometry := GLineString [(0, 1 / 2); (1, 1 / 2)] |}.

Definition fault_ok : FaultRow :=
  {| flt_Fault := "F1";
     flt_geometry := GLineString [(1 / 2, 0); (1 / 2, 1)];
     flt_Dip := 45; flt_azimuth := 0; flt_Side_Dip := "R";
     flt_dip_direct := "E" |}.

Definition fault_steep : FaultRow :=
  {| flt_Fault := "F2";
     flt_geometry := GLineString [(1 / 2, 0); (1 / 2, 1)];
     flt_Dip := 100; flt_azimuth := 0; flt_Side_Dip := "L";
     flt_dip_direct := "W" |}.

(** An intersection oracle for these lines: every pair crosses at the
    centre of the unit square. *)
Definition cross_at_centre (section fault : Geometry) : Geometry :=
  GPoint (1 / 2, 1 / 2).

(** The same, with the crossing reported twice. *)
Definition cross_twice (section fault : Geometry) : Geometry :=
  GMultiPoint [(1 / 2, 1 / 2); (1 / 2, 1 / 2)].

(** A two-part fault: a first part along the x axis and a second part that
    ends on the y axis. *)
Definition two_part_fault : Geometry :=
  GMultiLineString [[(0, 0); (1, 0)]; [(1, 0); (0, 1)]].

Definition x_axis_section : Geometry := GLineString [(0, 0); (1, 0)].

(** The chord from the first vertex of the first part to the last vertex of
    the last part of a multi-part line. *)
Definition overall_chord (g : Geometry) : Geometry :=
  match g with
  | GMultiLineString (first_part :: rest) =>
      match first_part with
      | a :: _ => GLineString [a; last (last rest first_part) a]
      | [] => g
      end
  | _ => g
  end.

End Examples.

(** ** Auxiliary notions used in the statements *)

(** Whether a pair of identifiers was met before, in [drop_duplicates]. *)
Definition seen_ids (s f : string) (seen : list (string * string)) : bool :=
  existsb (fun k => String.eqb (fst k) s && String.eqb (snd k) f) seen.

(** The cosine handed to [math.acos] after clamping. *)
Definition clamped_cos (a b c d : Point) : R :=
  let v1 := (px b - px a, py b - py a) in
  let v2 := (px d - px c, py d - py c) in
  Rmax (-1) (Rmin 1 ((fst v1 * fst v2 + snd v1 * snd v2)
                     / (hypot (fst v1) (snd v1) * hypot (fst v2) (snd v2)))).

(** Equality of points is decidable, coordinate by coordinate. *)
Definition Point_eq_dec (p q : Point) : {p = q} + {p <> q}.
Proof.
  destruct p as [a b], q as [c d].
  destruct (Req_dec_T a c) as [Hac|Hac].
  - destruct (Req_dec_T b d) as [Hbd|Hbd].
    + left. subst. reflexivity.
    + right. intros H. inversion H. contradiction.
  - right. intros H. inversion H. contradiction.
Defined.

(** Two fault traces on the x axis whose facing endpoints are [eps] apart. *)
Definition gap_group (eps : R) : list Extender.Line :=
  [[(0, 0); (1, 0)]; [(1 + eps, 0); (2, 0)]].

(** An L-shaped model area: the union of two rectangles. *)
Definition L_area : Extender.Area :=
  fun p => Extender.box 0 0 2 1 p \/ Extender.box 0 0 1 2 p.

(** A fault trace running along the inner corner of the L. *)
Definition corner_fault : Extender.Line := [(2, 1); (1, 1); (1, 2)].

(** A set of points that contains no segment of positive length. *)
Definition degenerate (A : Point -> Prop) : Prop :=
  forall p q : Point, p <> q ->
    ~ (forall r, Extender.on_segment r p q -> A r).

(** The direction sign of the projector, as the script computes it. *)
Definition direction_sign (dip_side : string) : R :=
  if String.eqb dip_side "L" then -1 else 1.

(** The far point of the extension at the start, and at the end. *)
Definition far_start (a b : Point) (factor : R) : Point :=
  (px a - (px b - px a) * factor, py a - (py b - py a) * factor).

Definition far_end (a b : Point) (factor : R) : Point :=
  (px b + (px b - px a) * factor, py b + (py b - py a) * factor).

(** The trace of a two-vertex fault, as a set of points. *)
Definition trace (a b : Point) : Point -> Prop :=
  fun p => Extender.on_line p [a; b].

(** Rows of a dip file for the scenario of the projector: a fault crossing
    at distance 500 and elevation 100 with an apparent dip of 45 degrees. *)
Definition dip_row (side : string) : Projector.DipRow :=
  {| Projector.section_id := "A";
     Projector.fault_id := "F1";
     Projector.distance := 500;
     Projector.elevation := 100;
     Projector.apparent_d := 45;
     Projector.dip_side := side |}.

(** The segment the projector emits for a row, once the row is not
    skipped. *)
Definition projected_segment (math_tan : R -> R) (max_depth : R)
    (fault : Projector.DipRow) : list Point :=
  [(Projector.distance fault, Projector.elevation fault);
   (Projector.distance fault
    + direction_sign (Projector.dip_side fault)
      * Rabs (max_depth / math_tan (radians (Projector.apparent_d fault))),
    max_depth)].

(** The tangent of the examples: the real tangent away from the poles and,
    at a pole, the value 1.633123935319537e16 that the script gets from
    [math.tan(math.radians(90))]; an apparent dip of 90 is the only pole
    the examples meet. *)
Definition float_tan (x : R) : R :=
  if Req_b (cos x) 0 then 16331239353195370 else tan x.

(** The row of a fault that is vertical in the section: an apparent dip of
    90 degrees. *)
Definition vertical_row : Projector.DipRow :=
  {| Projector.section_id := "A";
     Projector.fault_id := "F2";
     Projector.distance := 500;
     Projector.elevation := 100;
     Projector.apparent_d := 90;
     Projector.dip_side := "R" |}.

(** A section file with one unit boundary. *)
Definition section_file : list Projector.Feature :=
  [{| Projector.geometry := [(0, 0); (1000, 0)]; Projector.Uni := "Basalt" |}].

Definition one_section_folder : Projector.Folder :=
  fun s => if String.eqb s "A" then Some section_file else None.

(** The record of the crossing of section A and fault F1: a right angle,
    so the apparent dip is the true dip. *)
Definition record_A_F1 : Engine.Intersection :=
  {| Engine.geometry := (1 / 2, 1 / 2);
     Engine.elevation := 2240;
     Engine.distance := 1 / 2;
     Engine.angle := 90;
     Engine.Azimuth := 0;
     Engine.apparent_dip := 45;
     Engine.true_dip := 45;
     Engine.dip_side := "R";
     Engine.section_id := "A";
     Engine.fault_id := "F1";
     Engine.dip_direction := "E" |}.

(** ** Further notions used in the statements about the engine *)

(** The chord a line geometry contributes to [calculate_angle]: first and
    last vertex of the line, or of the first part of a multi-part line. *)
Definition line_chord (g : Engine.Geometry) : option (Point * Point) :=
  match g with
  | Engine.GLineString (a :: l) => Some (a, last l a)
  | Engine.GMultiLineString ((a :: l) :: _) => Some (a, last l a)
  | _ => None
  end.

Definition is_line (g : Engine.Geometry) : bool :=
  match g with
  | Engine.GLineString _ | Engine.GMultiLineString _ => true
  | _ => false
  end.

(** The last part of [calculate_angle], from the two chords on. *)
Definition chord_angle (c1 c2 : Point * Point) : Result R :=
  let v1 := (px (snd c1) - px (fst c1), py (snd c1) - py (fst c1)) in
  let v2 := (px (snd c2) - px (fst c2), py (snd c2) - py (fst c2)) in
  let mag_v1 := hypot (fst v1) (snd v1) in
  let mag_v2 := hypot (fst v2) (snd v2) in
  if Req_b mag_v1 0 || Req_b mag_v2 0
  then Raise (ValueError "One of the lines has zero length.")
  else
    Ok (degrees (acos (Rmax (-1) (Rmin 1
          ((fst v1 * fst v2 + snd v1 * snd v2) / (mag_v1 * mag_v2)))))).

(** A line digitised in the opposite direction. *)
Definition reverse_line (g : Engine.Geometry) : Engine.Geometry :=
  match g with
  | Engine.GLineString l => Engine.GLineString (rev l)
  | _ => g
  end.

(** The cell of a band at a row and a column counted from 0. *)
Definition cell (band : list (list R)) (row col : Z) : option R :=
  match nth_error band (Z.to_nat row) with
  | Some cells => nth_error cells (Z.to_nat col)
  | None => None
  end.

Definition rectangular (band : list (list R)) : Prop :=
  forall cells, In cells band -> List.length cells = List.length (hd [] band).

(** The pairs of identifiers of a list of records. *)
Definition ids (r : Engine.Intersection) : string * string :=
  (Engine.section_id r, Engine.fault_id r).

(** The number of crossing points met by the two loops. *)
Definition count_crossings
    (intersection : Engine.Geometry -> Engine.Geometry -> Engine.Geometry)
    (sections : list Engine.SectionRow) (faults : list Engine.FaultRow) : nat :=
  list_sum
    (map (fun s =>
            list_sum
              (map (fun f =>
                      List.length (Engine.crossing_points intersection s f))
                   faults))
         sections).

(** ** Further notions used in the statements about the extender *)

(** The endpoints of a trace, for a trace with at least one vertex. *)
Definition endpoints_of (line : Extender.Line) : Point * Point :=
  match line with
  | [] => ((0, 0), (0, 0))
  | a :: rest => (a, last rest a)
  end.

(** All endpoints of a group, with repetitions. *)
Definition all_endpoints (group : list Extender.Line) : list Point :=
  flat_map (fun line => [fst (endpoints_of line); snd (endpoints_of line)]) group.

(** The number of endpoints of the group equal to a point. *)
Definition multiplicity (group : list Extender.Line) (p : Point) : nat :=
  count_occ Point_eq_dec (all_endpoints group) p.

Definition connections_of (group : list Extender.Line) (line : Extender.Line)
    : nat * nat :=
  (multiplicity group (fst (endpoints_of line)),
   multiplicity group (snd (endpoints_of line))).

(** ** Further notions used in the statements about the projector *)

(** A row of the dip file as the projector reads it back: the engine's
    column [apparent_dip] is stored under the ten-character name
    [apparent_d]. *)
Definition dip_file_row (r : Engine.Intersection) : Projector.DipRow :=
  {| Projector.section_id := Engine.section_id r;
     Projector.fault_id := Engine.fault_id r;
     Projector.distance := Engine.distance r;
     Projector.elevation := Engine.elevation r;
     Projector.apparent_d := Engine.apparent_dip r;
     Projector.dip_side := Engine.dip_side r |}.

(** The rows of the dip file for one section. *)
Definition rows_of_section (sid : string) (dip_gdf : list Projector.DipRow)
    : list Projector.DipRow :=
  filter (fun row => String.eqb (Projector.section_id row) sid) dip_gdf.

(** ** Merging and segmenting sections: [Scripts/08_Gempy_Merge_sections.py] *)

Module Merge.

(** A row of a section shapefile: its unit and its geometry, which may be
    null. *)
Record ShapeRow : Type := mkShapeRow {
  shp_Uni : string;
  shp_geometry : option Engine.Geometry
}.

(** A row of the merged table. *)
Record Row : Type := mkRow {
  name : string;
  formation : string;
  geometry : Engine.Geometry
}.

(** [convert_multilinestring(geom)] *)
Definition convert_multilinestring (geom : Engine.Geometry)
    : Result Engine.Geometry :=
  match geom with
  | Engine.GMultiLineString parts =>
      l <- first_coord parts ;; Ok (Engine.GLineString l)
  | _ => Ok geom
  end.

(** [merge_shapefiles(shapes_directory)], on the shapefiles of the
    directory in listing order, each with its name without extension:
    [pd.concat] refuses an empty list; rows with a null geometry are
    dropped; the conversion is applied row by row. *)
Definition merge_shapefiles (shapes : list (string * list ShapeRow))
    : Result (list Row) :=
  match shapes with
  | [] => Raise (ValueError "No objects to concatenate")
  | _ :: _ =>
      let merged :=
        flat_map (fun shape =>
                    map (fun row => (fst shape, row)) (snd shape)) shapes in
      let not_null :=
        flat_map (fun nr =>
                    match shp_geometry (snd nr) with
                    | Some g => [(fst nr, shp_Uni (snd nr), g)]
                    | None => []
                    end) merged in
      mapM (fun r =>
              g <- convert_multilinestring (snd r) ;;
              Ok {| name := fst (fst r); formation := snd (fst r);
                    geometry := g |}) not_null
  end.

(** The inner loop of [segment_lines]: the segments between consecutive
    vertices. *)
Fixpoint consecutive (coords : list Point) : list (Point * Point) :=
  match coords with
  | a :: ((b :: _) as rest) => (a, b) :: consecutive rest
  | _ => []
  end.

Definition segment_row (row : Row) : list Row :=
  match geometry row with
  | Engine.GLineString coords =>
      map (fun ab => {| name := name row; formation := formation row;
                        geometry := Engine.GLineString [fst ab; snd ab] |})
          (consecutive coords)
  | _ => []
  end.

(** The number of segments of a row: one less than its vertices for a
    line, none for any other geometry. *)
Definition segment_count (row : Row) : nat :=
  match geometry row with
  | Engine.GLineString coords => (List.length coords - 1)%nat
  | _ => O
  end.

(** [segment_lines(gdf)] *)
Definition segment_lines (gdf : list Row) : list Row :=
  flat_map segment_row gdf.

End Merge.

(** ** Fault points of the interfaces table: [Scripts/09_Gempy_Int.py] *)

Module Interfaces.

(** A point extracted from a cross section. *)
Record XYZ : Type := mkXYZ {
  formation : string;
  name : string;
  X : R;
  Y : R;
  Z : R
}.

Definition isin (s : string) (l : list string) : bool :=
  existsb (String.eqb s) l.

Definition same_key (p q : XYZ) : bool :=
  String.eqb (formation p) (formation q) && String.eqb (name p) (name q).

(** [drop_duplicates(subset=['formation', 'name'], keep='first')] *)
Fixpoint drop_duplicates_from (seen : list XYZ) (rows : list XYZ) : list XYZ :=
  match rows with
  | [] => []
  | r :: rest =>
      if existsb (same_key r) seen then drop_duplicates_from seen rest
      else r :: drop_duplicates_from (r :: seen) rest
  end.

Definition drop_duplicates (rows : list XYZ) : list XYZ :=
  drop_duplicates_from [] rows.

(** A sort by decreasing [Z], one of the orders [sort_values] may return:
    insertion sort. *)
Fixpoint insert_desc (p : XYZ) (l : list XYZ) : list XYZ :=
  match l with
  | [] => [p]
  | q :: rest => if Rle_b (Z q) (Z p) then p :: l else q :: insert_desc p rest
  end.

Fixpoint sort_desc (l : list XYZ) : list XYZ :=
  match l with
  | [] => []
  | p :: rest => insert_desc p (sort_desc rest)
  end.

Section FaultPoints.

(** [sort_values(by='Z', ascending=False)]: the algorithm is not stable, so
    only what every sort guarantees is assumed of it. *)
Variable sort_values : list XYZ -> list XYZ.

(** [gg.vector.clip_by_polygon] on points: the points inside the polygon. *)
Variable inside : XYZ -> bool.

(** The two tables of [process_sections], from the rounded points on:
    the points that are not faults, and the fault points kept. *)
Definition non_fault_points (fault_id_list : list string) (xyz_points : list XYZ)
    : list XYZ :=
  filter (fun p => negb (isin (formation p) fault_id_list)) xyz_points.

Definition fault_points (fault_id_list : list string) (xyz_points : list XYZ)
    : list XYZ :=
  let fault_points :=
    filter (fun p => isin (formation p) fault_id_list) xyz_points in
  let fault_points := sort_values fault_points in
  let fault_points := drop_duplicates fault_points in
  filter inside fault_points.

End FaultPoints.

End Interfaces.

(** ** Fault orientations: [Scripts/10_Gempy_Ori.py] *)

Module Orientations.

(** A row of [dip_reduced]: the dip table with its columns renamed. *)
Record DipReduced : Type := mkDipReduced {
  formation : string;
  name : string;
  azimuth : string;
  dip : R
}.

(** [dip[['fault_id', 'section_id', 'dip_direct', 'true_dip']].rename(...)];
    the engine's column [dip_direction] is stored as [dip_direct]. *)
Definition dip_reduced (r : Engine.Intersection) : DipReduced :=
  {| formation := Engine.fault_id r;
     name := Engine.section_id r;
     azimuth := Engine.dip_direction r;
     dip := Engine.true_dip r |}.

Definition matches (p : Interfaces.XYZ) (d : DipReduced) : bool :=
  String.eqb (Interfaces.formation p) (formation d)
  && String.eqb (Interfaces.name p) (name d).

(** [filtered_gdf.merge(dip_reduced, on=['formation', 'name'], how='left')]:
    every left row, in order, with each matching right row, or alone when
    none matches. *)
Definition merge_left (left : list Interfaces.XYZ) (right : list DipReduced)
    : list (Interfaces.XYZ * option DipReduced) :=
  flat_map (fun p =>
              match filter (matches p) right with
              | [] => [(p, None)]
              | (_ :: _) as ds => map (fun d => (p, Some d)) ds
              end) left.

End Orientations.

(** ** Completing the output folder: [Scripts/04_Add_original_sections.py] *)

Module Originals.

(** A folder of shapefiles: the feature collection of [<stem>.shp], when the
    file exists.  A shapefile is taken whole: the files that go with it
    (shx, dbf, prj) share its stem, are present when it is, and are copied
    with it. *)
Definition Folder : Type := Projector.Folder.

(** [name not in generated_shapefiles] *)
Definition exists_in (folder : Folder) (name : string) : bool :=
  match folder name with Some _ => true | None => false end.

(** The names for which the pattern [f"{name}.*"] is read letter by letter:
    not empty, and without the pattern characters of [glob] or a path
    separator. *)
Definition plain_char (c : Ascii.ascii) : bool :=
  negb (Ascii.eqb c "*" || Ascii.eqb c "?" || Ascii.eqb c "["
        || Ascii.eqb c "/")%char.

Fixpoint plain_chars (name : string) : bool :=
  match name with
  | EmptyString => true
  | String c rest => plain_char c && plain_chars rest
  end.

Definition plain_name (name : string) : bool :=
  negb (String.eqb name "") && plain_chars name.

(** [glob.glob(os.path.join(backup_folder, f"{name}.*"))], on the stems of
    the shapefiles of the backup folder: for a plain name the pattern
    matches the file names that start with the name followed by a dot, so
    the files of the shapefile [name] and of every shapefile whose stem is
    [name], a dot and more. *)
Definition related (name stem : string) : bool :=
  String.eqb stem name || String.prefix (name ++ ".")%string stem.

(** The inner loop for one missing name: every file found is copied over
    the file of the same name in the output folder ([shutil.copy]
    overwrites). *)
Definition copy_related (name : string) (backup output : Folder) : Folder :=
  fun stem =>
    if related name stem
    then match backup stem with
         | Some content => Some content
         | None => output stem
         end
    else output stem.

(** [verify_and_copy_shapefiles], on the names of the sections that meet the
    model area and for an output folder that exists (the projector creates
    it): for each name missing from the output folder, the files the
    pattern finds in the backup folder are copied. *)
Definition verify_and_copy_shapefiles (model_area_empty : bool)
    (expected_names : list string) (output backup : Folder) : Folder :=
  if model_area_empty then output
  else
    let missing_names :=
      filter (fun name => negb (exists_in output name)) expected_names in
    fold_left (fun out name => copy_related name backup out)
      missing_names output.

End Originals.

(** The pair of columns on which fault points are compared. *)
Definition xyz_key (p : Interfaces.XYZ) : string * string :=
  (Interfaces.formation p, Interfaces.name p).

(** Three points of one fault in one section, and a point of a unit. *)
Definition fault_point (z : R) : Interfaces.XYZ :=
  {| Interfaces.formation := "F1"; Interfaces.name := "A";
     Interfaces.X := 500; Interfaces.Y := 0; Interfaces.Z := z |}.

(** ** Basic facts about the numeric layer *)

Lemma Req_b_true (a b : R) : Req_b a b = true <-> a = b.
Proof. unfold Req_b; destruct (Req_dec_T a b); split; congruence. Qed.

Lemma Req_b_false (a b : R) : Req_b a b = false <-> a <> b.
Proof. unfold Req_b; destruct (Req_dec_T a b); split; congruence. Qed.

Lemma Rle_b_true (a b : R) : Rle_b a b = true <-> a <= b.
Proof. unfold Rle_b; destruct (Rle_dec a b); split; auto; discriminate. Qed.

Lemma Rle_b_false (a b : R) : Rle_b a b = false <-> b < a.
Proof.
  unfold Rle_b; destruct (Rle_dec a b); split; intros; try discriminate; try lra; auto.
Qed.

Lemma Point_eqb_true (p q : Point) : Point_eqb p q = true <-> p = q.
Proof.
  destruct p as [a b], q as [c d]; unfold Point_eqb, px, py; simpl.
  rewrite andb_true_iff, !Req_b_true. split.
  - intros [-> ->]; reflexivity.
  - intros H; inversion H; auto.
Qed.

Lemma Point_eqb_false (p q : Point) : Point_eqb p q = false <-> p <> q.
Proof.
  rewrite <- Point_eqb_true. destruct (Point_eqb p q); split; congruence.
Qed.

Lemma Point_eqb_refl (p : Point) : Point_eqb p p = true.
Proof. apply Point_eqb_true; reflexivity. Qed.

Lemma degrees_radians (x : R) : degrees (radians x) = x.
Proof. unfold degrees, radians. pose proof PI_RGT_0. field. lra. Qed.

Lemma radians_degrees (x : R) : radians (degrees x) = x.
Proof. unfold degrees, radians. pose proof PI_RGT_0. field. lra. Qed.

(** Decides every comparison of two concrete points in the goal. *)
Ltac decide_points :=
  repeat match goal with
  | |- context [Point_eqb ?p ?p] => rewrite (Point_eqb_refl p)
  | |- context [Point_eqb ?p ?q] =>
      replace (Point_eqb p q) with false
        by (symmetry; apply Point_eqb_false;
            let H := fresh in intros H; inversion H; lra)
  end.

(** ** Loops that may raise *)

Section MapM.

Context {A B : Type} (f : A -> Result B).

Lemma mapM_cons_ok (a : A) (l : list A) (b : B) (bs : list B) :
  f a = Ok b -> mapM f l = Ok bs -> mapM f (a :: l) = Ok (b :: bs).
Proof. intros Ha Hl. simpl. rewrite Ha. simpl. rewrite Hl. reflexivity. Qed.

Lemma mapM_ok_inv (a : A) (l : list A) (cs : list B) :
  mapM f (a :: l) = Ok cs ->
  exists b bs, f a = Ok b /\ mapM f l = Ok bs /\ cs = b :: bs.
Proof.
  simpl. destruct (f a) as [b|e]; simpl; [|discriminate].
  destruct (mapM f l) as [bs|e]; simpl; [|discriminate].
  intros H; inversion H; subst. eauto.
Qed.

Lemma mapM_ok_in (l : list A) (bs : list B) (a : A) :
  mapM f l = Ok bs -> In a l -> exists b, f a = Ok b /\ In b bs.
Proof.
  revert bs. induction l as [|x l IH]; intros bs H Hin; [contradiction|].
  apply mapM_ok_inv in H. destruct H as (b & bs' & Hx & Hl & ->).
  destruct Hin as [->|Hin].
  - exists b. split; [assumption | left; reflexivity].
  - destruct (IH _ Hl Hin) as (b' & Hb' & Hin'). exists b'. split; [assumption|].
    right; assumption.
Qed.

Lemma mapM_length (l : list A) (bs : list B) :
  mapM f l = Ok bs -> List.length bs = List.length l.
Proof.
  revert bs. induction l as [|x l IH]; intros bs H.
  - inversion H; reflexivity.
  - apply mapM_ok_inv in H. destruct H as (b & bs' & _ & Hl & ->).
    simpl. f_equal. apply IH; assumption.
Qed.

Lemma mapM_raise_in (l : list A) (a : A) (e : PyError) :
  In a l -> f a = Raise e -> exists e', mapM f l = Raise e'.
Proof.
  induction l as [|x l IH]; intros Hin Ha; [contradiction|].
  simpl. destruct (f x) as [b|e'] eqn:Hx; simpl; [|eauto].
  destruct Hin as [->|Hin]; [congruence|].
  destruct (IH Hin Ha) as [e' He']. rewrite He'. simpl. eauto.
Qed.

Lemma mapM_all_ok (l : list A) :
  (forall a, In a l -> exists b, f a = Ok b) -> exists bs, mapM f l = Ok bs.
Proof.
  induction l as [|x l IH]; intros H.
  - exists []. reflexivity.
  - destruct (H x (or_introl eq_refl)) as [b Hb].
    destruct IH as [bs Hbs]; [intros a Ha; apply H; right; assumption|].
    exists (b :: bs). apply mapM_cons_ok; assumption.
Qed.

End MapM.

Lemma in_concat_intro {A : Type} (x : A) (l : list A) (ls : list (list A)) :
  In l ls -> In x l -> In x (List.concat ls).
Proof. intros Hl Hx. apply in_concat. exists l. split; assumption. Qed.

(** ** A numeric enclosure of the second scenario of the apparent dip *)





(** ** Claims about the apparent dip *)

Lemma in_range_b (lo hi x : R) :
  Rle_b lo x && Rle_b x hi = true <-> lo <= x <= hi.
Proof. rewrite andb_true_iff, !Rle_b_true. tauto. Qed.

Lemma apparent_dip_in_range (theta delta : R) :
  0 <= theta <= 180 -> 0 <= delta <= 90 ->
  Engine.calculate_apparent_dip theta delta
  = Ok (degrees (atan (sin (radians theta) * tan (radians delta)))).
Proof.
  intros Ht Hd. unfold Engine.calculate_apparent_dip.
  apply in_range_b in Ht. apply in_range_b in Hd.
  rewrite Ht, Hd. reflexivity.
Qed.

Lemma apparent_dip_out_of_range (theta delta : R) :
  ~ (0 <= theta <= 180 /\ 0 <= delta <= 90) ->
  Engine.calculate_apparent_dip theta delta
  = Raise (ValueError "Angle or dip out of valid range.").
Proof.
  intros H. unfold Engine.calculate_apparent_dip.
  destruct (Rle_b 0 theta && Rle_b theta 180) eqn:Ht;
    destruct (Rle_b 0 delta && Rle_b delta 90) eqn:Hd; try reflexivity.
  exfalso. apply H. split; apply in_range_b; assumption.
Qed.

Lemma radians_90 : radians 90 = PI / 2.
Proof. unfold radians. field. Qed.

Lemma radians_45 : radians 45 = PI / 4.
Proof. unfold radians. field. Qed.


Lemma degrees_PI4 : degrees (PI / 4) = 45.
Proof. rewrite <- radians_45. apply degrees_radians. Qed.


(** ** The engine: de-duplication and exceptions in the batch *)

Section EngineBatch.

Import Engine.

Variable intersection : Geometry -> Geometry -> Geometry.

Lemma process_point_ids section fault dem point r :
  process_point section fault dem point = Ok r ->
  section_id r = sec_name section /\ fault_id r = flt_Fault fault.
Proof.
  unfold process_point.
  destruct (get_elevation (px point) (py point) dem); simpl; [|discriminate].
  destruct (coords (sec_geometry section)) as [cs|]; simpl; [|discriminate].
  destruct (first_coord cs); simpl; [|discriminate].
  destruct (calculate_angle _ _) as [ang|]; simpl; [|discriminate].
  destruct (calculate_apparent_dip ang (flt_Dip fault)); simpl; [|discriminate].
  intros H; inversion H; subst; simpl. split; reflexivity.
Qed.

Lemma process_pair_records dem section fault rs :
  process_pair intersection dem section fault = Ok rs ->
  List.length rs = List.length (crossing_points intersection section fault)
  /\ forall r, In r rs ->
       section_id r = sec_name section /\ fault_id r = flt_Fault fault.
Proof.
  unfold process_pair. intros H. split.
  - eapply mapM_length; eassumption.
  - revert rs H.
    induction (crossing_points intersection section fault) as [|p ps IH];
      intros rs H r Hr.
    + inversion H; subst. contradiction.
    + apply mapM_ok_inv in H. destruct H as (b & bs & Hb & Hbs & ->).
      destruct Hr as [<-|Hr].
      * eapply process_point_ids; eassumption.
      * eapply IH; eassumption.
Qed.

Lemma process_section_pair faults dem section rs fault :
  process_section intersection faults dem section = Ok rs ->
  In fault faults ->
  exists rs', process_pair intersection dem section fault = Ok rs'
              /\ incl rs' rs.
Proof.
  unfold process_section. intros H Hin.
  destruct (mapM (process_pair intersection dem section) faults) as [rss|] eqn:Hm;
    simpl in H; [|discriminate].
  inversion H; subst.
  destruct (mapM_ok_in _ _ _ _ Hm Hin) as (rs' & Hrs' & Hin').
  exists rs'. split; [assumption|].
  intros x Hx. eapply in_concat_intro; eassumption.
Qed.

Lemma process_intersections_pair sections faults dem info section fault :
  process_intersections intersection sections faults dem = Ok info ->
  In section sections -> In fault faults ->
  exists rs, process_pair intersection dem section fault = Ok rs
             /\ incl rs info.
Proof.
  unfold process_intersections. intros H Hs Hf.
  destruct (mapM (process_section intersection faults dem) sections)
    as [rss|] eqn:Hm; simpl in H; [|discriminate].
  inversion H; subst.
  destruct (mapM_ok_in _ _ _ _ Hm Hs) as (rs1 & Hrs1 & Hin1).
  destruct (process_section_pair _ _ _ _ _ Hrs1 Hf) as (rs & Hrs & Hincl).
  exists rs. split; [assumption|].
  intros x Hx. eapply in_concat_intro; [eassumption|]. apply Hincl; assumption.
Qed.

Lemma process_section_raise faults dem section fault e :
  In fault faults ->
  process_pair intersection dem section fault = Raise e ->
  exists e', process_section intersection faults dem section = Raise e'.
Proof.
  intros Hin He. unfold process_section.
  destruct (mapM_raise_in _ _ _ _ Hin He) as [e' He']. rewrite He'. simpl. eauto.
Qed.

Lemma process_intersections_raise sections faults dem section fault e :
  In section sections -> In fault faults ->
  process_pair intersection dem section fault = Raise e ->
  exists e', process_intersections intersection sections faults dem = Raise e'.
Proof.
  intros Hs Hf He.
  destruct (process_section_raise _ _ _ _ _ Hf He) as [e1 He1].
  unfold process_intersections.
  destruct (mapM_raise_in _ _ _ _ Hs He1) as [e' He']. rewrite He'. simpl. eauto.
Qed.

End EngineBatch.

Section DropDuplicates.

Import Engine.

Lemma same_ids_true s f r :
  same_ids s f r = true <-> section_id r = s /\ fault_id r = f.
Proof. unfold same_ids. rewrite andb_true_iff, !String.eqb_eq. tauto. Qed.

Lemma drop_duplicates_from_filter rows : forall seen s f,
  filter (same_ids s f) (drop_duplicates_from seen rows)
  = if seen_ids s f seen then [] else firstn 1 (filter (same_ids s f) rows).
Proof.
  induction rows as [|r rest IH]; intros seen s f; simpl.
  - destruct (seen_ids s f seen); reflexivity.
  - fold (seen_ids (section_id r) (fault_id r) seen).
    destruct (same_ids s f r) eqn:Hsame.
    + apply same_ids_true in Hsame. destruct Hsame as [<- <-].
      destruct (seen_ids (section_id r) (fault_id r) seen) eqn:Hseen.
      * rewrite IH, Hseen. reflexivity.
      * simpl. unfold same_ids at 1. rewrite !String.eqb_refl. simpl.
        rewrite IH. unfold seen_ids; simpl. rewrite !String.eqb_refl. reflexivity.
    + destruct (seen_ids (section_id r) (fault_id r) seen) eqn:Hseen.
      * apply IH.
      * simpl. rewrite Hsame, IH. unfold seen_ids; simpl.
        unfold same_ids in Hsame. rewrite Hsame. reflexivity.
Qed.

Lemma save_results_filter info s f :
  filter (same_ids s f) (save_results info)
  = firstn 1 (filter (same_ids s f) info).
Proof. unfold save_results, drop_duplicates. apply drop_duplicates_from_filter. Qed.

Lemma drop_duplicates_from_incl rows : forall seen,
  incl (drop_duplicates_from seen rows) rows.
Proof.
  induction rows as [|r rest IH]; intros seen; simpl.
  - apply incl_refl.
  - destruct (existsb _ seen).
    + apply incl_tl, IH.
    + apply incl_cons; [left; reflexivity | apply incl_tl, IH].
Qed.

End DropDuplicates.

(** C2.  Whatever list of records is handed to [save_results], a pair of
    identifiers carried by at least one record is carried by exactly one
    saved record, the first of them in loop order; in particular, when
    [process_intersections] returns, every (section, fault) pair with at
    least one crossing point has exactly one saved record. *)
Theorem C2_one_record_per_pair :
  (forall (info : list Engine.Intersection) (s f : string),
      (1 <= List.length (filter (Engine.same_ids s f) info))%nat ->
      exists r,
        filter (Engine.same_ids s f) (Engine.save_results info) = [r]
        /\ hd_error (filter (Engine.same_ids s f) info) = Some r)
  /\ (forall intersection sections faults dem info section fault,
      Engine.process_intersections intersection sections faults dem = Ok info ->
      In section sections -> In fault faults ->
      (1 <= List.length (Engine.crossing_points intersection section fault))%nat ->
      exists r,
        filter (Engine.same_ids (Engine.sec_name section) (Engine.flt_Fault fault))
               (Engine.save_results info) = [r]
        /\ In r info).
Proof.
  assert (first_part : forall (info : list Engine.Intersection) (s f : string),
      (1 <= List.length (filter (Engine.same_ids s f) info))%nat ->
      exists r,
        filter (Engine.same_ids s f) (Engine.save_results info) = [r]
        /\ hd_error (filter (Engine.same_ids s f) info) = Some r).
  { intros info s f Hn. rewrite save_results_filter.
    destruct (filter (Engine.same_ids s f) info) as [|r rest] eqn:Hf.
    - simpl in Hn. lia.
    - exists r. split; reflexivity. }
  split; [exact first_part|].
  intros intersection sections faults dem info section fault Hrun Hs Hf Hn.
  destruct (process_intersections_pair _ _ _ _ _ _ _ Hrun Hs Hf) as (rs & Hrs & Hincl).
  destruct (process_pair_records _ _ _ _ _ Hrs) as [Hlen Hids].
  destruct rs as [|r0 rs]; [simpl in Hlen; lia|].
  assert (Hin0 : In r0 (filter (Engine.same_ids (Engine.sec_name section)
                                   (Engine.flt_Fault fault)) info)).
  { apply filter_In. split; [apply Hincl; left; reflexivity|].
    apply same_ids_true. apply Hids. left; reflexivity. }
  remember (filter (Engine.same_ids (Engine.sec_name section)
                      (Engine.flt_Fault fault)) info) as fl eqn:Hfl.
  destruct fl as [|x xs]; [contradiction|].
  destruct (first_part info (Engine.sec_name section) (Engine.flt_Fault fault))
    as (r & Hr & Hhd).
  { rewrite <- Hfl. simpl. lia. }
  exists r. split; [assumption|].
  rewrite <- Hfl in Hhd. simpl in Hhd. inversion Hhd; subst x.
  assert (Hin : In r (filter (Engine.same_ids (Engine.sec_name section)
                                (Engine.flt_Fault fault)) info))
    by (rewrite <- Hfl; left; reflexivity).
  apply filter_In in Hin. tauto.
Qed.
(** ** The engine: angle, elevation, and concrete runs *)

Section EngineAngle.

Import Engine.

Lemma hypot_nonneg (x y : R) : 0 <= hypot x y.
Proof. unfold hypot. apply sqrt_pos. Qed.

Lemma hypot_eq_0 (x y : R) : hypot x y = 0 <-> x = 0 /\ y = 0.
Proof.
  unfold hypot. split.
  - intros H. apply sqrt_eq_0 in H; [|nra]. split; nra.
  - intros [-> ->]. replace (0 * 0 + 0 * 0) with 0 by ring. apply sqrt_0.
Qed.

Lemma hypot_1_0 : hypot 1 0 = 1.
Proof. unfold hypot. replace (1 * 1 + 0 * 0) with 1 by ring. apply sqrt_1. Qed.

Lemma hypot_0_1 : hypot 0 1 = 1.
Proof. unfold hypot. replace (0 * 0 + 1 * 1) with 1 by ring. apply sqrt_1. Qed.

(** The angle of two single-part lines is the angle of their chords. *)
Lemma calculate_angle_lines (a c : Point) (l1 l2 : list Point) :
  last l1 a <> a -> last l2 c <> c ->
  calculate_angle (GLineString (a :: l1)) (GLineString (c :: l2))
  = Ok (degrees (acos (clamped_cos a (last l1 a) c (last l2 c)))).
Proof.
  intros H1 H2. unfold calculate_angle. simpl.
  destruct a as [x1 y1], c as [x3 y3].
  destruct (last l1 (x1, y1)) as [x2 y2] eqn:E1.
  destruct (last l2 (x3, y3)) as [x4 y4] eqn:E2. simpl.
  assert (M1 : Req_b (hypot (x2 - x1) (y2 - y1)) 0 = false).
  { apply Req_b_false. rewrite hypot_eq_0. intros [Hx Hy]. apply H1.
    f_equal; lra. }
  assert (M2 : Req_b (hypot (x4 - x3) (y4 - y3)) 0 = false).
  { apply Req_b_false. rewrite hypot_eq_0. intros [Hx Hy]. apply H2.
    f_equal; lra. }
  rewrite M1, M2. reflexivity.
Qed.

Lemma calculate_angle_zero_length (a c : Point) (l1 l2 : list Point) :
  last l1 a = a \/ last l2 c = c ->
  calculate_angle (GLineString (a :: l1)) (GLineString (c :: l2))
  = Raise (ValueError "One of the lines has zero length.").
Proof.
  intros H. unfold calculate_angle. simpl.
  destruct a as [x1 y1], c as [x3 y3].
  destruct (last l1 (x1, y1)) as [x2 y2] eqn:E1.
  destruct (last l2 (x3, y3)) as [x4 y4] eqn:E2. simpl.
  destruct H as [H|H]; inversion H; subst.
  - replace (Req_b (hypot (x1 - x1) (y1 - y1)) 0) with true; [reflexivity|].
    symmetry. apply Req_b_true. apply hypot_eq_0. split; ring.
  - replace (Req_b (hypot (x3 - x3) (y3 - y3)) 0) with true;
      [rewrite orb_true_r; reflexivity|].
    symmetry. apply Req_b_true. apply hypot_eq_0. split; ring.
Qed.

(** A multi-part line enters the computation through its first part only. *)
Lemma calculate_angle_first_part_r (line1 : Geometry) (part : list Point)
    (rest : list (list Point)) :
  calculate_angle line1 (GMultiLineString (part :: rest))
  = calculate_angle line1 (GLineString part).
Proof.
  unfold calculate_angle. simpl.
  destruct (negb (in_strings (geom_type line1) ["LineString"; "MultiLineString"]));
    reflexivity.
Qed.

Lemma calculate_angle_first_part_l (line2 : Geometry) (part : list Point)
    (rest : list (list Point)) :
  calculate_angle (GMultiLineString (part :: rest)) line2
  = calculate_angle (GLineString part) line2.
Proof.
  unfold calculate_angle. simpl.
  destruct (negb (in_strings (geom_type line2) ["LineString"; "MultiLineString"]));
    reflexivity.
Qed.

Lemma degrees_acos_range (x : R) : 0 <= degrees (acos x) <= 180.
Proof.
  pose proof (acos_bound x) as [Hlo Hhi]. pose proof PI_RGT_0 as Hpi.
  unfold degrees. split.
  - apply Rmult_le_pos; [assumption|].
    apply Rlt_le, Rdiv_lt_0_compat; lra.
  - replace 180 with (PI * (180 / PI)) at 2 by (field; lra).
    apply Rmult_le_compat_r; [|assumption].
    apply Rlt_le, Rdiv_lt_0_compat; lra.
Qed.

(** Whenever [calculate_angle] returns, its result lies in [0, 180]. *)
Lemma calculate_angle_range (line1 line2 : Geometry) (a : R) :
  calculate_angle line1 line2 = Ok a -> 0 <= a <= 180.
Proof.
  unfold calculate_angle.
  destruct (negb _ || negb _); [discriminate|].
  destruct (if String.eqb (geom_type line1) "MultiLineString"
            then geoms0 line1 else Ok line1) as [g1|]; simpl; [|discriminate].
  destruct (if String.eqb (geom_type line2) "MultiLineString"
            then geoms0 line2 else Ok line2) as [g2|]; simpl; [|discriminate].
  destruct (coords g1) as [c1|]; simpl; [|discriminate].
  destruct (first_coord c1) as [[x1 y1]|]; simpl; [|discriminate].
  destruct (last_coord c1) as [[x2 y2]|]; simpl; [|discriminate].
  destruct (coords g2) as [c2|]; simpl; [|discriminate].
  destruct (first_coord c2) as [[x3 y3]|]; simpl; [|discriminate].
  destruct (last_coord c2) as [[x4 y4]|]; simpl; [|discriminate].
  destruct (Req_b _ 0 || Req_b _ 0); [discriminate|].
  intros H; inversion H; subst. apply degrees_acos_range.
Qed.

End EngineAngle.

Section EngineElevation.

Import Engine.

Lemma np_axis_index_inside (n i : Z) :
  (0 <= i < n)%Z -> np_axis_index n i = Ok (Z.to_nat i).
Proof.
  intros H. unfold np_axis_index.
  replace ((0 <=? i)%Z) with true by (symmetry; apply Z.leb_le; lia).
  replace ((i <? n)%Z) with true by (symmetry; apply Z.ltb_lt; lia).
  reflexivity.
Qed.

Lemma np_axis_index_wraps (n i : Z) :
  (- n <= i < 0)%Z -> np_axis_index n i = Ok (Z.to_nat (i + n)).
Proof.
  intros H. unfold np_axis_index.
  replace ((0 <=? i)%Z) with false by (symmetry; apply Z.leb_gt; lia).
  replace ((- n <=? i)%Z) with true by (symmetry; apply Z.leb_le; lia).
  replace ((i <? 0)%Z) with true by (symmetry; apply Z.ltb_lt; lia).
  reflexivity.
Qed.

Lemma np_axis_index_outside (n i : Z) :
  (i < - n \/ n <= i)%Z -> (0 <= n)%Z -> np_axis_index n i = Raise IndexError.
Proof.
  intros H Hn. unfold np_axis_index.
  destruct H as [H|H].
  - replace ((0 <=? i)%Z) with false by (symmetry; apply Z.leb_gt; lia).
    replace ((- n <=? i)%Z) with false by (symmetry; apply Z.leb_gt; lia).
    reflexivity.
  - replace ((i <? n)%Z) with false by (symmetry; apply Z.ltb_ge; lia).
    replace ((i <? 0)%Z) with false by (symmetry; apply Z.ltb_ge; lia).
    rewrite !andb_false_r. reflexivity.
Qed.

Lemma Zfloor_half : Zfloor (1 / 2) = 0%Z.
Proof. apply Zfloor_eq. simpl. lra. Qed.

Lemma unit_dem_centre :
  get_elevation (1 / 2) (1 / 2) Examples.unit_dem = Ok 2240.
Proof.
  unfold get_elevation, dem_index, Examples.unit_dem. simpl.
  replace ((1 / 2 - 1) / -1) with (1 / 2) by field.
  replace ((1 / 2 - 0) / 1) with (1 / 2) by field.
  rewrite Zfloor_half. reflexivity.
Qed.

End EngineElevation.
Section EngineElevationGeneral.

Import Engine.

Lemma np_axis_index_bound (n i : Z) (k : nat) :
  np_axis_index n i = Ok k -> (Z.of_nat k < n)%Z.
Proof.
  unfold np_axis_index.
  destruct ((0 <=? i)%Z && (i <? n)%Z) eqn:E1.
  - apply andb_true_iff in E1. destruct E1 as [H0 Hn].
    apply Z.leb_le in H0. apply Z.ltb_lt in Hn.
    intros H; inversion H; subst. lia.
  - destruct ((- n <=? i)%Z && (i <? 0)%Z) eqn:E2; [|discriminate].
    apply andb_true_iff in E2. destruct E2 as [Hn H0].
    apply Z.leb_le in Hn. apply Z.ltb_lt in H0.
    intros H; inversion H; subst. lia.
Qed.

Lemma np_axis_index_total (n i : Z) :
  (- n <= i < n)%Z -> exists k, np_axis_index n i = Ok k.
Proof.
  intros H. destruct (Z_lt_le_dec i 0) as [Hneg|Hpos].
  - eexists. apply np_axis_index_wraps. lia.
  - eexists. apply np_axis_index_inside. lia.
Qed.

(** For a rectangular band, every pair of indices within one raster extent
    of the origin, negative ones included, reads a cell. *)
Lemma np_getitem_total (band : list (list R)) (row col : Z) :
  (forall cells, In cells band -> List.length cells = List.length (hd [] band)) ->
  (- height band <= row < height band)%Z ->
  (- width band <= col < width band)%Z ->
  exists v, np_getitem band row col = Ok v.
Proof.
  intros Hrect Hrow Hcol. unfold np_getitem.
  destruct (np_axis_index_total _ _ Hrow) as [r Hr].
  destruct (np_axis_index_total _ _ Hcol) as [c Hc].
  rewrite Hr, Hc. cbn [bind].
  apply np_axis_index_bound in Hr. apply np_axis_index_bound in Hc.
  unfold height in Hr. unfold width in Hc.
  destruct (nth_error band r) as [cells|] eqn:Hb.
  - assert (Hin : In cells band) by (eapply nth_error_In; eassumption).
    destruct (nth_error cells c) as [v|] eqn:Hv; [eauto|].
    apply nth_error_None in Hv. rewrite (Hrect cells Hin) in Hv. lia.
  - apply nth_error_None in Hb. lia.
Qed.

(** The lookup raises as soon as the row or the column index leaves
    [-n, n). *)
Lemma np_getitem_raises (band : list (list R)) (row col : Z) :
  (row < - height band \/ height band <= row)%Z
  \/ (col < - width band \/ width band <= col)%Z ->
  np_getitem band row col = Raise IndexError.
Proof.
  intros H. unfold np_getitem.
  assert (Hh : (0 <= height band)%Z) by (unfold height; lia).
  assert (Hw : (0 <= width band)%Z) by (unfold width; lia).
  destruct H as [H|H].
  - rewrite np_axis_index_outside by assumption. reflexivity.
  - destruct (np_axis_index (height band) row) as [r|] eqn:Hr.
    + cbn [bind]. rewrite np_axis_index_outside by assumption. reflexivity.
    + cbn [bind]. unfold np_axis_index in Hr.
      destruct ((0 <=? row)%Z && (row <? height band)%Z); [discriminate|].
      destruct ((- height band <=? row)%Z && (row <? 0)%Z); [discriminate|].
      congruence.
Qed.

(** Outside the raster, within one raster extent to the west or north, the
    lookup returns an elevation. *)
Lemma get_elevation_wraps (dem : DEM) (x y : R) :
  (forall cells, In cells (dem_band1 dem) ->
     List.length cells = List.length (hd [] (dem_band1 dem))) ->
  (- height (dem_band1 dem) <= fst (dem_index dem x y) < height (dem_band1 dem))%Z ->
  (- width (dem_band1 dem) <= snd (dem_index dem x y) < width (dem_band1 dem))%Z ->
  exists v, get_elevation x y dem = Ok v.
Proof.
  intros Hrect Hrow Hcol. unfold get_elevation.
  destruct (dem_index dem x y) as [row col]. simpl in Hrow, Hcol.
  destruct (np_getitem_total _ _ _ Hrect Hrow Hcol) as [v Hv].
  exists v. rewrite Hv. reflexivity.
Qed.

End EngineElevationGeneral.
Section EngineRuns.

Import Engine Examples.

(** Section A meets both faults at a right angle. *)
Lemma section_A_angle (fault : FaultRow) :
  flt_geometry fault = GLineString [(1 / 2, 0); (1 / 2, 1)] ->
  calculate_angle (sec_geometry section_A) (flt_geometry fault) = Ok 90.
Proof.
  intros ->. simpl.
  rewrite calculate_angle_lines by (simpl; intros H; inversion H; lra).
  unfold clamped_cos, px, py. simpl.
  replace (1 - 0) with 1 by ring.
  replace (1 / 2 - 1 / 2) with 0 by field.
  rewrite hypot_1_0, hypot_0_1.
  replace ((1 * 0 + 0 * 1) / (1 * 1)) with 0 by field.
  rewrite Rmin_right by lra. rewrite Rmax_right by lra.
  rewrite acos_0. f_equal. unfold degrees. pose proof PI_RGT_0. field. lra.
Qed.

Lemma section_A_distance :
  calculate_distance (0, 1 / 2) (1 / 2, 1 / 2) = 1 / 2.
Proof.
  unfold calculate_distance, hypot, px, py. simpl.
  replace ((1 / 2 - 0) * (1 / 2 - 0) + (1 / 2 - 1 / 2) * (1 / 2 - 1 / 2))
    with ((1 / 2) * (1 / 2)) by field.
  apply sqrt_square. lra.
Qed.

Lemma apparent_dip_90_45 : calculate_apparent_dip 90 45 = Ok 45.
Proof.
  rewrite apparent_dip_in_range by lra.
  rewrite radians_90, radians_45, sin_PI2, tan_PI4, Rmult_1_l, atan_1.
  rewrite degrees_PI4. reflexivity.
Qed.

Lemma section_A_point_ok :
  process_point section_A fault_ok unit_dem (1 / 2, 1 / 2) = Ok record_A_F1.
Proof.
  pose proof (section_A_angle fault_ok eq_refl) as Ha.
  unfold process_point. simpl px; simpl py. rewrite unit_dem_centre.
  cbn [bind]. simpl coords. cbn [bind first_coord].
  rewrite Ha. cbn [bind]. simpl flt_Dip. rewrite apparent_dip_90_45.
  cbn [bind]. rewrite section_A_distance. reflexivity.
Qed.

Lemma section_A_fault_ok :
  process_pair cross_at_centre unit_dem section_A fault_ok = Ok [record_A_F1].
Proof.
  unfold process_pair, crossing_points, cross_at_centre.
  cbn [isinstance_Point geoms_points mapM].
  rewrite section_A_point_ok. reflexivity.
Qed.

Lemma section_A_fault_steep :
  process_pair cross_at_centre unit_dem section_A fault_steep
  = Raise (ValueError "Angle or dip out of valid range.").
Proof.
  pose proof (section_A_angle fault_steep eq_refl) as Ha.
  unfold process_pair, crossing_points, cross_at_centre.
  cbn [isinstance_Point geoms_points mapM].
  unfold process_point. simpl px; simpl py. rewrite unit_dem_centre.
  cbn [bind]. simpl coords. cbn [bind first_coord].
  rewrite Ha. cbn [bind]. simpl flt_Dip.
  rewrite apparent_dip_out_of_range by lra. reflexivity.
Qed.

Lemma section_A_twice :
  process_intersections cross_twice [section_A] [fault_ok] unit_dem
  = Ok [record_A_F1; record_A_F1].
Proof.
  unfold process_intersections, process_section, process_pair,
    crossing_points, cross_twice.
  cbn [isinstance_Point geom_type String.eqb Ascii.eqb Bool.eqb
       geoms_points mapM].
  rewrite section_A_point_ok. reflexivity.
Qed.

End EngineRuns.

Lemma C2_one_record_per_pair_witness :
  Engine.process_intersections Examples.cross_twice [Examples.section_A]
    [Examples.fault_ok] Examples.unit_dem = Ok [record_A_F1; record_A_F1]
  /\ exists r,
       filter (Engine.same_ids "A" "F1")
              (Engine.save_results [record_A_F1; record_A_F1]) = [r]
       /\ In r [record_A_F1; record_A_F1].
Proof.
  split; [exact section_A_twice|].
  apply (proj2 C2_one_record_per_pair Examples.cross_twice
           [Examples.section_A] [Examples.fault_ok] Examples.unit_dem
           [record_A_F1; record_A_F1] Examples.section_A Examples.fault_ok
           section_A_twice (or_introl eq_refl) (or_introl eq_refl)).
  simpl. lia.
Defined.

(** C7, as the script has it.  An exception raised while one (section,
    fault) pair is processed is not caught: it leaves
    [process_intersections], which then returns no record for any pair. *)
Theorem C7_error_aborts_batch :
  forall intersection sections faults dem section fault e,
    In section sections -> In fault faults ->
    Engine.process_pair intersection dem section fault = Raise e ->
    exists e',
      Engine.process_intersections intersection sections faults dem = Raise e'.
Proof.
  intros intersection sections faults dem section fault e Hs Hf He.
  eapply process_intersections_raise; eassumption.
Qed.

Lemma C7_error_aborts_batch_witness :
  exists e',
    Engine.process_intersections Examples.cross_at_centre
      [Examples.section_A] [Examples.fault_steep; Examples.fault_ok]
      Examples.unit_dem = Raise e'.
Proof.
  apply (C7_error_aborts_batch Examples.cross_at_centre
           [Examples.section_A] [Examples.fault_steep; Examples.fault_ok]
           Examples.unit_dem Examples.section_A Examples.fault_steep
           (ValueError "Angle or dip out of valid range.")).
  - left; reflexivity.
  - left; reflexivity.
  - exact section_A_fault_steep.
Defined.

(** C7, as the claim has it, fails: with a fault of dip 100 ahead of a
    well-formed fault, the range error of the first pair ends the run and
    the record of the second pair is never produced. *)
Lemma C7_counterexample :
  Engine.process_pair Examples.cross_at_centre Examples.unit_dem
    Examples.section_A Examples.fault_steep
  = Raise (ValueError "Angle or dip out of valid range.")
  /\ Engine.process_pair Examples.cross_at_centre Examples.unit_dem
       Examples.section_A Examples.fault_ok = Ok [record_A_F1]
  /\ Engine.process_intersections Examples.cross_at_centre
       [Examples.section_A] [Examples.fault_steep; Examples.fault_ok]
       Examples.unit_dem
     = Raise (ValueError "Angle or dip out of valid range.")
  /\ ~ (exists info,
          Engine.process_intersections Examples.cross_at_centre
            [Examples.section_A] [Examples.fault_steep; Examples.fault_ok]
            Examples.unit_dem = Ok info).
Proof.
  assert (Hrun : Engine.process_intersections Examples.cross_at_centre
                   [Examples.section_A] [Examples.fault_steep; Examples.fault_ok]
                   Examples.unit_dem
                 = Raise (ValueError "Angle or dip out of valid range.")).
  { unfold Engine.process_intersections, Engine.process_section.
    cbn [mapM]. rewrite section_A_fault_steep. reflexivity. }
  split; [exact section_A_fault_steep|]. split; [exact section_A_fault_ok|].
  split; [exact Hrun|].
  intros [info Hinfo]. rewrite Hrun in Hinfo. discriminate.
Qed.

(** C6.  The elevation lookup does not fail for every point outside the
    raster: a point half a cell west of the 2 x 2 raster gets column
    index -1, which the array reads as its last column, and the elevation
    of the cell on the east edge is returned; a point half a cell east of
    the raster, with column index 2, does raise. *)
Theorem C6_elevation_wraps_outside_coverage :
  ~ Engine.covered Examples.dem22 (- (1 / 2)) (3 / 2)
  /\ Engine.get_elevation (- (1 / 2)) (3 / 2) Examples.dem22 = Ok 20
  /\ ~ Engine.covered Examples.dem22 (5 / 2) (3 / 2)
  /\ Engine.get_elevation (5 / 2) (3 / 2) Examples.dem22 = Raise IndexError.
Proof.
  assert (Hrow : Zfloor ((3 / 2 - 2) / -1) = 0%Z)
    by (apply Zfloor_eq; simpl; lra).
  assert (Hcol : Zfloor ((- (1 / 2) - 0) / 1) = (-1)%Z)
    by (apply Zfloor_eq; simpl; lra).
  assert (Hcol' : Zfloor ((5 / 2 - 0) / 1) = 2%Z)
    by (apply Zfloor_eq; simpl; lra).
  split; [|split; [|split]].
  - unfold Engine.covered, Engine.dem_index, Examples.dem22. simpl.
    rewrite Hrow, Hcol. unfold Engine.width. simpl. lia.
  - unfold Engine.get_elevation, Engine.dem_index, Examples.dem22. simpl.
    rewrite Hrow, Hcol. reflexivity.
  - unfold Engine.covered, Engine.dem_index, Examples.dem22. simpl.
    rewrite Hrow, Hcol'. unfold Engine.width. simpl. lia.
  - unfold Engine.get_elevation, Engine.dem_index, Examples.dem22. simpl.
    rewrite Hrow, Hcol'. reflexivity.
Qed.

(** C10.  A multi-part line enters [calculate_angle] through its first
    part alone, on either side; for the two-part fault of the examples the
    angle returned against the x axis is 0, while its overall first-to-last
    chord makes an angle of 90. *)
Theorem C10_multipart_first_part_only :
  (forall line1 part rest,
      Engine.calculate_angle line1 (Engine.GMultiLineString (part :: rest))
      = Engine.calculate_angle line1 (Engine.GLineString part))
  /\ (forall line2 part rest,
      Engine.calculate_angle (Engine.GMultiLineString (part :: rest)) line2
      = Engine.calculate_angle (Engine.GLineString part) line2)
  /\ Engine.calculate_angle Examples.x_axis_section Examples.two_part_fault
     = Ok 0
  /\ Engine.calculate_angle Examples.x_axis_section
       (Examples.overall_chord Examples.two_part_fault) = Ok 90
  /\ Engine.calculate_angle Examples.x_axis_section Examples.two_part_fault
     <> Engine.calculate_angle Examples.x_axis_section
          (Examples.overall_chord Examples.two_part_fault).
Proof.
  split; [exact calculate_angle_first_part_r|].
  split; [exact calculate_angle_first_part_l|].
  assert (H0 : Engine.calculate_angle Examples.x_axis_section
                 Examples.two_part_fault = Ok 0);
    [| assert (H90 : Engine.calculate_angle Examples.x_axis_section
                       (Examples.overall_chord Examples.two_part_fault) = Ok 90);
       [| split; [exact H0 | split; [exact H90 |
            rewrite H0, H90; intros E; inversion E; lra]]]].
  - unfold Examples.two_part_fault, Examples.x_axis_section.
    rewrite calculate_angle_first_part_r.
    rewrite calculate_angle_lines by (simpl; intros H; inversion H; lra).
    unfold clamped_cos, px, py. simpl.
    replace (1 - 0) with 1 by ring. replace (0 - 0) with 0 by ring.
    rewrite hypot_1_0.
    replace ((1 * 1 + 0 * 0) / (1 * 1)) with 1 by field.
    rewrite Rmin_left by lra. rewrite Rmax_right by lra.
    rewrite acos_1. unfold degrees. f_equal. ring.
  - unfold Examples.two_part_fault, Examples.x_axis_section. simpl.
    rewrite calculate_angle_lines by (simpl; intros H; inversion H; lra).
    unfold clamped_cos, px, py. simpl.
    replace (1 - 0) with 1 by ring. replace (0 - 0) with 0 by ring.
    rewrite hypot_1_0, hypot_0_1.
    replace ((1 * 0 + 0 * 1) / (1 * 1)) with 0 by field.
    rewrite Rmin_right by lra. rewrite Rmax_right by lra.
    rewrite acos_0. f_equal. unfold degrees. pose proof PI_RGT_0. field. lra.
Qed.
(** ** The extender: endpoint multiplicities *)

Section ExtenderCounts.

Import Extender.

Lemma count_is_count_occ (pt : Point) (all_points : list Point) :
  count pt all_points = count_occ Point_eq_dec all_points pt.
Proof.
  induction all_points as [|q rest IH]; simpl; [reflexivity|].
  destruct (Point_eq_dec q pt) as [Heq|Hne].
  - apply Point_eqb_true in Heq. rewrite Heq, IH. reflexivity.
  - apply Point_eqb_false in Hne. rewrite Hne. exact IH.
Qed.

Lemma count_in (pt : Point) (all_points : list Point) :
  In pt all_points -> (1 <= count pt all_points)%nat.
Proof.
  rewrite count_is_count_occ. intros H.
  apply (count_occ_In Point_eq_dec) in H. lia.
Qed.

(** Reading the dictionary at a point that was inserted gives the number of
    occurrences of that point. *)
Lemma lookup_map (g : Point -> nat) (l : list Point) (pt : Point) :
  In pt l -> lookup (map (fun q => (q, g q)) l) pt = Ok (g pt).
Proof.
  induction l as [|q rest IH]; intros Hin; [contradiction|]. simpl.
  destruct (Point_eqb q pt) eqn:E.
  - apply Point_eqb_true in E. subst. reflexivity.
  - destruct Hin as [->|Hin].
    + rewrite Point_eqb_refl in E. discriminate.
    + apply IH; assumption.
Qed.

Lemma lookup_counts_of (all_points : list Point) (pt : Point) :
  In pt all_points ->
  lookup (counts_of all_points) pt = Ok (count pt all_points).
Proof. intros H. unfold counts_of. apply (lookup_map (fun q => count q all_points)); assumption. Qed.

Lemma mapM_lookup_pairs (counts : list (Point * nat)) (g : Point -> nat)
    (endpoints : list (Point * Point)) :
  (forall se, In se endpoints ->
     lookup counts (fst se) = Ok (g (fst se))
     /\ lookup counts (snd se) = Ok (g (snd se))) ->
  mapM (fun se =>
          c1 <- lookup counts (fst se) ;;
          c2 <- lookup counts (snd se) ;;
          Ok (c1, c2)) endpoints
  = Ok (map (fun se => (g (fst se), g (snd se))) endpoints).
Proof.
  induction endpoints as [|se rest IH]; intros H; [reflexivity|].
  destruct (H se (or_introl eq_refl)) as [H1 H2].
  cbn [mapM map]. rewrite H1. cbn [bind]. rewrite H2. cbn [bind].
  rewrite IH; [reflexivity|]. intros se' Hin. apply H. right; assumption.
Qed.

Lemma get_endpoints_nonempty (line : Line) :
  line <> [] -> exists s e, get_endpoints line = Ok (s, e).
Proof.
  destruct line as [|a rest]; [congruence|]. intros _.
  exists a, (last rest a). reflexivity.
Qed.

(** The multiplicities returned are numbers of exactly equal endpoints. *)
Lemma count_connections_spec (group : list Line)
    (endpoints : list (Point * Point)) :
  mapM get_endpoints group = Ok endpoints ->
  let all_points := flat_map (fun se => [fst se; snd se]) endpoints in
  count_connections group
  = Ok (map (fun se => (count_occ Point_eq_dec all_points (fst se),
                        count_occ Point_eq_dec all_points (snd se)))
            endpoints).
Proof.
  intros Hm all_points. unfold count_connections. rewrite Hm. cbn [bind].
  fold all_points.
  rewrite (mapM_lookup_pairs (counts_of all_points)
             (fun pt => count_occ Point_eq_dec all_points pt)); [reflexivity|].
  intros se Hin.
  assert (H1 : In (fst se) all_points).
  { unfold all_points. apply in_flat_map. exists se. split; [assumption|].
    left; reflexivity. }
  assert (H2 : In (snd se) all_points).
  { unfold all_points. apply in_flat_map. exists se. split; [assumption|].
    right; left; reflexivity. }
  rewrite !lookup_counts_of by assumption. rewrite !count_is_count_occ.
  split; reflexivity.
Qed.

Lemma count_connections_gap (eps : R) :
  0 < eps < 1 ->
  count_connections (gap_group eps) = Ok [(1, 1); (1, 1)]%nat.
Proof.
  intros Heps. unfold count_connections, gap_group. simpl.
  decide_points. reflexivity.
Qed.

End ExtenderCounts.

(** C4, as the script has it.  For a group of non-empty traces,
    [count_connections] returns, for each trace, the number of endpoints of
    the group whose coordinates are equal to those of its start and of its
    end; no tolerance enters the comparison. *)
Theorem C4_exact_equality :
  forall group : list Extender.Line,
    (forall line, In line group -> line <> []) ->
    exists endpoints,
      mapM Extender.get_endpoints group = Ok endpoints
      /\ Extender.count_connections group
         = Ok (map (fun se =>
                      (count_occ Point_eq_dec
                         (flat_map (fun se => [fst se; snd se]) endpoints) (fst se),
                       count_occ Point_eq_dec
                         (flat_map (fun se => [fst se; snd se]) endpoints) (snd se)))
                   endpoints).
Proof.
  intros group Hne.
  destruct (mapM_all_ok Extender.get_endpoints group) as [endpoints Hm].
  - intros line Hin. destruct (get_endpoints_nonempty line (Hne line Hin))
      as (s & e & Hse). exists (s, e). exact Hse.
  - exists endpoints. split; [exact Hm|]. apply count_connections_spec. exact Hm.
Qed.

Lemma C4_exact_equality_witness :
  exists endpoints,
    mapM Extender.get_endpoints (gap_group 0) = Ok endpoints
    /\ Extender.count_connections (gap_group 0)
       = Ok (map (fun se =>
                    (count_occ Point_eq_dec
                       (flat_map (fun se => [fst se; snd se]) endpoints) (fst se),
                     count_occ Point_eq_dec
                       (flat_map (fun se => [fst se; snd se]) endpoints) (snd se)))
                 endpoints).
Proof.
  apply (C4_exact_equality (gap_group 0)).
  intros line [<-|[<-|[]]]; discriminate.
Defined.

(** C4, as the claim has it, fails: for every tolerance there are two
    traces whose facing endpoints are closer than the tolerance and still
    have multiplicity 1 each; one nanometre apart is an instance. *)
Lemma C4_counterexample :
  (forall tol : R, 0 < tol ->
     exists eps, 0 < eps < tol
       /\ Extender.count_connections (gap_group eps) = Ok [(1, 1); (1, 1)]%nat)
  /\ Extender.count_connections (gap_group (/ 1000000000))
     = Ok [(1, 1); (1, 1)]%nat
  /\ Extender.count_connections (gap_group 0) = Ok [(1, 2); (2, 1)]%nat.
Proof.
  split; [|split].
  - intros tol Htol. exists (Rmin tol 1 / 2). split.
    + unfold Rmin. destruct (Rle_dec tol 1); lra.
    + apply count_connections_gap. unfold Rmin. destruct (Rle_dec tol 1); lra.
  - apply count_connections_gap. lra.
  - unfold Extender.count_connections, gap_group. simpl.
    replace (1 + 0) with 1 by ring.
    decide_points. reflexivity.
Qed.
(** ** The extender: what [extend_fault] returns *)

Section ExtenderGeometry.

Import Extender.

Lemma on_segment_left (a b : Point) : on_segment a a b.
Proof. exists 0. split; [lra|]. split; ring. Qed.

Lemma on_segment_right (a b : Point) : on_segment b a b.
Proof. exists 1. split; [lra|]. split; ring. Qed.

Lemma on_segment_sym (p a b : Point) : on_segment p a b -> on_segment p b a.
Proof.
  intros (t & Ht & Hx & Hy). exists (1 - t). split; [lra|].
  split; [rewrite Hx | rewrite Hy]; ring.
Qed.

Lemma point_eq (p q : Point) : px p = px q -> py p = py q -> p = q.
Proof. destruct p, q; unfold px, py; simpl; intros -> ->; reflexivity. Qed.

Lemma on_line_two (p a b : Point) : on_line p [a; b] <-> on_segment p a b.
Proof. simpl. tauto. Qed.

Lemma extend_fault_start_only (a : Point) (rest : Line) (k : nat)
    (area : Area) (factor : R) :
  k <> 1%nat ->
  extend_fault (a :: rest) (1%nat, k) area factor
  = Ok (Clipped [a; far_start a (last rest a) factor; a; last rest a] area).
Proof.
  intros Hk. unfold extend_fault. cbn [first_coord last_coord bind fst snd].
  apply Nat.eqb_neq in Hk. rewrite Hk. reflexivity.
Qed.

Lemma extend_fault_end_only (a : Point) (rest : Line) (k : nat)
    (area : Area) (factor : R) :
  k <> 1%nat ->
  extend_fault (a :: rest) (k, 1%nat) area factor
  = Ok (Clipped [a; last rest a; far_end a (last rest a) factor; last rest a]
          area).
Proof.
  intros Hk. unfold extend_fault. cbn [first_coord last_coord bind fst snd].
  apply Nat.eqb_neq in Hk. rewrite Hk. reflexivity.
Qed.

Lemma extend_fault_both (a : Point) (rest : Line) (area : Area) (factor : R) :
  extend_fault (a :: rest) (1%nat, 1%nat) area factor
  = Ok (Clipped [a; far_start a (last rest a) factor; a;
                 last rest a; far_end a (last rest a) factor; last rest a]
          area).
Proof. reflexivity. Qed.

Lemma extend_fault_none (line : Line) (k1 k2 : nat) (area : Area) (factor : R) :
  line <> [] -> k1 <> 1%nat -> k2 <> 1%nat ->
  extend_fault line (k1, k2) area factor = Ok (Unchanged line).
Proof.
  intros Hl H1 H2. destruct line as [|a rest]; [congruence|].
  unfold extend_fault. cbn [first_coord last_coord bind fst snd].
  apply Nat.eqb_neq in H1, H2. rewrite H1, H2. reflexivity.
Qed.

(** With a dangling endpoint the clip is returned, whatever it contains. *)
Lemma extend_fault_dangling (line : Line) (connections : nat * nat)
    (area : Area) (factor : R) :
  line <> [] ->
  fst connections = 1%nat \/ snd connections = 1%nat ->
  exists extended_line,
    extend_fault line connections area factor = Ok (Clipped extended_line area).
Proof.
  intros Hl Hd. destruct line as [|a rest]; [congruence|].
  destruct connections as [k1 k2]. simpl in Hd.
  destruct (Nat.eq_dec k1 1) as [->|H1]; destruct (Nat.eq_dec k2 1) as [->|H2].
  - eexists. apply extend_fault_both.
  - eexists. apply extend_fault_start_only; assumption.
  - eexists. apply extend_fault_end_only; assumption.
  - lia.
Qed.

(** The points of the clip for a dangling start: the chord and the
    extension, inside the area. *)
Lemma clipped_start_points (a b : Point) (area : Area) (factor : R) (p : Point) :
  points_of (Clipped [a; far_start a b factor; a; b] area) p
  <-> (on_segment p a b \/ on_segment p a (far_start a b factor)) /\ area p.
Proof.
  simpl. split.
  - intros [[H|[H|[H|[]]]] Ha]; split; auto.
    right. apply on_segment_sym; assumption.
  - intros [[H|H] Ha]; split; auto.
Qed.

Lemma clipped_end_points (a b : Point) (area : Area) (factor : R) (p : Point) :
  points_of (Clipped [a; b; far_end a b factor; b] area) p
  <-> (on_segment p a b \/ on_segment p b (far_end a b factor)) /\ area p.
Proof.
  simpl. split.
  - intros [[H|[H|[H|[]]]] Ha]; split; auto.
    right. apply on_segment_sym; assumption.
  - intros [[H|H] Ha]; split; auto.
Qed.

End ExtenderGeometry.

Section ExtenderClaims.

Import Extender.

Lemma strict_start (a b : Point) (area : Area) (factor : R) :
  (forall p, on_segment p a b -> area p) ->
  let out := Clipped [a; far_start a b factor; a; b] area in
  subset (trace a b) (points_of out)
  /\ subset (points_of out) area
  /\ points_of out b
  /\ (strict_superset (points_of out) (trace a b)
      <-> exists q, on_segment q a (far_start a b factor)
                    /\ area q /\ ~ on_segment q a b).
Proof.
  intros Hin out. unfold out.
  split; [|split; [|split; [|split]]].
  - intros p Hp. apply on_line_two in Hp. apply clipped_start_points. auto.
  - intros p Hp. apply clipped_start_points in Hp. tauto.
  - apply clipped_start_points. split; [left; apply on_segment_right|].
    apply Hin, on_segment_right.
  - intros [_ (q & Hq & Hnq)]. apply clipped_start_points in Hq.
    destruct Hq as [[Hq|Hq] Ha].
    + exfalso. apply Hnq. apply on_line_two. assumption.
    + exists q. repeat split; try assumption.
      intros H. apply Hnq. apply on_line_two. assumption.
  - intros (q & Hq & Ha & Hnq). split.
    + intros p Hp. apply on_line_two in Hp. apply clipped_start_points. auto.
    + exists q. split; [apply clipped_start_points; auto|].
      intros H. apply on_line_two in H. contradiction.
Qed.

Lemma strict_end (a b : Point) (area : Area) (factor : R) :
  (forall p, on_segment p a b -> area p) ->
  let out := Clipped [a; b; far_end a b factor; b] area in
  subset (trace a b) (points_of out)
  /\ subset (points_of out) area
  /\ points_of out a
  /\ (strict_superset (points_of out) (trace a b)
      <-> exists q, on_segment q b (far_end a b factor)
                    /\ area q /\ ~ on_segment q a b).
Proof.
  intros Hin out. unfold out.
  split; [|split; [|split; [|split]]].
  - intros p Hp. apply on_line_two in Hp. apply clipped_end_points. auto.
  - intros p Hp. apply clipped_end_points in Hp. tauto.
  - apply clipped_end_points. split; [left; apply on_segment_left|].
    apply Hin, on_segment_left.
  - intros [_ (q & Hq & Hnq)]. apply clipped_end_points in Hq.
    destruct Hq as [[Hq|Hq] Ha].
    + exfalso. apply Hnq. apply on_line_two. assumption.
    + exists q. repeat split; try assumption.
      intros H. apply Hnq. apply on_line_two. assumption.
  - intros (q & Hq & Ha & Hnq). split.
    + intros p Hp. apply on_line_two in Hp. apply clipped_end_points. auto.
    + exists q. split; [apply clipped_end_points; auto|].
      intros H. apply on_line_two in H. contradiction.
Qed.

(** The extension is built on the chord from the first to the last vertex:
    a vertex in between that is off the chord is not in the output. *)
Lemma extend_fault_drops_interior_vertices (area : Area) :
  exists out,
    extend_fault [(0, 0); (1, 1); (2, 0)] (1%nat, 2%nat) area default_factor
    = Ok out
    /\ on_line (1, 1) [(0, 0); (1, 1); (2, 0)]
    /\ ~ points_of out (1, 1).
Proof.
  eexists. split; [apply extend_fault_start_only; lia|]. split.
  - simpl. left. apply on_segment_right.
  - intros H. apply clipped_start_points in H. destruct H as [[H|H] _];
      destruct H as (t & Ht & Hx & Hy); unfold far_start, px, py in *;
      simpl in *; lra.
Qed.

End ExtenderClaims.

(** C3, as the script has it.  For a straight two-vertex fault lying in the
    model area, with exactly one dangling endpoint, the output is the clip
    of chord plus extension: it contains the original trace, lies in the
    area, contains the endpoint that was not extended, and is strictly
    larger than the original exactly when the area contains a point of the
    extension off the original trace. *)
Theorem C3_straight_fault_extension :
  forall (a b : Point) (k : nat) (area : Extender.Area) (factor : R),
    (1 < k)%nat ->
    (forall p, Extender.on_segment p a b -> area p) ->
    (exists out,
       Extender.extend_fault [a; b] (1%nat, k) area factor = Ok out
       /\ Extender.subset (trace a b) (Extender.points_of out)
       /\ Extender.subset (Extender.points_of out) area
       /\ Extender.points_of out b
       /\ (Extender.strict_superset (Extender.points_of out) (trace a b)
           <-> exists q, Extender.on_segment q a (far_start a b factor)
                         /\ area q /\ ~ Extender.on_segment q a b))
    /\ (exists out,
       Extender.extend_fault [a; b] (k, 1%nat) area factor = Ok out
       /\ Extender.subset (trace a b) (Extender.points_of out)
       /\ Extender.subset (Extender.points_of out) area
       /\ Extender.points_of out a
       /\ (Extender.strict_superset (Extender.points_of out) (trace a b)
           <-> exists q, Extender.on_segment q b (far_end a b factor)
                         /\ area q /\ ~ Extender.on_segment q a b)).
Proof.
  intros a b k area factor Hk Hin. split.
  - eexists. split; [apply (extend_fault_start_only a [b]); lia|].
    simpl last. apply strict_start. exact Hin.
  - eexists. split; [apply (extend_fault_end_only a [b]); lia|].
    simpl last. apply strict_end. exact Hin.
Qed.

Lemma C3_straight_fault_extension_witness :
  exists out,
    Extender.extend_fault [(0, 0); (1, 0)] (1%nat, 2%nat)
      (Extender.box (-5) (-1) 5 1) 1000 = Ok out
    /\ Extender.subset (trace (0, 0) (1, 0)) (Extender.points_of out)
    /\ Extender.subset (Extender.points_of out) (Extender.box (-5) (-1) 5 1)
    /\ Extender.points_of out (1, 0)
    /\ (Extender.strict_superset (Extender.points_of out) (trace (0, 0) (1, 0))
        <-> exists q, Extender.on_segment q (0, 0) (far_start (0, 0) (1, 0) 1000)
                      /\ Extender.box (-5) (-1) 5 1 q
                      /\ ~ Extender.on_segment q (0, 0) (1, 0)).
Proof.
  apply (proj1 (C3_straight_fault_extension (0, 0) (1, 0) 2
                  (Extender.box (-5) (-1) 5 1) 1000 (le_n 2)
                  (fun p H =>
                     match H with
                     | ex_intro _ t (conj Ht (conj Hx Hy)) =>
                         ltac:(unfold Extender.box, px, py in *; simpl in *; lra)
                     end))).
Defined.

(** C3, as the claim has it, fails: a fault whose dangling start lies on
    the edge of the model area, pointing outwards, gets an extension that
    the clip removes entirely; the output has the points of the original
    trace and no other. *)
Lemma C3_counterexample :
  (forall p, Extender.on_segment p (0, 0) (1, 0) -> Extender.box 0 (-1) 2 1 p)
  /\ exists out,
       Extender.extend_fault [(0, 0); (1, 0)] (1%nat, 2%nat)
         (Extender.box 0 (-1) 2 1) Extender.default_factor = Ok out
       /\ ~ Extender.strict_superset (Extender.points_of out)
              (trace (0, 0) (1, 0)).
Proof.
  split.
  - intros p (t & Ht & Hx & Hy). unfold Extender.box, px, py in *.
    simpl in *. lra.
  - eexists. split; [apply (extend_fault_start_only (0, 0) [(1, 0)]); lia|].
    simpl last. intros [_ (q & Hq & Hnq)].
    apply clipped_start_points in Hq. destruct Hq as [[Hq|Hq] Ha].
    + apply Hnq. apply on_line_two. exact Hq.
    + apply Hnq. apply on_line_two.
      destruct Hq as (t & Ht & Hx & Hy).
      unfold Extender.box, far_start, Extender.default_factor, px, py in *.
      simpl in *. exists 0. unfold px, py. simpl. split; [lra|]. split; lra.
Qed.
(** C5, as the script has it.  With a dangling endpoint [extend_fault]
    returns the clip of the extended line by the model area, whatever that
    clip contains, and [combine_first] keeps it, since the clip is never a
    null entry; the original line is returned only when neither endpoint is
    dangling. *)
Theorem C5_clip_returned_unconditionally :
  forall (line : Extender.Line) (connections : nat * nat)
         (area : Extender.Area),
    line <> [] ->
    (fst connections = 1%nat \/ snd connections = 1%nat ->
     exists extended_line,
       Extender.extend_fault line connections area Extender.default_factor
       = Ok (Extender.Clipped extended_line area)
       /\ Extender.final_geometry line connections area
          = Ok (Some (Extender.Clipped extended_line area)))
    /\ (fst connections <> 1%nat /\ snd connections <> 1%nat ->
        Extender.extend_fault line connections area Extender.default_factor
        = Ok (Extender.Unchanged line)
        /\ Extender.final_geometry line connections area
           = Ok (Some (Extender.Unchanged line))).
Proof.
  intros line connections area Hne. split.
  - intros Hd.
    destruct (extend_fault_dangling line connections area
                Extender.default_factor Hne Hd) as [ext Hext].
    exists ext. split; [exact Hext|].
    unfold Extender.final_geometry. rewrite Hext. reflexivity.
  - intros [H1 H2]. destruct connections as [k1 k2]. simpl in H1, H2.
    assert (H : Extender.extend_fault line (k1, k2) area Extender.default_factor
                = Ok (Extender.Unchanged line))
      by (apply extend_fault_none; assumption).
    split; [exact H|]. unfold Extender.final_geometry. rewrite H. reflexivity.
Qed.

Lemma C5_clip_returned_unconditionally_witness :
  exists extended_line,
    Extender.extend_fault corner_fault (1%nat, 2%nat) L_area
      Extender.default_factor
    = Ok (Extender.Clipped extended_line L_area)
    /\ Extender.final_geometry corner_fault (1%nat, 2%nat) L_area
       = Ok (Some (Extender.Clipped extended_line L_area)).
Proof.
  apply (proj1 (C5_clip_returned_unconditionally corner_fault (1%nat, 2%nat)
                  L_area ltac:(discriminate))).
  left. reflexivity.
Defined.

Lemma corner_fault_in_area :
  Extender.subset (fun p => Extender.on_line p corner_fault) L_area.
Proof.
  intros p Hp. unfold corner_fault in Hp. simpl in Hp.
  unfold L_area, Extender.box.
  destruct Hp as [(t & Ht & Hx & Hy)|[(t & Ht & Hx & Hy)|[]]];
    unfold px, py in *; simpl in *; [left | right]; lra.
Qed.

Lemma corner_fault_clip (p : Point) :
  Extender.points_of
    (Extender.Clipped
       [(2, 1); far_start (2, 1) (1, 2) Extender.default_factor; (2, 1); (1, 2)]
       L_area) p
  <-> p = (2, 1) \/ p = (1, 2).
Proof.
  rewrite clipped_start_points. split.
  - intros [Hseg Ha].
    unfold L_area, Extender.box, far_start, Extender.default_factor in *.
    destruct Hseg as [(t & Ht & Hx & Hy)|(t & Ht & Hx & Hy)];
      unfold px, py in *; simpl in *.
    + destruct Ha as [Ha|Ha]; [left | right]; apply point_eq;
        unfold px, py; simpl; lra.
    + left. apply point_eq; unfold px, py; simpl; destruct Ha as [Ha|Ha]; lra.
  - intros [->| ->]; split.
    + left. apply on_segment_left.
    + left. unfold Extender.box, px, py. simpl. lra.
    + left. apply on_segment_right.
    + right. unfold Extender.box, px, py. simpl. lra.
Qed.

(** C5, as the claim has it, fails: for the fault along the inner corner of
    the L-shaped area, lying in the area and dangling at its start, the clip
    of the extended line consists of the two endpoints only, and that
    degenerate clip, not the original trace, is what is returned and
    written. *)
Lemma C5_counterexample :
  Extender.subset (fun p => Extender.on_line p corner_fault) L_area
  /\ exists out,
       Extender.extend_fault corner_fault (1%nat, 2%nat) L_area
         Extender.default_factor = Ok out
       /\ (forall p, Extender.points_of out p <-> p = (2, 1) \/ p = (1, 2))
       /\ degenerate (Extender.points_of out)
       /\ out <> Extender.Unchanged corner_fault
       /\ Extender.final_geometry corner_fault (1%nat, 2%nat) L_area
          = Ok (Some out).
Proof.
  split; [exact corner_fault_in_area|].
  eexists. split; [apply (extend_fault_start_only (2, 1) [(1, 1); (1, 2)]); lia|].
  simpl last. split; [exact corner_fault_clip|]. split; [|split].
  - intros p q Hpq Hall.
    assert (Hp := proj1 (corner_fault_clip p) (Hall p (on_segment_left p q))).
    assert (Hq := proj1 (corner_fault_clip q) (Hall q (on_segment_right p q))).
    assert (Hm : Extender.on_segment
                   ((px p + px q) / 2, (py p + py q) / 2) p q).
    { exists (1 / 2). split; [lra|]. unfold px, py; simpl. split; field. }
    apply Hall, corner_fault_clip in Hm.
    destruct Hp as [-> | ->], Hq as [-> | ->]; try (apply Hpq; reflexivity);
      destruct Hm as [Hm|Hm]; inversion Hm; unfold px, py in *; simpl in *; lra.
  - discriminate.
  - reflexivity.
Qed.
(** ** The projector *)

Section ProjectorFacts.

Import Projector.

Variable math_tan : R -> R.

Lemma isclose_zero (a : R) :
  isclose a 0 abs_tol_dip = true <-> Rabs a <= / 1000000.
Proof.
  unfold isclose, abs_tol_dip, rel_tol.
  replace (0 - a) with (- a) by ring. rewrite Rabs_Ropp.
  replace (/ 1000000000 * 0) with 0 by ring. rewrite Rabs_R0.
  rewrite Rabs_mult. rewrite (Rabs_pos_eq (/ 1000000000)) by lra.
  pose proof (Rabs_pos a) as Hpos.
  rewrite !orb_true_iff, Req_b_true, !Rle_b_true. split.
  - intros [->|[[H|H]|H]]; try rewrite Rabs_R0; lra.
  - intros H. right. right. exact H.
Qed.

Lemma isclose_zero_false (a : R) :
  isclose a 0 abs_tol_dip = false <-> / 1000000 < Rabs a.
Proof.
  pose proof (isclose_zero a) as H.
  destruct (isclose a 0 abs_tol_dip); split; intros H'; try discriminate;
    try reflexivity.
  - assert (Rabs a <= / 1000000) by (apply H; reflexivity). lra.
  - destruct (Rle_dec (Rabs a) (/ 1000000)) as [Hle|Hgt]; [|lra].
    apply H in Hle. discriminate.
Qed.

(** A row that is not skipped yields the two-vertex segment. *)
Lemma project_fault_emits (existing : list string) (max_depth : R)
    (fault : DipRow) :
  existsb (String.eqb (fault_id fault)) existing = false ->
  radians (apparent_d fault) <> 0 ->
  / 1000000 < Rabs (math_tan (radians (apparent_d fault))) ->
  project_fault math_tan existing max_depth fault
  = Some {| geometry := projected_segment math_tan max_depth fault;
            Uni := fault_id fault |}.
Proof.
  intros Hex Hrad Htan. unfold project_fault. rewrite Hex.
  apply Req_b_false in Hrad. rewrite Hrad.
  apply isclose_zero_false in Htan. rewrite Htan. reflexivity.
Qed.

Lemma project_fault_existing (existing : list string) (max_depth : R)
    (fault : DipRow) :
  existsb (String.eqb (fault_id fault)) existing = true ->
  project_fault math_tan existing max_depth fault = None.
Proof. intros H. unfold project_fault. rewrite H. reflexivity. Qed.

Lemma project_fault_Uni (existing : list string) (max_depth : R)
    (fault : DipRow) (feature : Feature) :
  project_fault math_tan existing max_depth fault = Some feature ->
  Uni feature = fault_id fault
  /\ existsb (String.eqb (fault_id fault)) existing = false.
Proof.
  unfold project_fault.
  destruct (existsb (String.eqb (fault_id fault)) existing); [discriminate|].
  destruct (Req_b _ 0 || isclose _ 0 abs_tol_dip); [discriminate|].
  intros H; inversion H; subst; simpl. split; reflexivity.
Qed.

(** Whether a row is skipped for its dip does not depend on the features
    already present. *)
Lemma project_fault_none_mono (existing existing' : list string)
    (max_depth : R) (fault : DipRow) :
  project_fault math_tan existing max_depth fault = None ->
  existsb (String.eqb (fault_id fault)) existing = false ->
  project_fault math_tan existing' max_depth fault = None.
Proof.
  unfold project_fault. intros H Hex. rewrite Hex in H.
  destruct (existsb (String.eqb (fault_id fault)) existing'); [reflexivity|].
  destruct (Req_b _ 0 || isclose _ 0 abs_tol_dip); [reflexivity|discriminate].
Qed.

Lemma existsb_eqb_in (s : string) (l : list string) :
  existsb (String.eqb s) l = true <-> In s l.
Proof.
  rewrite existsb_exists. split.
  - intros (x & Hin & Heq). apply String.eqb_eq in Heq. subst. exact Hin.
  - intros Hin. exists s. split; [exact Hin | apply String.eqb_refl].
Qed.

Lemma collect_new_in (existing : list string) (max_depth : R)
    (rows : list DipRow) (fault : DipRow) (feature : Feature) :
  In fault rows ->
  project_fault math_tan existing max_depth fault = Some feature ->
  In feature (collect_new math_tan existing max_depth rows).
Proof.
  induction rows as [|r rest IH]; intros Hin Hp; [contradiction|]. simpl.
  destruct Hin as [->|Hin].
  - rewrite Hp. left; reflexivity.
  - destruct (project_fault math_tan existing max_depth r); [right|]; apply
      IH; assumption.
Qed.

Lemma collect_new_from (existing : list string) (max_depth : R)
    (rows : list DipRow) (feature : Feature) :
  In feature (collect_new math_tan existing max_depth rows) ->
  exists fault, In fault rows
                /\ project_fault math_tan existing max_depth fault = Some
                    feature.
Proof.
  induction rows as [|r rest IH]; intros Hin; [contradiction|]. simpl in Hin.
  destruct (project_fault math_tan existing max_depth r) as [f|] eqn:Hp.
  - destruct Hin as [<-|Hin].
    + exists r. split; [left; reflexivity | exact Hp].
    + destruct (IH Hin) as (fault & Hf & Hpf). exists fault. split; [right|];
        assumption.
  - destruct (IH Hin) as (fault & Hf & Hpf). exists fault. split; [right|];
      assumption.
Qed.

Lemma collect_new_nil (existing : list string) (max_depth : R)
    (rows : list DipRow) :
  (forall fault, In fault rows -> project_fault math_tan existing max_depth
      fault = None) ->
  collect_new math_tan existing max_depth rows = [].
Proof.
  induction rows as [|r rest IH]; intros H; [reflexivity|]. simpl.
  rewrite (H r (or_introl eq_refl)). apply IH. intros f Hf. apply H.
  right; assumption.
Qed.

(** No segment is emitted for a fault identifier already present. *)
Lemma new_faults_fresh (section_gdf : list Feature) (rows : list DipRow)
    (max_depth : R) (feature : Feature) :
  In feature (new_faults math_tan section_gdf rows max_depth) ->
  ~ In (Uni feature) (map Uni section_gdf).
Proof.
  unfold new_faults. intros Hin Hex.
  destruct (collect_new_from _ _ _ _ Hin) as (fault & _ & Hp).
  apply project_fault_Uni in Hp. destruct Hp as [HU Hfalse].
  rewrite HU in Hex. apply existsb_eqb_in in Hex. congruence.
Qed.

Lemma add_faults_to_section_app (section_gdf : list Feature)
    (rows : list DipRow) (max_depth : R) :
  add_faults_to_section math_tan section_gdf rows max_depth
  = section_gdf ++ new_faults math_tan section_gdf rows max_depth.
Proof.
  unfold add_faults_to_section.
  destruct (new_faults math_tan section_gdf rows max_depth);
    [rewrite app_nil_r|]; reflexivity.
Qed.

(** After one run nothing is left to add. *)
Lemma new_faults_after_run (section_gdf : list Feature) (rows : list DipRow)
    (max_depth : R) :
  new_faults math_tan (add_faults_to_section math_tan section_gdf rows
      max_depth) rows max_depth
  = [].
Proof.
  rewrite add_faults_to_section_app. unfold new_faults at 1.
  apply collect_new_nil. intros fault Hin.
  destruct (existsb (String.eqb (fault_id fault)) (map Uni section_gdf))
      eqn:Hex.
  - apply project_fault_existing. apply existsb_eqb_in.
    rewrite map_app. apply in_or_app. left. apply existsb_eqb_in. exact Hex.
  - destruct (project_fault math_tan (map Uni section_gdf) max_depth fault)
      as [feature|] eqn:Hp.
    + apply project_fault_existing. apply existsb_eqb_in.
      rewrite map_app. apply in_or_app. right.
      destruct (project_fault_Uni _ _ _ _ Hp) as [HU _]. rewrite <- HU.
      apply in_map. unfold new_faults. eapply collect_new_in; eassumption.
    + eapply project_fault_none_mono; eassumption.
Qed.

Lemma add_faults_to_section_idempotent (section_gdf : list Feature)
    (rows : list DipRow) (max_depth : R) :
  add_faults_to_section math_tan (add_faults_to_section math_tan section_gdf
      rows max_depth)
    rows max_depth
  = add_faults_to_section math_tan section_gdf rows max_depth.
Proof.
  rewrite (add_faults_to_section_app (add_faults_to_section math_tan _ _ _)).
  rewrite new_faults_after_run. apply app_nil_r.
Qed.

End ProjectorFacts.
Section ProjectorRuns.

Import Projector.

Variable math_tan : R -> R.

Hypothesis math_tan_regular : regular_tangent math_tan.

Lemma radians_nonzero (d : R) : d <> 0 -> radians d <> 0.
Proof.
  intros Hd H. apply Hd. rewrite <- (degrees_radians d), H.
  unfold degrees. field. pose proof PI_RGT_0. lra.
Qed.

Lemma radians_45_nonzero : radians 45 <> 0.
Proof. apply radians_nonzero. lra. Qed.

Lemma cos_45_nonzero : cos (radians 45) <> 0.
Proof.
  rewrite radians_45. pose proof PI_RGT_0.
  assert (0 < cos (PI / 4)) by (apply cos_gt_0; lra). lra.
Qed.

Lemma math_tan_45 : math_tan (radians 45) = 1.
Proof.
  rewrite (math_tan_regular _ cos_45_nonzero), radians_45. apply tan_PI4.
Qed.

Lemma tan_45_far_from_zero : / 1000000 < Rabs (math_tan (radians 45)).
Proof. rewrite math_tan_45, Rabs_R1. lra. Qed.

Lemma projected_segment_45 (side : string) :
  projected_segment math_tan (-2000) (dip_row side)
  = [(500, 100); (500 + direction_sign side * 2000, -2000)].
Proof.
  unfold projected_segment, dip_row. simpl.
  rewrite math_tan_45.
  replace (-2000 / 1) with (- (2000)) by field.
  rewrite Rabs_Ropp, Rabs_pos_eq by lra. reflexivity.
Qed.

(** Writing the files of a run over a folder. *)
Lemma write_all_lookup (F0 : Folder) (h : string -> list Feature -> list Feature)
    (l : list string) : forall (F : Folder) (sid : string),
  write_all
    (flat_map (fun s => match F0 s with
                        | None => []
                        | Some g => [(s, h s g)]
                        end) l) F sid
  = if existsb (String.eqb sid) l
    then match F0 sid with
         | Some g => Some (h sid g)
         | None => F sid
         end
    else F sid.
Proof.
  induction l as [|s l IH]; intros F sid; [reflexivity|].
  cbn [flat_map existsb].
  destruct (F0 s) as [g|] eqn:Hs.
  - cbn [app write_all]. rewrite IH.
    destruct (String.eqb sid s) eqn:E.
    + apply String.eqb_eq in E. subst s. rewrite Hs. cbn [orb].
      destruct (existsb (String.eqb sid) l); reflexivity.
    + cbn [orb]. reflexivity.
  - cbn [app]. rewrite IH.
    destruct (String.eqb sid s) eqn:E.
    + apply String.eqb_eq in E. subst s. rewrite Hs. cbn [orb].
      destruct (existsb (String.eqb sid) l); reflexivity.
    + cbn [orb]. reflexivity.
Qed.

Lemma flat_map_ext_in' {A B : Type} (f g : A -> list B) (l : list A) :
  (forall a, In a l -> f a = g a) -> flat_map f l = flat_map g l.
Proof.
  induction l as [|a l IH]; intros H; [reflexivity|]. simpl.
  rewrite (H a (or_introl eq_refl)), IH; [reflexivity|].
  intros x Hx. apply H. right; assumption.
Qed.

(** A second run that reads the files written by the first one writes the
    same files again. *)
Lemma add_faults_to_sections_rerun (folder : Folder) (dip_gdf : list DipRow)
    (max_depth : R) :
  add_faults_to_sections math_tan
    (write_all (add_faults_to_sections math_tan folder dip_gdf max_depth)
       folder)
    dip_gdf max_depth
  = add_faults_to_sections math_tan folder dip_gdf max_depth.
Proof.
  unfold add_faults_to_sections at 1 3.
  apply flat_map_ext_in'. intros sid Hin.
  unfold add_faults_to_sections.
  rewrite (write_all_lookup folder
             (fun s g => add_faults_to_section math_tan g
                           (filter (fun row => String.eqb (section_id row) s)
                                   dip_gdf) max_depth)).
  apply existsb_eqb_in in Hin. rewrite Hin.
  destruct (folder sid) as [g|]; [|reflexivity].
  rewrite add_faults_to_section_idempotent. reflexivity.
Qed.

End ProjectorRuns.

(** The tangent of the examples is the real tangent away from the poles,
    and large at a pole. *)
Lemma float_tan_regular : Projector.regular_tangent float_tan.
Proof.
  intros x Hx. unfold float_tan.
  apply Req_b_false in Hx. rewrite Hx. reflexivity.
Qed.

Lemma float_tan_pole (x : R) : cos x = 0 -> float_tan x = 16331239353195370.
Proof.
  intros Hx. unfold float_tan. apply Req_b_true in Hx. rewrite Hx.
  reflexivity.
Qed.

Lemma float_tan_steep : Projector.steep_at_poles float_tan.
Proof.
  intros x Hx. rewrite (float_tan_pole x Hx), Rabs_pos_eq; lra.
Qed.

Lemma float_tan_90 : float_tan (radians 90) = 16331239353195370.
Proof. apply float_tan_pole. rewrite radians_90. apply cos_PI2. Qed.

Lemma float_tan_90_far_from_zero :
  / 1000000 < Rabs (float_tan (radians 90)).
Proof. rewrite float_tan_90, Rabs_pos_eq; lra. Qed.

(** C8.  In the dip file the dip side Left is written L and Right is
    written R.  For every row with a nonzero apparent dip that the projector
    does not skip (its fault identifier is not among the features of the
    section, and the tangent of its apparent dip is farther than 1e-6 from
    0) the feature emitted is the segment from (distance, elevation) to
    (distance + sign * |max_depth / tan (apparent dip)|, max_depth), tagged
    with the fault identifier, where sign is -1 when the dip side is L and
    +1 otherwise.  The first part states this for the tangent the script
    calls, which covers an apparent dip of 90, where that tangent is a
    large number; the second states it with the real tangent, wherever the
    real tangent is defined.  With max_depth = -2000, apparent dip 45 and
    dip side R at (500, 100) the segment runs to (2500, -2000); with dip
    side L it runs to (-1500, -2000). *)
Theorem C8_projected_segment :
  forall math_tan : R -> R,
    Projector.regular_tangent math_tan ->
    (forall (existing : list string) (max_depth : R)
            (fault : Projector.DipRow),
        ~ In (Projector.fault_id fault) existing ->
        Projector.apparent_d fault <> 0 ->
        / 1000000 < Rabs (math_tan (radians (Projector.apparent_d fault))) ->
        Projector.project_fault math_tan existing max_depth fault
        = Some {| Projector.geometry :=
                    [(Projector.distance fault, Projector.elevation fault);
                     (Projector.distance fault
                      + (if String.eqb (Projector.dip_side fault) "L"
                         then -1 else 1)
                        * Rabs (max_depth
                                / math_tan
                                    (radians (Projector.apparent_d fault))),
                      max_depth)];
                  Projector.Uni := Projector.fault_id fault |})
    /\ (forall (existing : list string) (max_depth : R)
               (fault : Projector.DipRow),
        ~ In (Projector.fault_id fault) existing ->
        Projector.apparent_d fault <> 0 ->
        cos (radians (Projector.apparent_d fault)) <> 0 ->
        / 1000000 < Rabs (tan (radians (Projector.apparent_d fault))) ->
        Projector.project_fault math_tan existing max_depth fault
        = Some {| Projector.geometry :=
                    [(Projector.distance fault, Projector.elevation fault);
                     (Projector.distance fault
                      + (if String.eqb (Projector.dip_side fault) "L"
                         then -1 else 1)
                        * Rabs (max_depth
                                / tan (radians (Projector.apparent_d fault))),
                      max_depth)];
                  Projector.Uni := Projector.fault_id fault |})
    /\ Projector.project_fault math_tan [] (-2000) (dip_row "R")
       = Some {| Projector.geometry := [(500, 100); (2500, -2000)];
                 Projector.Uni := "F1" |}
    /\ Projector.project_fault math_tan [] (-2000) (dip_row "L")
       = Some {| Projector.geometry := [(500, 100); (-1500, -2000)];
                 Projector.Uni := "F1" |}.
Proof.
  intros math_tan Hreg.
  assert (Hgen : forall (existing : list string) (max_depth : R)
                        (fault : Projector.DipRow),
             ~ In (Projector.fault_id fault) existing ->
             Projector.apparent_d fault <> 0 ->
             / 1000000
             < Rabs (math_tan (radians (Projector.apparent_d fault))) ->
             Projector.project_fault math_tan existing max_depth fault
             = Some {| Projector.geometry :=
                         projected_segment math_tan max_depth fault;
                       Projector.Uni := Projector.fault_id fault |}).
  { intros existing max_depth fault Hnew Hdip Htan.
    apply project_fault_emits; [| apply radians_nonzero; exact Hdip
                                | exact Htan].
    destruct (existsb (String.eqb (Projector.fault_id fault)) existing) eqn:E;
      [|reflexivity].
    apply existsb_eqb_in in E. contradiction. }
  split; [|split; [|split]].
  - intros existing max_depth fault Hnew Hdip Htan.
    rewrite Hgen by assumption. reflexivity.
  - intros existing max_depth fault Hnew Hdip Hcos Htan.
    rewrite <- (Hreg _ Hcos) in Htan |- *.
    rewrite Hgen by assumption. reflexivity.
  - rewrite project_fault_emits;
      [| reflexivity | exact radians_45_nonzero
       | exact (tan_45_far_from_zero math_tan Hreg)].
    rewrite (projected_segment_45 math_tan Hreg).
    unfold direction_sign. simpl.
    replace (500 + 1 * 2000) with 2500 by lra. reflexivity.
  - rewrite project_fault_emits;
      [| reflexivity | exact radians_45_nonzero
       | exact (tan_45_far_from_zero math_tan Hreg)].
    rewrite (projected_segment_45 math_tan Hreg).
    unfold direction_sign. simpl.
    replace (500 + -1 * 2000) with (-1500) by lra. reflexivity.
Qed.

Lemma C8_projected_segment_witness :
  Projector.project_fault float_tan ["Basalt"] (-2000) vertical_row
  = Some {| Projector.geometry :=
              [(500, 100);
               (500 + 1 * Rabs (-2000 / float_tan (radians 90)), -2000)];
            Projector.Uni := "F2" |}.
Proof.
  apply (proj1 (C8_projected_segment float_tan float_tan_regular)
           ["Basalt"] (-2000) vertical_row).
  - simpl. intros [H|[]]. discriminate.
  - simpl. lra.
  - exact float_tan_90_far_from_zero.
Defined.

(** C9.  For a section that already holds a feature tagged with a fault
    identifier, no segment is emitted for that fault; after one run nothing
    is left to add, so running the projector on its own output changes
    neither the section nor, read back from the folder, the files
    written. *)
Theorem C9_projector_idempotent :
  forall (math_tan : R -> R) (section_gdf : list Projector.Feature)
         (section_faults : list Projector.DipRow) (max_depth : R),
    (forall feature,
        In feature (Projector.new_faults math_tan section_gdf section_faults
                      max_depth) ->
        ~ In (Projector.Uni feature) (map Projector.Uni section_gdf))
    /\ Projector.new_faults math_tan
         (Projector.add_faults_to_section math_tan section_gdf section_faults
            max_depth)
         section_faults max_depth = []
    /\ Projector.add_faults_to_section math_tan
         (Projector.add_faults_to_section math_tan section_gdf section_faults
            max_depth)
         section_faults max_depth
       = Projector.add_faults_to_section math_tan section_gdf section_faults
           max_depth
    /\ (forall folder : Projector.Folder,
         Projector.add_faults_to_sections math_tan
           (Projector.write_all
              (Projector.add_faults_to_sections math_tan folder section_faults
                 max_depth)
              folder)
           section_faults max_depth
         = Projector.add_faults_to_sections math_tan folder section_faults
             max_depth).
Proof.
  intros math_tan section_gdf section_faults max_depth.
  split; [|split; [|split]].
  - intros feature. apply new_faults_fresh.
  - apply new_faults_after_run.
  - apply add_faults_to_section_idempotent.
  - intros folder. apply add_faults_to_sections_rerun.
Qed.

Lemma C9_projector_idempotent_witness :
  Projector.add_faults_to_section float_tan
    (Projector.add_faults_to_section float_tan section_file [dip_row "R"]
       (-2000))
    [dip_row "R"] (-2000)
  = Projector.add_faults_to_section float_tan section_file [dip_row "R"]
      (-2000)
  /\ Projector.add_faults_to_sections float_tan
       (Projector.write_all
          (Projector.add_faults_to_sections float_tan one_section_folder
             [dip_row "R"] (-2000))
          one_section_folder)
       [dip_row "R"] (-2000)
     = Projector.add_faults_to_sections float_tan one_section_folder
         [dip_row "R"] (-2000).
Proof.
  split.
  - exact (proj1 (proj2 (proj2
             (C9_projector_idempotent float_tan section_file [dip_row "R"]
                (-2000))))).
  - exact (proj2 (proj2 (proj2
             (C9_projector_idempotent float_tan section_file [dip_row "R"]
                (-2000))))
             one_section_folder).
Defined.
(** ** Further properties of the engine *)

Section EngineAngleMore.

Import Engine.

(** [calculate_angle] in terms of the two chords. *)
Lemma calculate_angle_chords (line1 line2 : Geometry) :
  calculate_angle line1 line2
  = if negb (is_line line1) || negb (is_line line2)
    then Raise (ValueError "Both geometries must be LineString or MultiLineString.")
    else match line_chord line1, line_chord line2 with
         | Some c1, Some c2 => chord_angle c1 c2
         | _, _ => Raise IndexError
         end.
Proof.
  destruct line1 as [p|pts|l1|parts1|]; destruct line2 as [q|qts|l2|parts2|];
    try reflexivity;
    try (destruct parts1 as [|l1 rest1]);
    try (destruct parts2 as [|l2 rest2]);
    try (destruct l1 as [|[x1 y1] l1]);
    try (destruct l2 as [|[x3 y3] l2]);
    unfold calculate_angle, chord_angle; simpl;
    repeat match goal with
    | |- context [last ?l ?a] => destruct (last l a)
    end;
    reflexivity.
Qed.

Lemma chord_angle_sym (c1 c2 : Point * Point) :
  chord_angle c1 c2 = chord_angle c2 c1.
Proof.
  unfold chord_angle. cbn [fst snd].
  rewrite (orb_comm (Req_b (hypot (px (snd c1) - px (fst c1))
                                  (py (snd c1) - py (fst c1))) 0)).
  destruct (Req_b _ 0 || Req_b _ 0); [reflexivity|].
  f_equal. unfold degrees. f_equal. f_equal. f_equal. f_equal.
  unfold Rdiv. f_equal; [ring | f_equal; ring].
Qed.

End EngineAngleMore.

Section EngineAngleTheorems.

Import Engine.

Lemma chord_angle_ok_iff (c1 c2 : Point * Point) :
  (exists a, chord_angle c1 c2 = Ok a) <-> fst c1 <> snd c1 /\ fst c2 <> snd c2.
Proof.
  destruct c1 as [[x1 y1] [x2 y2]], c2 as [[x3 y3] [x4 y4]].
  unfold chord_angle, px, py. cbn [fst snd].
  assert (A1 : Req_b (hypot (x2 - x1) (y2 - y1)) 0 = true
               <-> (x1, y1) = (x2, y2)).
  { rewrite Req_b_true, hypot_eq_0. split.
    - intros [Hx Hy]. f_equal; lra.
    - intros H; inversion H; split; ring. }
  assert (A2 : Req_b (hypot (x4 - x3) (y4 - y3)) 0 = true
               <-> (x3, y3) = (x4, y4)).
  { rewrite Req_b_true, hypot_eq_0. split.
    - intros [Hx Hy]. f_equal; lra.
    - intros H; inversion H; split; ring. }
  destruct (Req_b (hypot (x2 - x1) (y2 - y1)) 0);
    destruct (Req_b (hypot (x4 - x3) (y4 - y3)) 0); cbn [orb].
  - split; [intros [a H]; discriminate|]. intros [H _]. exfalso.
    apply H, A1. reflexivity.
  - split; [intros [a H]; discriminate|]. intros [H _]. exfalso.
    apply H, A1. reflexivity.
  - split; [intros [a H]; discriminate|]. intros [_ H]. exfalso.
    apply H, A2. reflexivity.
  - split; [|eauto]. intros _. split; intros H.
    + apply A1 in H. discriminate.
    + apply A2 in H. discriminate.
Qed.

Lemma chord_angle_zero (c1 c2 : Point * Point) :
  fst c1 = snd c1 \/ fst c2 = snd c2 ->
  chord_angle c1 c2 = Raise (ValueError "One of the lines has zero length.").
Proof.
  intros H. unfold chord_angle. cbn [fst snd].
  replace (Req_b (hypot (px (snd c1) - px (fst c1)) (py (snd c1) - py (fst c1))) 0
           || Req_b (hypot (px (snd c2) - px (fst c2)) (py (snd c2) - py (fst c2))) 0)
    with true; [reflexivity|].
  symmetry. apply orb_true_iff. destruct H as [H|H]; [left | right];
    apply Req_b_true, hypot_eq_0; rewrite H; split; ring.
Qed.

Lemma chord_angle_range (c1 c2 : Point * Point) (a : R) :
  chord_angle c1 c2 = Ok a -> 0 <= a <= 180.
Proof.
  unfold chord_angle. destruct (Req_b _ 0 || Req_b _ 0); [discriminate|].
  intros H; inversion H; subst. apply degrees_acos_range.
Qed.

Lemma clamp_opp (q : R) : Rmax (-1) (Rmin 1 (- q)) = - Rmax (-1) (Rmin 1 q).
Proof.
  unfold Rmax, Rmin.
  destruct (Rle_dec 1 (- q)); destruct (Rle_dec 1 q);
    repeat match goal with
    | |- context [Rle_dec ?a ?b] => destruct (Rle_dec a b)
    end; lra.
Qed.

Lemma hypot_opp (x y : R) : hypot (- x) (- y) = hypot x y.
Proof. unfold hypot. f_equal. ring. Qed.

Lemma degrees_PI_minus (x : R) : degrees (PI - x) = 180 - degrees x.
Proof. unfold degrees. pose proof PI_RGT_0. field. lra. Qed.

Lemma chord_angle_swap (c1 : Point * Point) (a b : Point) (ang : R) :
  chord_angle c1 (a, b) = Ok ang -> chord_angle c1 (b, a) = Ok (180 - ang).
Proof.
  unfold chord_angle. cbn [fst snd].
  replace (hypot (px a - px b) (py a - py b))
    with (hypot (px b - px a) (py b - py a))
    by (rewrite <- hypot_opp; f_equal; ring).
  destruct (Req_b _ 0 || Req_b _ 0); [discriminate|].
  intros H; inversion H; subst. f_equal.
  rewrite <- degrees_PI_minus, <- acos_opp, <- clamp_opp. do 4 f_equal.
  unfold Rdiv. ring.
Qed.

Lemma last_cons {A : Type} (r : list A) : forall y d : A,
  last (y :: r) d = last r y.
Proof.
  induction r as [|z r IH]; intros y d; [reflexivity|].
  change (last (y :: z :: r) d) with (last (z :: r) d).
  rewrite (IH z d), (IH z y). reflexivity.
Qed.

Lemma hd_rev {A : Type} (m : list A) (d : A) : hd d (rev m) = last m d.
Proof.
  induction m as [|z m IH] using rev_ind; [reflexivity|].
  rewrite rev_app_distr, last_last. reflexivity.
Qed.

Lemma line_chord_reverse (l : list Point) (a b : Point) :
  line_chord (GLineString l) = Some (a, b) ->
  line_chord (reverse_line (GLineString l)) = Some (b, a).
Proof.
  destruct l as [|x l]; [discriminate|]. intros H. inversion H; subst.
  clear H. cbn [reverse_line].
  pose proof (hd_rev (a :: l) a) as Hhd.
  assert (Hlast : last (rev (a :: l)) a = a) by (simpl rev; apply last_last).
  destruct (rev (a :: l)) as [|y r] eqn:E.
  - apply (f_equal (@List.length Point)) in E. rewrite length_rev in E.
    discriminate.
  - cbn [hd] in Hhd. rewrite last_cons in Hhd, Hlast.
    cbn [line_chord]. rewrite Hlast, Hhd. reflexivity.
Qed.

End EngineAngleTheorems.

(** X1.  The intersection angle does not depend on the order of its two
    arguments, whether it returns or raises. *)
Theorem X1_calculate_angle_symmetric :
  forall line1 line2 : Engine.Geometry,
    Engine.calculate_angle line1 line2 = Engine.calculate_angle line2 line1.
Proof.
  intros line1 line2. rewrite !calculate_angle_chords.
  rewrite (orb_comm (negb (is_line line1))).
  destruct (negb (is_line line2) || negb (is_line line1)); [reflexivity|].
  destruct (line_chord line1) as [c1|], (line_chord line2) as [c2|];
    try reflexivity.
  apply chord_angle_sym.
Qed.

(** X2.  [calculate_angle] returns exactly when both geometries are lines
    whose chord (first to last vertex, of the first part for a multi-part
    line) has two different endpoints, and then the angle lies in
    [0, 180]. *)
Theorem X2_calculate_angle_returns_iff :
  forall line1 line2 : Engine.Geometry,
    ((exists a, Engine.calculate_angle line1 line2 = Ok a)
     <-> exists c1 c2,
           line_chord line1 = Some c1 /\ line_chord line2 = Some c2
           /\ fst c1 <> snd c1 /\ fst c2 <> snd c2)
    /\ (forall a, Engine.calculate_angle line1 line2 = Ok a -> 0 <= a <= 180).
Proof.
  intros line1 line2. split; [|intros a; apply calculate_angle_range].
  rewrite calculate_angle_chords. split.
  - intros [a Ha].
    destruct (negb (is_line line1) || negb (is_line line2)); [discriminate|].
    destruct (line_chord line1) as [c1|]; [|discriminate].
    destruct (line_chord line2) as [c2|]; [|discriminate].
    exists c1, c2. split; [reflexivity|]. split; [reflexivity|].
    apply chord_angle_ok_iff. eauto.
  - intros (c1 & c2 & H1 & H2 & Hne).
    assert (L1 : is_line line1 = true)
      by (destruct line1 as [| |[|]|[|[|]]|]; try discriminate; reflexivity).
    assert (L2 : is_line line2 = true)
      by (destruct line2 as [| |[|]|[|[|]]|]; try discriminate; reflexivity).
    rewrite L1, L2, H1, H2. cbn [negb orb]. apply chord_angle_ok_iff. exact Hne.
Qed.

(** X3.  How [calculate_angle] fails: a geometry that is not a line gives
    the type [ValueError]; a line without a vertex gives [IndexError]; a
    chord whose endpoints coincide, as for a closed trace, gives the
    zero-length [ValueError]. *)
Theorem X3_calculate_angle_errors :
  forall line1 line2 : Engine.Geometry,
    (is_line line1 = false \/ is_line line2 = false ->
     Engine.calculate_angle line1 line2
     = Raise (ValueError "Both geometries must be LineString or MultiLineString."))
    /\ (is_line line1 = true -> is_line line2 = true ->
        line_chord line1 = None \/ line_chord line2 = None ->
        Engine.calculate_angle line1 line2 = Raise IndexError)
    /\ (forall c1 c2,
          line_chord line1 = Some c1 -> line_chord line2 = Some c2 ->
          fst c1 = snd c1 \/ fst c2 = snd c2 ->
          Engine.calculate_angle line1 line2
          = Raise (ValueError "One of the lines has zero length.")).
Proof.
  intros line1 line2. rewrite calculate_angle_chords. split; [|split].
  - intros [H|H]; rewrite H; cbn [negb orb]; [reflexivity|].
    rewrite orb_true_r. reflexivity.
  - intros L1 L2 H. rewrite L1, L2. cbn [negb orb].
    destruct H as [H|H]; rewrite H; [reflexivity|].
    destruct (line_chord line1); reflexivity.
  - intros c1 c2 H1 H2 Hz.
    assert (L1 : is_line line1 = true)
      by (destruct line1 as [| |[|]|[|[|]]|]; try discriminate; reflexivity).
    assert (L2 : is_line line2 = true)
      by (destruct line2 as [| |[|]|[|[|]]|]; try discriminate; reflexivity).
    rewrite L1, L2, H1, H2. cbn [negb orb]. apply chord_angle_zero. exact Hz.
Qed.

Lemma X2_calculate_angle_returns_iff_witness :
  exists a,
    Engine.calculate_angle Examples.x_axis_section Examples.two_part_fault = Ok a.
Proof.
  apply (proj2 (proj1 (X2_calculate_angle_returns_iff
                         Examples.x_axis_section Examples.two_part_fault))).
  exists ((0, 0), (1, 0)), ((0, 0), (1, 0)).
  repeat split; try reflexivity; simpl; intros H; inversion H; lra.
Defined.

Lemma X3_calculate_angle_errors_witness :
  Engine.calculate_angle (Engine.GLineString [(0, 0); (1, 1); (0, 0)])
    Examples.x_axis_section
  = Raise (ValueError "One of the lines has zero length.").
Proof.
  apply (proj2 (proj2 (X3_calculate_angle_errors
                         (Engine.GLineString [(0, 0); (1, 1); (0, 0)])
                         Examples.x_axis_section))
           ((0, 0), (0, 0)) ((0, 0), (1, 0)) eq_refl eq_refl).
  left. reflexivity.
Defined.

(** ** Further properties of the apparent dip *)

Section ApparentDipFacts.

Lemma atan_le (x y : R) : x <= y -> atan x <= atan y.
Proof.
  intros [H|H]; [left; apply atan_increasing; assumption | subst; lra].
Qed.

Lemma degrees_le (x y : R) : x <= y -> degrees x <= degrees y.
Proof.
  intros H. unfold degrees. pose proof PI_RGT_0 as Hpi.
  apply Rmult_le_compat_r; [|assumption].
  apply Rlt_le, Rdiv_lt_0_compat; lra.
Qed.

Lemma degrees_0 : degrees 0 = 0.
Proof. unfold degrees. ring. Qed.

Lemma radians_0 : radians 0 = 0.
Proof. unfold radians. ring. Qed.

Lemma radians_180 : radians 180 = PI.
Proof. unfold radians. field. Qed.

Lemma radians_le (x y : R) : x <= y -> radians x <= radians y.
Proof.
  intros H. unfold radians. pose proof PI_RGT_0 as Hpi.
  apply Rmult_le_compat_r; [|assumption].
  apply Rlt_le, Rdiv_lt_0_compat; lra.
Qed.

Lemma radians_lt (x y : R) : x < y -> radians x < radians y.
Proof.
  intros H. unfold radians. pose proof PI_RGT_0 as Hpi.
  apply Rmult_lt_compat_r; [|assumption].
  apply Rdiv_lt_0_compat; lra.
Qed.

Lemma radians_angle_range (theta : R) :
  0 <= theta <= 180 -> 0 <= radians theta <= PI.
Proof.
  intros [H0 H1]. rewrite <- radians_0 at 1. rewrite <- radians_180.
  split; apply radians_le; assumption.
Qed.

Lemma radians_dip_range (delta : R) :
  0 <= delta < 90 -> 0 <= radians delta < PI / 2.
Proof.
  intros [H0 H1]. rewrite <- radians_0 at 1. rewrite <- radians_90.
  split; [apply radians_le | apply radians_lt]; assumption.
Qed.

Lemma tan_nonneg (x : R) : 0 <= x < PI / 2 -> 0 <= tan x.
Proof.
  intros [[H|H] H1].
  - left. apply tan_gt_0; assumption.
  - subst. rewrite tan_0. lra.
Qed.

Lemma tan_le (x y : R) : 0 <= x -> x <= y -> y < PI / 2 -> tan x <= tan y.
Proof.
  intros H0 [H|H] H1.
  - left. apply tan_increasing; try assumption. pose proof PI_RGT_0. lra.
  - subst. lra.
Qed.

Lemma sin_angle_range (theta : R) :
  0 <= theta <= 180 -> 0 <= sin (radians theta) <= 1.
Proof.
  intros H. apply radians_angle_range in H. split.
  - apply sin_ge_0; tauto.
  - apply SIN_bound.
Qed.

(** The apparent dip in degrees, for arguments in range. *)
Lemma apparent_dip_nonneg_le (theta delta : R) :
  0 <= theta <= 180 -> 0 <= delta < 90 ->
  0 <= degrees (atan (sin (radians theta) * tan (radians delta))) <= delta.
Proof.
  intros Ht Hd.
  pose proof (sin_angle_range theta Ht) as [Hs0 Hs1].
  pose proof (radians_dip_range delta Hd) as Hr.
  pose proof (tan_nonneg _ Hr) as Htan.
  split.
  - rewrite <- degrees_0. apply degrees_le. rewrite <- atan_0.
    apply atan_le. apply Rmult_le_pos; assumption.
  - rewrite <- (degrees_radians delta) at 2. apply degrees_le.
    rewrite <- (atan_tan (radians delta)) at 2
      by (pose proof PI_RGT_0; lra).
    apply atan_le. nra.
Qed.

End ApparentDipFacts.

Lemma apparent_dip_supplement (theta delta : R) :
  delta < 90 ->
  Engine.calculate_apparent_dip (180 - theta) delta
  = Engine.calculate_apparent_dip theta delta.
Proof.
  intros _. unfold Engine.calculate_apparent_dip.
  assert (Hb : Rle_b 0 (180 - theta) && Rle_b (180 - theta) 180
               = Rle_b 0 theta && Rle_b theta 180).
  { destruct (Rle_b 0 theta && Rle_b theta 180) eqn:E.
    - apply in_range_b in E. apply in_range_b. lra.
    - destruct (Rle_b 0 (180 - theta) && Rle_b (180 - theta) 180) eqn:E';
        [|reflexivity].
      apply in_range_b in E'.
      assert (Rle_b 0 theta && Rle_b theta 180 = true)
        by (apply in_range_b; lra).
      congruence. }
  rewrite Hb.
  destruct (negb (Rle_b 0 theta && Rle_b theta 180)
            || negb (Rle_b 0 delta && Rle_b delta 90)); [reflexivity|].
  replace (radians (180 - theta)) with (PI - radians theta)
    by (unfold radians; field).
  rewrite sin_PI_x. reflexivity.
Qed.

(** X4.  Over exact reals and for a true dip below 90, the apparent dip is
    the same for an intersection angle and for its supplement:
    [calculate_apparent_dip (180 - theta) delta] and
    [calculate_apparent_dip theta delta] agree, errors included. *)
Theorem X4_apparent_dip_supplement :
  forall theta delta : R,
    delta < 90 ->
    Engine.calculate_apparent_dip (180 - theta) delta
    = Engine.calculate_apparent_dip theta delta.
Proof. exact apparent_dip_supplement. Qed.

Lemma X4_apparent_dip_supplement_witness :
  Engine.calculate_apparent_dip (180 - 30) 45
  = Engine.calculate_apparent_dip 30 45.
Proof. apply (X4_apparent_dip_supplement 30 45). lra. Defined.

(** X5.  Digitising the fault line in the opposite direction turns the
    intersection angle into its supplement and, over exact reals and for a
    true dip below 90, leaves the apparent dip unchanged. *)
Theorem X5_reversed_line_same_apparent_dip :
  forall (line1 : Engine.Geometry) (l : list Point) (a dip : R),
    Engine.calculate_angle line1 (Engine.GLineString l) = Ok a ->
    dip < 90 ->
    Engine.calculate_angle line1 (reverse_line (Engine.GLineString l))
    = Ok (180 - a)
    /\ Engine.calculate_apparent_dip (180 - a) dip
       = Engine.calculate_apparent_dip a dip.
Proof.
  intros line1 l a dip H Hdip.
  split; [|apply apparent_dip_supplement; exact Hdip].
  rewrite calculate_angle_chords in H. rewrite calculate_angle_chords.
  cbn [reverse_line is_line] in *.
  destruct (negb (is_line line1) || negb true); [discriminate|].
  destruct (line_chord line1) as [c1|]; [|discriminate].
  destruct (line_chord (Engine.GLineString l)) as [[p q]|] eqn:Hc;
    [|discriminate].
  apply line_chord_reverse in Hc. cbn [reverse_line] in Hc. rewrite Hc.
  apply chord_angle_swap. exact H.
Qed.

Lemma X5_reversed_line_same_apparent_dip_witness :
  Engine.calculate_angle (Engine.sec_geometry Examples.section_A)
    (reverse_line (Engine.GLineString [(1 / 2, 0); (1 / 2, 1)]))
  = Ok (180 - 90)
  /\ Engine.calculate_apparent_dip (180 - 90) 45
     = Engine.calculate_apparent_dip 90 45.
Proof.
  apply (X5_reversed_line_same_apparent_dip
           (Engine.sec_geometry Examples.section_A)
           [(1 / 2, 0); (1 / 2, 1)] 90 45).
  - exact (section_A_angle Examples.fault_ok eq_refl).
  - lra.
Defined.

(** X6.  Special values of the apparent dip: a section at right angles to
    the fault shows the true dip (below 90); a horizontal fault shows no
    dip in any section; a section parallel to the fault (angle 0 or 180)
    shows no dip. *)
Theorem X6_apparent_dip_special_values :
  (forall delta, 0 <= delta < 90 ->
     Engine.calculate_apparent_dip 90 delta = Ok delta)
  /\ (forall theta, 0 <= theta <= 180 ->
     Engine.calculate_apparent_dip theta 0 = Ok 0)
  /\ (forall delta, 0 <= delta < 90 ->
     Engine.calculate_apparent_dip 0 delta = Ok 0
     /\ Engine.calculate_apparent_dip 180 delta = Ok 0).
Proof.
  split; [|split].
  - intros delta Hd. rewrite apparent_dip_in_range by lra.
    rewrite radians_90, sin_PI2, Rmult_1_l.
    pose proof (radians_dip_range delta Hd) as Hr. pose proof PI_RGT_0.
    rewrite atan_tan by lra. rewrite degrees_radians. reflexivity.
  - intros theta Ht. rewrite apparent_dip_in_range by lra.
    rewrite radians_0, tan_0, Rmult_0_r, atan_0, degrees_0. reflexivity.
  - intros delta Hd. split.
    + rewrite apparent_dip_in_range by lra.
      rewrite radians_0, sin_0, Rmult_0_l, atan_0, degrees_0. reflexivity.
    + rewrite apparent_dip_in_range by lra.
      rewrite radians_180, sin_PI, Rmult_0_l, atan_0, degrees_0. reflexivity.
Qed.

Lemma X6_apparent_dip_special_values_witness :
  Engine.calculate_apparent_dip 90 30 = Ok 30
  /\ Engine.calculate_apparent_dip 60 0 = Ok 0.
Proof.
  split.
  - apply (proj1 X6_apparent_dip_special_values 30). lra.
  - apply (proj1 (proj2 X6_apparent_dip_special_values) 60). lra.
Defined.

(** X7.  For an angle in [0, 180] and a true dip in [0, 90) the apparent
    dip is returned and lies between 0 and the true dip. *)
Theorem X7_apparent_dip_at_most_true_dip :
  forall theta delta : R,
    0 <= theta <= 180 -> 0 <= delta < 90 ->
    exists alpha,
      Engine.calculate_apparent_dip theta delta = Ok alpha
      /\ 0 <= alpha <= delta.
Proof.
  intros theta delta Ht Hd. eexists. split.
  - apply apparent_dip_in_range; lra.
  - apply apparent_dip_nonneg_le; assumption.
Qed.

Lemma X7_apparent_dip_at_most_true_dip_witness :
  exists alpha,
    Engine.calculate_apparent_dip 30 45 = Ok alpha /\ 0 <= alpha <= 45.
Proof. apply (X7_apparent_dip_at_most_true_dip 30 45); lra. Defined.

(** X8.  The apparent dip does not decrease when the intersection angle
    grows within [0, 90], nor when the true dip grows within [0, 90). *)
Theorem X8_apparent_dip_monotone :
  (forall theta1 theta2 delta,
      0 <= theta1 -> theta1 <= theta2 -> theta2 <= 90 -> 0 <= delta < 90 ->
      exists a1 a2,
        Engine.calculate_apparent_dip theta1 delta = Ok a1
        /\ Engine.calculate_apparent_dip theta2 delta = Ok a2
        /\ a1 <= a2)
  /\ (forall theta delta1 delta2,
      0 <= theta <= 180 -> 0 <= delta1 -> delta1 <= delta2 -> delta2 < 90 ->
      exists a1 a2,
        Engine.calculate_apparent_dip theta delta1 = Ok a1
        /\ Engine.calculate_apparent_dip theta delta2 = Ok a2
        /\ a1 <= a2).
Proof.
  split.
  - intros theta1 theta2 delta H0 H12 H2 Hd.
    do 2 eexists. split; [apply apparent_dip_in_range; lra|].
    split; [apply apparent_dip_in_range; lra|].
    apply degrees_le, atan_le.
    pose proof (tan_nonneg _ (radians_dip_range delta Hd)) as Htan.
    apply Rmult_le_compat_r; [assumption|].
    pose proof PI_RGT_0 as Hpi.
    assert (R1 : 0 <= radians theta1)
      by (rewrite <- radians_0; apply radians_le; lra).
    assert (R2 : radians theta2 <= PI / 2)
      by (rewrite <- radians_90; apply radians_le; lra).
    pose proof (radians_le _ _ H12) as R12.
    apply sin_incr_1; lra.
  - intros theta delta1 delta2 Ht H0 H12 H2.
    do 2 eexists. split; [apply apparent_dip_in_range; lra|].
    split; [apply apparent_dip_in_range; lra|].
    apply degrees_le, atan_le.
    pose proof (sin_angle_range theta Ht) as [Hs _].
    apply Rmult_le_compat_l; [assumption|].
    apply tan_le.
    + rewrite <- radians_0. apply radians_le. assumption.
    + apply radians_le. assumption.
    + rewrite <- radians_90. apply radians_lt. assumption.
Qed.

Lemma X8_apparent_dip_monotone_witness :
  exists a1 a2,
    Engine.calculate_apparent_dip 30 45 = Ok a1
    /\ Engine.calculate_apparent_dip 60 45 = Ok a2
    /\ a1 <= a2.
Proof.
  apply (proj1 X8_apparent_dip_monotone 30 60 45); lra.
Defined.
(** ** Further properties of the elevation lookup and of the batch *)

Section ElevationMore.

Import Engine.

Lemma np_getitem_inside (band : list (list R)) (row col : Z) :
  rectangular band ->
  (0 <= row < height band)%Z -> (0 <= col < width band)%Z ->
  exists v, cell band row col = Some v /\ np_getitem band row col = Ok v.
Proof.
  intros Hrect Hrow Hcol. unfold np_getitem, cell.
  rewrite (np_axis_index_inside _ _ Hrow), (np_axis_index_inside _ _ Hcol).
  cbn [bind]. unfold height in Hrow. unfold width in Hcol.
  destruct (nth_error band (Z.to_nat row)) as [cells|] eqn:Hb.
  - assert (Hin : In cells band) by (eapply nth_error_In; eassumption).
    destruct (nth_error cells (Z.to_nat col)) as [v|] eqn:Hv; [eauto|].
    apply nth_error_None in Hv. rewrite (Hrect cells Hin) in Hv. lia.
  - apply nth_error_None in Hb. lia.
Qed.

Lemma np_getitem_only_index_error (band : list (list R)) (row col : Z)
    (e : PyError) :
  np_getitem band row col = Raise e -> e = IndexError.
Proof.
  unfold np_getitem, np_axis_index.
  repeat match goal with
  | |- context [if ?b then _ else _] => destruct b
  end; cbn [bind];
  repeat match goal with
  | |- context [match nth_error ?l ?n with _ => _ end] =>
      destruct (nth_error l n)
  end; intros H; inversion H; reflexivity.
Qed.

End ElevationMore.

(** X9.  Inside the coverage of a rectangular raster the lookup returns the
    cell at the row and column of the point. *)
Theorem X9_get_elevation_inside :
  forall (dem : Engine.DEM) (x y : R),
    rectangular (Engine.dem_band1 dem) ->
    Engine.covered dem x y ->
    exists v,
      cell (Engine.dem_band1 dem) (fst (Engine.dem_index dem x y))
           (snd (Engine.dem_index dem x y)) = Some v
      /\ Engine.get_elevation x y dem = Ok v.
Proof.
  intros dem x y Hrect Hcov. unfold Engine.covered in Hcov.
  unfold Engine.get_elevation.
  destruct (Engine.dem_index dem x y) as [row col]. cbn [fst snd].
  destruct Hcov as [Hrow Hcol].
  destruct (np_getitem_inside _ _ _ Hrect Hrow Hcol) as (v & Hc & Hv).
  exists v. split; [exact Hc|]. rewrite Hv. reflexivity.
Qed.

Lemma X9_get_elevation_inside_witness :
  exists v,
    cell (Engine.dem_band1 Examples.unit_dem)
         (fst (Engine.dem_index Examples.unit_dem (1 / 2) (1 / 2)))
         (snd (Engine.dem_index Examples.unit_dem (1 / 2) (1 / 2))) = Some v
    /\ Engine.get_elevation (1 / 2) (1 / 2) Examples.unit_dem = Ok v.
Proof.
  apply (X9_get_elevation_inside Examples.unit_dem (1 / 2) (1 / 2)).
  - intros cells [<-|[]]. reflexivity.
  - unfold Engine.covered, Engine.dem_index, Examples.unit_dem. simpl.
    replace ((1 / 2 - 1) / -1) with (1 / 2) by field.
    replace ((1 / 2 - 0) / 1) with (1 / 2) by field.
    rewrite Zfloor_half. unfold Engine.height, Engine.width. simpl. lia.
Defined.

(** X10.  For a rectangular raster of height h and width w the lookup
    raises exactly when the row index falls outside [-h, h) or the column
    index outside [-w, w), and the only exception it raises is
    [IndexError]. *)
Theorem X10_get_elevation_raises_iff :
  forall (dem : Engine.DEM) (x y : R),
    rectangular (Engine.dem_band1 dem) ->
    let row := fst (Engine.dem_index dem x y) in
    let col := snd (Engine.dem_index dem x y) in
    let h := Engine.height (Engine.dem_band1 dem) in
    let w := Engine.width (Engine.dem_band1 dem) in
    (Engine.get_elevation x y dem = Raise IndexError
     <-> ~ ((- h <= row < h)%Z /\ (- w <= col < w)%Z))
    /\ (forall e, Engine.get_elevation x y dem = Raise e -> e = IndexError).
Proof.
  intros dem x y Hrect. unfold Engine.get_elevation.
  destruct (Engine.dem_index dem x y) as [row col]. cbn [fst snd].
  split.
  - split.
    + intros H [Hrow Hcol].
      destruct (np_getitem_total _ _ _ Hrect Hrow Hcol) as [v Hv].
      rewrite Hv in H. discriminate.
    + intros H. rewrite np_getitem_raises; [reflexivity|]. lia.
  - intros e H.
    destruct (Engine.np_getitem (Engine.dem_band1 dem) row col) as [v|e']
      eqn:Hn; [discriminate|].
    cbn [bind] in H. inversion H; subst.
    eapply np_getitem_only_index_error; eassumption.
Qed.

Lemma X10_get_elevation_raises_iff_witness :
  Engine.get_elevation (5 / 2) (3 / 2) Examples.dem22 = Raise IndexError.
Proof.
  apply (proj1 (X10_get_elevation_raises_iff Examples.dem22 (5 / 2) (3 / 2)
                  ltac:(intros cells [<-|[<-|[]]]; reflexivity))).
  unfold Engine.dem_index, Examples.dem22, Engine.height, Engine.width. simpl.
  replace (Zfloor ((5 / 2 - 0) / 1)) with 2%Z
    by (symmetry; apply Zfloor_eq; simpl; lra).
  lia.
Defined.

Section MapMMore.

Context {A B : Type} (f : A -> Result B).

Lemma mapM_ok_in_rev (l : list A) (bs : list B) (b : B) :
  mapM f l = Ok bs -> In b bs -> exists a, In a l /\ f a = Ok b.
Proof.
  revert bs. induction l as [|x l IH]; intros bs H Hin.
  - inversion H; subst. contradiction.
  - apply mapM_ok_inv in H. destruct H as (b' & bs' & Hx & Hl & ->).
    destruct Hin as [<-|Hin].
    + exists x. split; [left; reflexivity | exact Hx].
    + destruct (IH _ Hl Hin) as (a & Ha & Hfa). exists a.
      split; [right; exact Ha | exact Hfa].
Qed.

End MapMMore.

Lemma mapM_all_nil {A B : Type} (f : A -> Result (list B)) (l : list A) :
  (forall a, In a l -> f a = Ok []) ->
  exists rss, mapM f l = Ok rss /\ List.concat rss = [].
Proof.
  induction l as [|x l IH]; intros H.
  - exists []. split; reflexivity.
  - destruct IH as (rss & Hrss & Hc); [intros a Ha; apply H; right; exact Ha|].
    exists ([] :: rss). split.
    + apply mapM_cons_ok; [apply H; left; reflexivity | exact Hrss].
    + simpl. exact Hc.
Qed.

Lemma list_sum_cons (x : nat) (l : list nat) :
  list_sum (x :: l) = (x + list_sum l)%nat.
Proof. reflexivity. Qed.

Section BatchMore.

Import Engine.

Variable intersection : Geometry -> Geometry -> Geometry.

Lemma apparent_dip_ok_range (a d v : R) :
  calculate_apparent_dip a d = Ok v -> 0 <= a <= 180 /\ 0 <= d <= 90.
Proof.
  intros H.
  destruct (Rle_dec 0 a); destruct (Rle_dec a 180);
    destruct (Rle_dec 0 d); destruct (Rle_dec d 90);
    try (split; split; assumption);
    rewrite apparent_dip_out_of_range in H by lra; discriminate.
Qed.

Lemma process_point_fields section fault dem point r :
  process_point section fault dem point = Ok r ->
  geometry r = point
  /\ section_id r = sec_name section /\ fault_id r = flt_Fault fault
  /\ true_dip r = flt_Dip fault /\ dip_side r = flt_Side_Dip fault
  /\ get_elevation (px point) (py point) dem = Ok (elevation r)
  /\ calculate_angle (sec_geometry section) (flt_geometry fault) = Ok (angle r)
  /\ calculate_apparent_dip (angle r) (true_dip r) = Ok (apparent_dip r).
Proof.
  unfold process_point.
  destruct (get_elevation (px point) (py point) dem) as [v|]; cbn [bind];
    [|discriminate].
  destruct (coords (sec_geometry section)) as [cs|]; cbn [bind]; [|discriminate].
  destruct (first_coord cs) as [sp|]; cbn [bind]; [|discriminate].
  destruct (calculate_angle _ _) as [ang|]; cbn [bind]; [|discriminate].
  destruct (calculate_apparent_dip ang (flt_Dip fault)) as [ad|] eqn:Had;
    cbn [bind]; [|discriminate].
  intros H; inversion H; subst; cbn. repeat split; try reflexivity. exact Had.
Qed.

Lemma process_section_length faults dem section rs :
  process_section intersection faults dem section = Ok rs ->
  List.length rs
  = list_sum (map (fun f => List.length (crossing_points intersection section f))
                  faults).
Proof.
  unfold process_section.
  destruct (mapM (process_pair intersection dem section) faults) as [rss|] eqn:Hm;
    cbn [bind]; [|discriminate].
  intros H; inversion H; subst. clear H. revert rss Hm.
  induction faults as [|f faults IH]; intros rss Hm.
  - inversion Hm; subst. reflexivity.
  - apply mapM_ok_inv in Hm. destruct Hm as (b & bs & Hb & Hbs & ->).
    cbn [List.concat map]. rewrite list_sum_cons, length_app, (IH _ Hbs).
    f_equal. unfold process_pair in Hb. eapply mapM_length; eassumption.
Qed.

Lemma process_intersections_length sections faults dem info :
  process_intersections intersection sections faults dem = Ok info ->
  List.length info = count_crossings intersection sections faults.
Proof.
  unfold process_intersections, count_crossings.
  destruct (mapM (process_section intersection faults dem) sections)
    as [rss|] eqn:Hm; cbn [bind]; [|discriminate].
  intros H; inversion H; subst. clear H. revert rss Hm.
  induction sections as [|s sections IH]; intros rss Hm.
  - inversion Hm; subst. reflexivity.
  - apply mapM_ok_inv in Hm. destruct Hm as (b & bs & Hb & Hbs & ->).
    cbn [List.concat map]. rewrite list_sum_cons, length_app, (IH _ Hbs).
    f_equal. eapply process_section_length; eassumption.
Qed.

Lemma process_intersections_origin sections faults dem info r :
  process_intersections intersection sections faults dem = Ok info ->
  In r info ->
  exists section fault point,
    In section sections /\ In fault faults
    /\ In point (crossing_points intersection section fault)
    /\ process_point section fault dem point = Ok r.
Proof.
  unfold process_intersections.
  destruct (mapM (process_section intersection faults dem) sections)
    as [rss|] eqn:Hm; cbn [bind]; [|discriminate].
  intros H Hin; inversion H; subst. clear H.
  apply in_concat in Hin. destruct Hin as (rs & Hrs & Hr).
  destruct (mapM_ok_in_rev _ _ _ _ Hm Hrs) as (section & Hs & Hsec).
  unfold process_section in Hsec.
  destruct (mapM (process_pair intersection dem section) faults) as [rss'|]
    eqn:Hm'; cbn [bind] in Hsec; [|discriminate].
  inversion Hsec; subst. clear Hsec.
  apply in_concat in Hr. destruct Hr as (rs' & Hrs' & Hr').
  destruct (mapM_ok_in_rev _ _ _ _ Hm' Hrs') as (fault & Hf & Hpair).
  unfold process_pair in Hpair.
  destruct (mapM_ok_in_rev _ _ _ _ Hpair Hr') as (point & Hp & Hpoint).
  exists section, fault, point. auto.
Qed.

Lemma process_intersections_no_crossing sections faults dem :
  (forall section fault, In section sections -> In fault faults ->
     crossing_points intersection section fault = []) ->
  process_intersections intersection sections faults dem = Ok [].
Proof.
  intros H. unfold process_intersections.
  destruct (mapM_all_nil (process_section intersection faults dem) sections)
    as (rss & Hrss & Hc).
  - intros section Hs. unfold process_section.
    destruct (mapM_all_nil (process_pair intersection dem section) faults)
      as (rss & Hrss & Hc).
    + intros fault Hf. unfold process_pair. rewrite (H section fault Hs Hf).
      reflexivity.
    + rewrite Hrss. cbn [bind]. rewrite Hc. reflexivity.
  - rewrite Hrss. cbn [bind]. rewrite Hc. reflexivity.
Qed.

End BatchMore.

(** X11.  When [process_intersections] returns, it returns one record per
    crossing point: the number of records is the number of crossing points
    summed over all (section, fault) pairs. *)
Theorem X11_one_record_per_crossing :
  forall intersection sections faults dem info,
    Engine.process_intersections intersection sections faults dem = Ok info ->
    List.length info = count_crossings intersection sections faults.
Proof.
  intros intersection sections faults dem info H.
  eapply process_intersections_length; eassumption.
Qed.

Lemma X11_one_record_per_crossing_witness :
  List.length [record_A_F1; record_A_F1]
  = count_crossings Examples.cross_twice [Examples.section_A] [Examples.fault_ok].
Proof.
  apply (X11_one_record_per_crossing Examples.cross_twice [Examples.section_A]
           [Examples.fault_ok] Examples.unit_dem).
  exact section_A_twice.
Defined.

(** X12.  Every record returned by [process_intersections] comes from a
    crossing point of a section and a fault of the inputs: it carries their
    identifiers, the fault's dip and dip side, the elevation looked up at
    the point, an angle in [0, 180], a true dip in [0, 90], and the apparent
    dip computed from the two. *)
Theorem X12_records_come_from_crossings :
  forall intersection sections faults dem info r,
    Engine.process_intersections intersection sections faults dem = Ok info ->
    In r info ->
    exists section fault,
      In section sections /\ In fault faults
      /\ In (Engine.geometry r)
            (Engine.crossing_points intersection section fault)
      /\ Engine.section_id r = Engine.sec_name section
      /\ Engine.fault_id r = Engine.flt_Fault fault
      /\ Engine.true_dip r = Engine.flt_Dip fault
      /\ Engine.dip_side r = Engine.flt_Side_Dip fault
      /\ Engine.get_elevation (px (Engine.geometry r)) (py (Engine.geometry r))
           dem = Ok (Engine.elevation r)
      /\ Engine.calculate_apparent_dip (Engine.angle r) (Engine.true_dip r)
         = Ok (Engine.apparent_dip r)
      /\ 0 <= Engine.angle r <= 180
      /\ 0 <= Engine.true_dip r <= 90.
Proof.
  intros intersection sections faults dem info r Hrun Hin.
  destruct (process_intersections_origin _ _ _ _ _ _ Hrun Hin)
    as (section & fault & point & Hs & Hf & Hp & Hpt).
  destruct (process_point_fields _ _ _ _ _ Hpt)
    as (Hg & Hsid & Hfid & Hd & Hside & Hel & Hang & Hap).
  exists section, fault. subst point.
  destruct (apparent_dip_ok_range _ _ _ Hap) as [Ha Hdip].
  repeat split; try assumption; tauto.
Qed.

Lemma X12_records_come_from_crossings_witness :
  exists section fault,
    In section [Examples.section_A] /\ In fault [Examples.fault_ok]
    /\ In (Engine.geometry record_A_F1)
          (Engine.crossing_points Examples.cross_twice section fault)
    /\ Engine.section_id record_A_F1 = Engine.sec_name section
    /\ Engine.fault_id record_A_F1 = Engine.flt_Fault fault
    /\ Engine.true_dip record_A_F1 = Engine.flt_Dip fault
    /\ Engine.dip_side record_A_F1 = Engine.flt_Side_Dip fault
    /\ Engine.get_elevation (px (Engine.geometry record_A_F1))
         (py (Engine.geometry record_A_F1)) Examples.unit_dem
       = Ok (Engine.elevation record_A_F1)
    /\ Engine.calculate_apparent_dip (Engine.angle record_A_F1)
         (Engine.true_dip record_A_F1) = Ok (Engine.apparent_dip record_A_F1)
    /\ 0 <= Engine.angle record_A_F1 <= 180
    /\ 0 <= Engine.true_dip record_A_F1 <= 90.
Proof.
  apply (X12_records_come_from_crossings Examples.cross_twice
           [Examples.section_A] [Examples.fault_ok] Examples.unit_dem
           [record_A_F1; record_A_F1] record_A_F1 section_A_twice).
  left. reflexivity.
Defined.

(** X13.  When no (section, fault) pair has a crossing point, in particular
    when there is no section or no fault, [process_intersections] returns
    the empty list, whatever the dips, the line geometries and the
    raster. *)
Theorem X13_no_crossing_no_error :
  forall intersection sections faults dem,
    (forall section fault, In section sections -> In fault faults ->
       Engine.crossing_points intersection section fault = []) ->
    Engine.process_intersections intersection sections faults dem = Ok [].
Proof.
  intros intersection sections faults dem H.
  apply process_intersections_no_crossing. exact H.
Qed.

Lemma X13_no_crossing_no_error_witness :
  Engine.process_intersections (fun _ _ => Engine.GOther)
    [Examples.section_A] [Examples.fault_steep] Examples.unit_dem = Ok [].
Proof.
  apply (X13_no_crossing_no_error (fun _ _ => Engine.GOther)
           [Examples.section_A] [Examples.fault_steep] Examples.unit_dem).
  intros section fault _ _. reflexivity.
Defined.

(** X14.  A section whose geometry is a multi-part line cannot be processed:
    at its first crossing point inside the raster, reading the coordinates
    of the section raises [NotImplementedError], although
    [calculate_angle] accepts multi-part lines. *)
Theorem X14_multipart_section_raises :
  forall intersection dem section fault parts point points v,
    Engine.sec_geometry section = Engine.GMultiLineString parts ->
    Engine.crossing_points intersection section fault = point :: points ->
    Engine.get_elevation (px point) (py point) dem = Ok v ->
    Engine.process_pair intersection dem section fault
    = Raise NotImplementedError.
Proof.
  intros intersection dem section fault parts point points v Hg Hc Hel.
  unfold Engine.process_pair. rewrite Hc. cbn [mapM].
  unfold Engine.process_point. rewrite Hel, Hg. reflexivity.
Qed.

Lemma X14_multipart_section_raises_witness :
  Engine.process_pair Examples.cross_at_centre Examples.unit_dem
    {| Engine.sec_name := "B";
       Engine.sec_geometry :=
         Engine.GMultiLineString [[(0, 1 / 2); (1, 1 / 2)]] |}
    Examples.fault_ok
  = Raise NotImplementedError.
Proof.
  apply (X14_multipart_section_raises Examples.cross_at_centre
           Examples.unit_dem _ Examples.fault_ok
           [[(0, 1 / 2); (1, 1 / 2)]] (1 / 2, 1 / 2) [] 2240).
  - reflexivity.
  - reflexivity.
  - exact unit_dem_centre.
Defined.
(** ** Further properties of the saved table *)

Section SaveMore.

Import Engine.

Lemma seen_ids_in (s f : string) (seen : list (string * string)) :
  seen_ids s f seen = true <-> In (s, f) seen.
Proof.
  unfold seen_ids. rewrite existsb_exists. split.
  - intros ([a b] & Hin & Heq). cbn [fst snd] in Heq.
    apply andb_true_iff in Heq. destruct Heq as [Ha Hb].
    apply String.eqb_eq in Ha, Hb. subst. exact Hin.
  - intros Hin. exists (s, f). split; [exact Hin|]. cbn [fst snd].
    rewrite !String.eqb_refl. reflexivity.
Qed.

Lemma ids_eq_dec (k k' : string * string) : {k = k'} + {k <> k'}.
Proof. decide equality; apply string_dec. Qed.

Lemma drop_duplicates_from_ids (rows : list Intersection) :
  forall seen,
    NoDup (map ids (drop_duplicates_from seen rows))
    /\ forall k, In k (map ids (drop_duplicates_from seen rows))
                 <-> In k (map ids rows) /\ ~ In k seen.
Proof.
  induction rows as [|r rest IH]; intros seen.
  - cbn. split; [constructor|]. intros k. tauto.
  - cbn [drop_duplicates_from].
    fold (seen_ids (section_id r) (fault_id r) seen).
    destruct (seen_ids (section_id r) (fault_id r) seen) eqn:Hseen.
    + apply seen_ids_in in Hseen. destruct (IH seen) as [Hnd Hmem].
      split; [exact Hnd|]. intros k. rewrite Hmem. cbn [map In].
      split; [tauto|]. intros [[Hk|Hk] Hn]; [|tauto].
      exfalso. apply Hn. rewrite <- Hk. exact Hseen.
    + assert (Hnot : ~ In (ids r) seen).
      { intros Hin. apply seen_ids_in in Hin. unfold ids in Hin. congruence. }
      destruct (IH ((section_id r, fault_id r) :: seen)) as [Hnd Hmem].
      split.
      * cbn [map]. constructor; [|exact Hnd].
        intros Hin. apply Hmem in Hin. destruct Hin as [_ Hn].
        apply Hn. left. reflexivity.
      * intros k. cbn [map In]. rewrite Hmem. cbn [In].
        fold (ids r). destruct (ids_eq_dec (ids r) k) as [Heq|Hne].
        -- subst k. tauto.
        -- tauto.
Qed.

Lemma drop_duplicates_from_fixed (rows : list Intersection) :
  forall seen,
    NoDup (map ids rows) ->
    (forall r, In r rows -> ~ In (ids r) seen) ->
    drop_duplicates_from seen rows = rows.
Proof.
  induction rows as [|r rest IH]; intros seen Hnd Hfresh; [reflexivity|].
  cbn [drop_duplicates_from].
  fold (seen_ids (section_id r) (fault_id r) seen).
  destruct (seen_ids (section_id r) (fault_id r) seen) eqn:Hseen.
  - apply seen_ids_in in Hseen. exfalso.
    apply (Hfresh r (or_introl eq_refl)). exact Hseen.
  - f_equal. cbn [map] in Hnd. inversion Hnd as [|k l Hk Hl]; subst.
    apply IH; [exact Hl|].
    intros r' Hin [Heq|Hin'].
    + apply Hk. fold (ids r) in Heq. rewrite Heq. apply in_map. exact Hin.
    + apply (Hfresh r' (or_intror Hin)). exact Hin'.
Qed.

End SaveMore.

(** X15.  No two saved rows carry the same (section_id, fault_id) pair, and
    the pairs of identifiers of the saved rows are those of the rows
    handed in. *)
Theorem X15_saved_ids_unique_and_complete :
  forall info : list Engine.Intersection,
    NoDup (map ids (Engine.save_results info))
    /\ forall k, In k (map ids (Engine.save_results info))
                 <-> In k (map ids info).
Proof.
  intros info. unfold Engine.save_results, Engine.drop_duplicates.
  destruct (drop_duplicates_from_ids info []) as [Hnd Hmem].
  split; [exact Hnd|]. intros k. rewrite Hmem. cbn [In]. tauto.
Qed.

(** X16.  For a list that holds at least one record: saving leaves a table
    without repeated identifier pairs as it is, the table saved is not
    empty, and saving it again changes nothing. *)
Theorem X16_save_results_idempotent :
  forall info : list Engine.Intersection,
    info <> [] ->
    (NoDup (map ids info) -> Engine.save_results info = info)
    /\ Engine.save_results info <> []
    /\ Engine.save_results (Engine.save_results info)
       = Engine.save_results info.
Proof.
  intros info Hne.
  assert (Hfix : forall l : list Engine.Intersection,
             NoDup (map ids l) -> Engine.save_results l = l).
  { intros l Hnd. unfold Engine.save_results, Engine.drop_duplicates.
    apply drop_duplicates_from_fixed; [exact Hnd|]. intros r _ []. }
  split; [apply Hfix|]. split.
  - destruct info as [|r rest]; [contradiction|].
    unfold Engine.save_results, Engine.drop_duplicates.
    cbn [Engine.drop_duplicates_from existsb]. discriminate.
  - apply Hfix.
    unfold Engine.save_results, Engine.drop_duplicates.
    apply (proj1 (drop_duplicates_from_ids info [])).
Qed.

Lemma X16_save_results_idempotent_witness :
  Engine.save_results [record_A_F1] = [record_A_F1].
Proof.
  assert (Hne : [record_A_F1] <> []) by discriminate.
  apply (proj1 (X16_save_results_idempotent [record_A_F1] Hne)).
  cbn. constructor; [intros []|constructor].
Defined.
(** ** Further properties of the extender *)

Section ExtenderMore.

Import Extender.

Lemma get_endpoints_of (line : Line) :
  line <> [] -> get_endpoints line = Ok (endpoints_of line).
Proof. destruct line as [|a rest]; [congruence|]. reflexivity. Qed.

Lemma get_endpoints_error (line : Line) (e : PyError) :
  get_endpoints line = Raise e -> line = [] /\ e = IndexError.
Proof.
  destruct line as [|a rest]; cbn; intros H; inversion H. split; reflexivity.
Qed.

Lemma mapM_get_endpoints (group : list Line) :
  (forall line, In line group -> line <> []) ->
  mapM get_endpoints group = Ok (map endpoints_of group).
Proof.
  induction group as [|line group IH]; intros H; [reflexivity|].
  cbn [map]. apply mapM_cons_ok.
  - apply get_endpoints_of. apply H. left; reflexivity.
  - apply IH. intros l Hl. apply H. right; exact Hl.
Qed.

Lemma all_endpoints_flat_map (group : list Line) :
  flat_map (fun se : Point * Point => [fst se; snd se]) (map endpoints_of group)
  = all_endpoints group.
Proof.
  unfold all_endpoints. induction group as [|l g IH]; [reflexivity|].
  cbn [map flat_map]. rewrite IH. reflexivity.
Qed.

(** [count_connections] on a group of traces with at least one vertex
    each. *)
Lemma count_connections_multiplicity (group : list Line) :
  (forall line, In line group -> line <> []) ->
  count_connections group = Ok (map (connections_of group) group).
Proof.
  intros H. pose proof (mapM_get_endpoints group H) as Hm.
  rewrite (count_connections_spec group _ Hm). cbv zeta.
  rewrite all_endpoints_flat_map, map_map. reflexivity.
Qed.

Lemma mapM_raise_inv {A B : Type} (f : A -> Result B) (l : list A)
    (e : PyError) :
  mapM f l = Raise e -> exists a, In a l /\ f a = Raise e.
Proof.
  induction l as [|x l IH]; [discriminate|]. cbn [mapM].
  destruct (f x) as [b|e'] eqn:Hx; cbn [bind].
  - destruct (mapM f l) as [bs|e'] eqn:Hl; cbn [bind]; [discriminate|].
    intros H; inversion H; subst.
    destruct (IH eq_refl) as (a & Ha & Hfa). exists a.
    split; [right; exact Ha | exact Hfa].
  - intros H; inversion H; subst. exists x. split; [left; reflexivity|exact Hx].
Qed.

Lemma multiplicity_endpoint (group : list Line) (line : Line) :
  In line group ->
  (1 <= multiplicity group (fst (endpoints_of line)))%nat
  /\ (1 <= multiplicity group (snd (endpoints_of line)))%nat.
Proof.
  intros Hin. unfold multiplicity.
  split; apply count_occ_In; unfold all_endpoints; apply in_flat_map;
    exists line; (split; [exact Hin|]); [left | right; left]; reflexivity.
Qed.

Lemma multiplicity_closed (group : list Line) (line : Line) :
  In line group ->
  fst (endpoints_of line) = snd (endpoints_of line) ->
  (2 <= multiplicity group (fst (endpoints_of line)))%nat.
Proof.
  intros Hin Heq. unfold multiplicity, all_endpoints.
  apply in_split in Hin. destruct Hin as (g1 & g2 & ->).
  rewrite flat_map_app. cbn [flat_map]. rewrite count_occ_app.
  cbn [app]. rewrite <- Heq. rewrite !count_occ_cons_eq by reflexivity. lia.
Qed.

Lemma multiplicity_perm (g g' : list Line) (p : Point) :
  Permutation g g' -> multiplicity g p = multiplicity g' p.
Proof.
  intros H. unfold multiplicity. apply Permutation_count_occ.
  unfold all_endpoints. apply Permutation_flat_map. exact H.
Qed.

Lemma combine_map {A B : Type} (f : A -> B) (l : list A) :
  combine l (map f l) = map (fun a => (a, f a)) l.
Proof. induction l as [|a l IH]; [reflexivity|]. cbn. rewrite IH. reflexivity. Qed.

End ExtenderMore.

(** X17.  On a group of traces with at least one vertex each,
    [count_connections] returns one pair per trace, in order, and every
    multiplicity is at least 1; on a group with a trace without vertices it
    raises [IndexError]. *)
Theorem X17_count_connections_total :
  forall group : list Extender.Line,
    ((forall line, In line group -> line <> []) ->
     exists conns,
       Extender.count_connections group = Ok conns
       /\ List.length conns = List.length group
       /\ forall c, In c conns -> (1 <= fst c)%nat /\ (1 <= snd c)%nat)
    /\ (In [] group -> Extender.count_connections group = Raise IndexError).
Proof.
  intros group. split.
  - intros H. exists (map (connections_of group) group).
    split; [apply count_connections_multiplicity; exact H|].
    split; [apply length_map|].
    intros c Hc. apply in_map_iff in Hc. destruct Hc as (line & <- & Hin).
    apply multiplicity_endpoint. exact Hin.
  - intros Hin. unfold Extender.count_connections.
    destruct (mapM Extender.get_endpoints group) as [eps|e] eqn:Hm.
    + destruct (mapM_ok_in _ _ _ _ Hm Hin) as (b & Hb & _). discriminate.
    + cbn [bind]. apply mapM_raise_inv in Hm. destruct Hm as (a & _ & Ha).
      apply get_endpoints_error in Ha. destruct Ha as [_ ->]. reflexivity.
Qed.

Lemma X17_count_connections_total_witness :
  exists conns,
    Extender.count_connections (gap_group 0) = Ok conns
    /\ List.length conns = List.length (gap_group 0)
    /\ forall c, In c conns -> (1 <= fst c)%nat /\ (1 <= snd c)%nat.
Proof.
  apply (proj1 (X17_count_connections_total (gap_group 0))).
  intros line [<-|[<-|[]]]; discriminate.
Defined.

(** X18.  The multiplicities attached to a trace do not depend on the order
    of the traces in the group. *)
Theorem X18_count_connections_order_independent :
  forall group group' : list Extender.Line,
    Permutation group group' ->
    (forall line, In line group -> line <> []) ->
    exists conns conns',
      Extender.count_connections group = Ok conns
      /\ Extender.count_connections group' = Ok conns'
      /\ Permutation (combine group conns) (combine group' conns').
Proof.
  intros group group' Hp Hne.
  assert (Hne' : forall line, In line group' -> line <> []).
  { intros line Hin. apply Hne. eapply Permutation_in; [|exact Hin].
    apply Permutation_sym. exact Hp. }
  exists (map (connections_of group) group),
         (map (connections_of group') group').
  split; [apply count_connections_multiplicity; exact Hne|].
  split; [apply count_connections_multiplicity; exact Hne'|].
  rewrite !combine_map.
  replace (map (fun a => (a, connections_of group' a)) group')
    with (map (fun a => (a, connections_of group a)) group').
  - apply Permutation_map. exact Hp.
  - apply map_ext. intros line. unfold connections_of.
    rewrite !(multiplicity_perm group group') by exact Hp. reflexivity.
Qed.

Lemma X18_count_connections_order_independent_witness :
  exists conns conns',
    Extender.count_connections [[(0, 0); (1, 0)]; [(1, 0); (2, 0)]] = Ok conns
    /\ Extender.count_connections [[(1, 0); (2, 0)]; [(0, 0); (1, 0)]] = Ok conns'
    /\ Permutation (combine [[(0, 0); (1, 0)]; [(1, 0); (2, 0)]] conns)
                   (combine [[(1, 0); (2, 0)]; [(0, 0); (1, 0)]] conns').
Proof.
  apply (X18_count_connections_order_independent
           [[(0, 0); (1, 0)]; [(1, 0); (2, 0)]]
           [[(1, 0); (2, 0)]; [(0, 0); (1, 0)]]).
  - apply perm_swap.
  - intros line [<-|[<-|[]]]; discriminate.
Defined.

(** X19.  A closed trace, whose first and last vertex coincide, counts its
    own endpoint twice: both multiplicities are at least 2 and
    [extend_fault] returns the trace as it is. *)
Theorem X19_closed_trace_never_extended :
  forall (group : list Extender.Line) (line : Extender.Line)
         (area : Extender.Area) (factor : R),
    (forall l, In l group -> l <> []) ->
    In line group ->
    fst (endpoints_of line) = snd (endpoints_of line) ->
    exists conns c,
      Extender.count_connections group = Ok conns
      /\ In (line, c) (combine group conns)
      /\ (2 <= fst c)%nat /\ (2 <= snd c)%nat
      /\ Extender.extend_fault line c area factor
         = Ok (Extender.Unchanged line).
Proof.
  intros group line area factor Hne Hin Hclosed.
  exists (map (connections_of group) group), (connections_of group line).
  pose proof (multiplicity_closed group line Hin Hclosed) as H2.
  split; [apply count_connections_multiplicity; exact Hne|].
  split; [rewrite combine_map; apply in_map_iff; exists line; auto|].
  unfold connections_of. rewrite <- Hclosed. cbn [fst snd].
  split; [exact H2|]. split; [exact H2|].
  apply extend_fault_none; [apply Hne; exact Hin | lia | lia].
Qed.

Lemma X19_closed_trace_never_extended_witness :
  exists conns c,
    Extender.count_connections [[(0, 0); (1, 1); (0, 0)]] = Ok conns
    /\ In ([(0, 0); (1, 1); (0, 0)], c)
          (combine [[(0, 0); (1, 1); (0, 0)]] conns)
    /\ (2 <= fst c)%nat /\ (2 <= snd c)%nat
    /\ Extender.extend_fault [(0, 0); (1, 1); (0, 0)] c
         (Extender.box 0 0 1 1) 1000
       = Ok (Extender.Unchanged [(0, 0); (1, 1); (0, 0)]).
Proof.
  apply (X19_closed_trace_never_extended [[(0, 0); (1, 1); (0, 0)]]
           [(0, 0); (1, 1); (0, 0)] (Extender.box 0 0 1 1) 1000).
  - intros l [<-|[]]. discriminate.
  - left. reflexivity.
  - reflexivity.
Defined.

Section ExtensionGeometry.

Import Extender.

Lemma hypot_scale (f x y : R) : 0 <= f -> hypot (f * x) (f * y) = f * hypot x y.
Proof.
  intros Hf. unfold hypot.
  replace (f * x * (f * x) + f * y * (f * y)) with ((f * f) * (x * x + y * y))
    by ring.
  rewrite sqrt_mult by nra. rewrite sqrt_square by assumption. reflexivity.
Qed.

Lemma far_start_distance (a b : Point) (factor : R) :
  0 <= factor ->
  hypot (px (far_start a b factor) - px a) (py (far_start a b factor) - py a)
  = factor * hypot (px b - px a) (py b - py a).
Proof.
  intros Hf. unfold far_start, px, py. cbn [fst snd].
  rewrite <- hypot_scale by assumption. rewrite <- hypot_opp. f_equal; ring.
Qed.

Lemma far_end_distance (a b : Point) (factor : R) :
  0 <= factor ->
  hypot (px (far_end a b factor) - px b) (py (far_end a b factor) - py b)
  = factor * hypot (px b - px a) (py b - py a).
Proof.
  intros Hf. unfold far_end, px, py. cbn [fst snd].
  rewrite <- hypot_scale by assumption. f_equal; ring.
Qed.

Lemma start_between (a b : Point) (factor : R) :
  0 <= factor -> on_segment a (far_start a b factor) b.
Proof.
  intros Hf. exists (factor / (1 + factor)).
  assert (H1 : 0 < 1 + factor) by lra.
  split.
  - split.
    + apply Rmult_le_pos; [assumption|]. left. apply Rinv_0_lt_compat. lra.
    + apply Rmult_le_reg_r with (1 + factor); [assumption|].
      unfold Rdiv. rewrite Rmult_assoc, Rinv_l by lra. lra.
  - unfold far_start, px, py. cbn [fst snd]. split; field; lra.
Qed.

Lemma end_between (a b : Point) (factor : R) :
  0 <= factor -> on_segment b a (far_end a b factor).
Proof.
  intros Hf. exists (1 / (1 + factor)).
  assert (H1 : 0 < 1 + factor) by lra.
  split.
  - split.
    + apply Rmult_le_pos; [lra|]. left. apply Rinv_0_lt_compat. lra.
    + apply Rmult_le_reg_r with (1 + factor); [assumption|].
      unfold Rdiv. rewrite Rmult_assoc, Rinv_l by lra. lra.
  - unfold far_end, px, py. cbn [fst snd]. split; field; lra.
Qed.

End ExtensionGeometry.

(** X20.  A trace that is alone in its group and is not closed has
    multiplicity 1 at both ends and is extended at both ends: the line
    handed to the clip runs start, far point before the start, start, end,
    far point after the end, end. *)
Theorem X20_single_trace_extended_both_ends :
  forall (a : Point) (rest : Extender.Line) (area : Extender.Area) (factor : R),
    last rest a <> a ->
    Extender.count_connections [a :: rest] = Ok [(1, 1)]%nat
    /\ Extender.extend_fault (a :: rest) (1, 1)%nat area factor
       = Ok (Extender.Clipped
               [a; far_start a (last rest a) factor; a;
                last rest a; far_end a (last rest a) factor; last rest a]
               area).
Proof.
  intros a rest area factor Hne. split; [|apply extend_fault_both].
  rewrite count_connections_multiplicity
    by (intros line [<-|[]]; discriminate).
  cbn [map]. unfold connections_of, multiplicity, all_endpoints.
  cbn [flat_map endpoints_of fst snd app].
  rewrite count_occ_cons_eq by reflexivity.
  rewrite count_occ_cons_neq by exact Hne.
  rewrite (count_occ_cons_neq Point_eq_dec) by (intros H; apply Hne; auto).
  rewrite count_occ_cons_eq by reflexivity. reflexivity.
Qed.

Lemma X20_single_trace_extended_both_ends_witness :
  Extender.count_connections [[(0, 0); (1, 0)]] = Ok [(1, 1)]%nat
  /\ Extender.extend_fault [(0, 0); (1, 0)] (1, 1)%nat
       (Extender.box 0 0 1 1) 1000
     = Ok (Extender.Clipped
             [(0, 0); far_start (0, 0) (1, 0) 1000; (0, 0);
              (1, 0); far_end (0, 0) (1, 0) 1000; (1, 0)]
             (Extender.box 0 0 1 1)).
Proof.
  apply (X20_single_trace_extended_both_ends (0, 0) [(1, 0)]
           (Extender.box 0 0 1 1) 1000).
  simpl. intros H. inversion H. lra.
Defined.

(** X21.  For a factor that is not negative, the extension at a dangling
    start prolongs the chord outwards: the far point put before the start
    lies at factor times the chord length from the start, and the start
    lies between the far point and the end; likewise at a dangling end. *)
Theorem X21_extension_prolongs_chord :
  forall (a : Point) (rest : Extender.Line) (k : nat) (area : Extender.Area)
         (factor : R),
    0 <= factor -> k <> 1%nat ->
    (exists far,
       Extender.extend_fault (a :: rest) (1%nat, k) area factor
       = Ok (Extender.Clipped [a; far; a; last rest a] area)
       /\ Extender.on_segment a far (last rest a)
       /\ hypot (px far - px a) (py far - py a)
          = factor * hypot (px (last rest a) - px a) (py (last rest a) - py a))
    /\ (exists far,
       Extender.extend_fault (a :: rest) (k, 1%nat) area factor
       = Ok (Extender.Clipped [a; last rest a; far; last rest a] area)
       /\ Extender.on_segment (last rest a) a far
       /\ hypot (px far - px (last rest a)) (py far - py (last rest a))
          = factor * hypot (px (last rest a) - px a) (py (last rest a) - py a)).
Proof.
  intros a rest k area factor Hf Hk. split.
  - exists (far_start a (last rest a) factor).
    split; [apply extend_fault_start_only; exact Hk|].
    split; [apply start_between; exact Hf | apply far_start_distance; exact Hf].
  - exists (far_end a (last rest a) factor).
    split; [apply extend_fault_end_only; exact Hk|].
    split; [apply end_between; exact Hf | apply far_end_distance; exact Hf].
Qed.

Lemma X21_extension_prolongs_chord_witness :
  exists far,
    Extender.extend_fault [(0, 0); (1, 1); (2, 0)] (1%nat, 2%nat)
      (Extender.box 0 0 2 1) 1000
    = Ok (Extender.Clipped [(0, 0); far; (0, 0); (2, 0)] (Extender.box 0 0 2 1))
    /\ Extender.on_segment (0, 0) far (2, 0)
    /\ hypot (px far - 0) (py far - 0) = 1000 * hypot (2 - 0) (0 - 0).
Proof.
  apply (proj1 (X21_extension_prolongs_chord (0, 0) [(1, 1); (2, 0)] 2
                  (Extender.box 0 0 2 1) 1000 ltac:(lra) ltac:(lia))).
Defined.
(** ** Further properties of the projector *)

Section ProjectorMore.

Import Projector.

Variable math_tan : R -> R.

Lemma project_fault_none_iff (existing : list string) (max_depth : R)
    (fault : DipRow) :
  project_fault math_tan existing max_depth fault = None
  <-> In (fault_id fault) existing
      \/ radians (apparent_d fault) = 0
      \/ Rabs (math_tan (radians (apparent_d fault))) <= / 1000000.
Proof.
  unfold project_fault.
  destruct (existsb (String.eqb (fault_id fault)) existing) eqn:Hex.
  - apply existsb_eqb_in in Hex. tauto.
  - assert (Hnot : ~ In (fault_id fault) existing).
    { intros Hin. apply existsb_eqb_in in Hin. congruence. }
    destruct (Req_b (radians (apparent_d fault)) 0) eqn:Hrad.
    + apply Req_b_true in Hrad. cbn [orb]. tauto.
    + apply Req_b_false in Hrad. cbn [orb].
      destruct (isclose (math_tan (radians (apparent_d fault))) 0 abs_tol_dip)
          eqn:Hc.
      * apply isclose_zero in Hc. tauto.
      * apply isclose_zero_false in Hc. split; [discriminate|].
        intros [H|[H|H]]; [contradiction | contradiction | lra].
Qed.

Lemma projected_segment_run (max_depth : R) (fault : DipRow) :
  math_tan (radians (apparent_d fault)) <> 0 ->
  let x_start := distance fault in
  let x_end := x_start
               + direction_sign (dip_side fault)
                 * Rabs (max_depth / math_tan (radians (apparent_d fault))) in
  Rabs (x_end - x_start) * Rabs (math_tan (radians (apparent_d fault)))
  = Rabs max_depth
  /\ (dip_side fault = "L" -> x_end <= x_start)
  /\ (dip_side fault <> "L" -> x_start <= x_end).
Proof.
  intros Htan x_start x_end. unfold x_end, x_start.
  pose proof (Rabs_pos (max_depth / math_tan (radians (apparent_d fault)))) as
      Hpos.
  split; [|split].
  - replace (distance fault
             + direction_sign (dip_side fault)
               * Rabs (max_depth / math_tan (radians (apparent_d fault)))
             - distance fault)
      with (direction_sign (dip_side fault)
            * Rabs (max_depth / math_tan (radians (apparent_d fault)))) by ring.
    rewrite Rabs_mult, Rabs_Rabsolu.
    assert (Hs : Rabs (direction_sign (dip_side fault)) = 1).
    { unfold direction_sign.
      destruct (String.eqb (dip_side fault) "L"); unfold Rabs;
        destruct (Rcase_abs _); lra. }
    rewrite Hs, Rmult_1_l, <- Rabs_mult. f_equal. field. exact Htan.
  - intros HL. unfold direction_sign. rewrite HL. cbn. lra.
  - intros HL. unfold direction_sign.
    apply String.eqb_neq in HL. rewrite HL. lra.
Qed.

Lemma tan_nonzero_of_far (x : R) : / 1000000 < Rabs x -> x <> 0.
Proof. intros H Hx. subst. rewrite Rabs_R0 in H. lra. Qed.

Lemma collect_new_Uni_NoDup (existing : list string) (max_depth : R)
    (rows : list DipRow) :
  NoDup (map fault_id rows) ->
  NoDup (map Uni (collect_new math_tan existing max_depth rows)).
Proof.
  induction rows as [|r rest IH]; intros Hnd; [constructor|].
  cbn [map] in Hnd. inversion Hnd as [|k l Hk Hl]; subst.
  cbn [collect_new].
  destruct (project_fault math_tan existing max_depth r) as [feature|] eqn:Hp;
    [|apply IH; exact Hl].
  cbn [map]. constructor; [|apply IH; exact Hl].
  intros Hin. apply in_map_iff in Hin. destruct Hin as (f' & HU & Hf').
  destruct (collect_new_from _ _ _ _ _ Hf') as (row & Hrow & Hprow).
  apply project_fault_Uni in Hp. apply project_fault_Uni in Hprow.
  destruct Hp as [HU1 _], Hprow as [HU2 _].
  apply Hk. rewrite <- HU1, <- HU, HU2. apply in_map. exact Hrow.
Qed.

Lemma unique_from_spec (l : list string) : forall seen,
  NoDup (unique_from seen l)
  /\ forall s, In s (unique_from seen l) <-> In s l /\ ~ In s seen.
Proof.
  induction l as [|x l IH]; intros seen.
  - cbn. split; [constructor | intros s; tauto].
  - cbn [unique_from].
    destruct (existsb (String.eqb x) seen) eqn:Hex.
    + apply existsb_eqb_in in Hex. destruct (IH seen) as [Hnd Hmem].
      split; [exact Hnd|]. intros s. rewrite Hmem. cbn [In].
      split; [tauto|]. intros [[->|Hs] Hn]; [contradiction|tauto].
    + assert (Hnot : ~ In x seen).
      { intros Hin. apply existsb_eqb_in in Hin. congruence. }
      destruct (IH (x :: seen)) as [Hnd Hmem]. split.
      * constructor; [|exact Hnd]. intros Hin. apply Hmem in Hin.
        destruct Hin as [_ Hn]. apply Hn. left. reflexivity.
      * intros s. cbn [In]. rewrite Hmem. cbn [In].
        destruct (string_dec x s) as [->|Hne]; tauto.
Qed.

Lemma unique_spec (l : list string) :
  NoDup (unique l) /\ forall s, In s (unique l) <-> In s l.
Proof.
  unfold unique. destruct (unique_from_spec l []) as [Hnd Hmem].
  split; [exact Hnd|]. intros s. rewrite Hmem. cbn [In]. tauto.
Qed.

Lemma files_names (folder : Folder) (h : string -> list Feature -> list Feature)
    (l : list string) :
  map fst (flat_map (fun sid => match folder sid with
                                | None => []
                                | Some g => [(sid, h sid g)]
                                end) l)
  = filter (fun sid => match folder sid with Some _ => true | None => false
      end) l.
Proof.
  induction l as [|s l IH]; [reflexivity|]. cbn [flat_map filter].
  destruct (folder s); cbn [app map fst]; rewrite IH; reflexivity.
Qed.

End ProjectorMore.

(** X22.  A row of the dip file yields no segment exactly when its fault
    identifier is already among the features of the section, or its
    apparent dip is 0, or the tangent the script computes for its apparent
    dip is within 1e-6 of 0; so a horizontal apparent dip is always
    skipped.  An apparent dip of 90, at the pole of the tangent, where the
    script's tangent is a large number, is not skipped for its dip. *)
Theorem X22_projector_skips :
  forall (math_tan : R -> R) (existing : list string) (max_depth : R)
         (fault : Projector.DipRow),
    (Projector.project_fault math_tan existing max_depth fault = None
     <-> In (Projector.fault_id fault) existing
         \/ radians (Projector.apparent_d fault) = 0
         \/ Rabs (math_tan (radians (Projector.apparent_d fault)))
            <= / 1000000)
    /\ (Projector.apparent_d fault = 0 ->
        Projector.project_fault math_tan existing max_depth fault = None)
    /\ (Projector.steep_at_poles math_tan ->
        cos (radians (Projector.apparent_d fault)) = 0 ->
        ~ In (Projector.fault_id fault) existing ->
        Projector.project_fault math_tan existing max_depth fault <> None).
Proof.
  intros math_tan existing max_depth fault.
  split; [apply project_fault_none_iff|]. split.
  - intros H0. apply project_fault_none_iff. right. left.
    rewrite H0. apply radians_0.
  - intros Hsteep Hcos Hnew Hnone.
    apply project_fault_none_iff in Hnone.
    destruct Hnone as [Hin|[Hrad|Htan]].
    + contradiction.
    + rewrite Hrad, cos_0 in Hcos. lra.
    + pose proof (Hsteep _ Hcos). lra.
Qed.

Lemma X22_projector_skips_witness :
  Projector.project_fault float_tan [] (-2000)
    {| Projector.section_id := "A"; Projector.fault_id := "F1";
       Projector.distance := 500; Projector.elevation := 100;
       Projector.apparent_d := 0; Projector.dip_side := "R" |} = None
  /\ Projector.project_fault float_tan [] (-2000) vertical_row <> None.
Proof.
  split.
  - apply (proj1 (proj2 (X22_projector_skips float_tan [] (-2000)
                    {| Projector.section_id := "A"; Projector.fault_id := "F1";
                       Projector.distance := 500; Projector.elevation := 100;
                       Projector.apparent_d := 0;
                       Projector.dip_side := "R" |}))).
    reflexivity.
  - apply (proj2 (proj2 (X22_projector_skips float_tan [] (-2000)
                           vertical_row))).
    + exact float_tan_steep.
    + simpl. rewrite radians_90. apply cos_PI2.
    + simpl. intros [].
Defined.

(** X23.  Every feature added to a section comes from a row of the dip file
    whose fault identifier was not in the section: it is tagged with that
    identifier and is a two-vertex line from (distance, elevation) to a
    point at depth max_depth, on the left of the start when the dip side is
    L and on the right otherwise; its horizontal run times the tangent of
    the apparent dip, as the script computes it, is |max_depth| in absolute
    value, whatever the elevation of the start.  This includes the
    near-vertical segment added for an apparent dip of 90. *)
Theorem X23_added_features :
  forall (math_tan : R -> R) (section_gdf : list Projector.Feature)
         (section_faults : list Projector.DipRow) (max_depth : R)
         (feature : Projector.Feature),
    In feature (Projector.new_faults math_tan section_gdf section_faults
                  max_depth) ->
    exists row x_end,
      In row section_faults
      /\ Projector.Uni feature = Projector.fault_id row
      /\ ~ In (Projector.fault_id row) (map Projector.Uni section_gdf)
      /\ Projector.geometry feature
         = [(Projector.distance row, Projector.elevation row);
            (x_end, max_depth)]
      /\ Rabs (x_end - Projector.distance row)
         * Rabs (math_tan (radians (Projector.apparent_d row)))
         = Rabs max_depth
      /\ (Projector.dip_side row = "L" -> x_end <= Projector.distance row)
      /\ (Projector.dip_side row <> "L" -> Projector.distance row <= x_end).
Proof.
  intros math_tan section_gdf section_faults max_depth feature Hin.
  unfold Projector.new_faults in Hin.
  destruct (collect_new_from _ _ _ _ _ Hin) as (row & Hrow & Hp).
  assert (Hnone : Projector.project_fault math_tan (map Projector.Uni
      section_gdf)
                    max_depth row <> None) by congruence.
  rewrite project_fault_none_iff in Hnone.
  assert (Hnew : ~ In (Projector.fault_id row) (map Projector.Uni section_gdf))
    by tauto.
  assert (Hrad : radians (Projector.apparent_d row) <> 0) by tauto.
  assert (Htan : / 1000000
                 < Rabs (math_tan (radians (Projector.apparent_d row)))).
  { destruct (Rle_dec (Rabs (math_tan (radians (Projector.apparent_d row))))
                (/ 1000000)); [tauto | lra]. }
  rewrite project_fault_emits in Hp; try assumption.
  - inversion Hp; subst feature. clear Hp. cbn.
    exists row. eexists. split; [exact Hrow|]. split; [reflexivity|].
    split; [exact Hnew|]. split; [reflexivity|].
    apply projected_segment_run. apply tan_nonzero_of_far. exact Htan.
  - destruct (existsb (String.eqb (Projector.fault_id row))
                (map Projector.Uni section_gdf)) eqn:E; [|reflexivity].
    apply existsb_eqb_in in E. contradiction.
Qed.

Lemma X23_added_features_witness :
  exists row x_end,
    In row [vertical_row]
    /\ Projector.Uni
         {| Projector.geometry :=
              projected_segment float_tan (-2000) vertical_row;
            Projector.Uni := "F2" |} = Projector.fault_id row
    /\ ~ In (Projector.fault_id row) (map Projector.Uni section_file)
    /\ Projector.geometry
         {| Projector.geometry :=
              projected_segment float_tan (-2000) vertical_row;
            Projector.Uni := "F2" |}
       = [(Projector.distance row, Projector.elevation row); (x_end, -2000)]
    /\ Rabs (x_end - Projector.distance row)
       * Rabs (float_tan (radians (Projector.apparent_d row)))
       = Rabs (-2000)
    /\ (Projector.dip_side row = "L" -> x_end <= Projector.distance row)
    /\ (Projector.dip_side row <> "L" -> Projector.distance row <= x_end).
Proof.
  apply (X23_added_features float_tan section_file [vertical_row] (-2000)).
  unfold Projector.new_faults. cbn [Projector.collect_new].
  rewrite project_fault_emits;
    [left; reflexivity | reflexivity
     | apply radians_nonzero; simpl; lra
     | exact float_tan_90_far_from_zero].
Defined.

Section ProjectorFiles.

Import Projector.

Variable math_tan : R -> R.

Lemma add_faults_to_sections_in (folder : Folder) (dip_gdf : list DipRow)
    (max_depth : R) (sid : string) (feats : list Feature) :
  In (sid, feats) (add_faults_to_sections math_tan folder dip_gdf max_depth) ->
  In sid (map section_id dip_gdf)
  /\ exists gdf,
       folder sid = Some gdf
       /\ feats = gdf ++ new_faults math_tan gdf (rows_of_section sid dip_gdf)
           max_depth.
Proof.
  unfold add_faults_to_sections. intros Hin.
  apply in_flat_map in Hin. destruct Hin as (s & Hs & Hin).
  apply (proj1 (proj2 (unique_spec _) _)) in Hs.
  destruct (folder s) as [gdf|] eqn:Hf; [|contradiction].
  destruct Hin as [Heq|[]]. inversion Heq; subst. split; [exact Hs|].
  exists gdf. split; [exact Hf|]. apply add_faults_to_section_app.
Qed.

Lemma section_rows_fault_ids (sid : string) (info : list Engine.Intersection) :
  NoDup (map ids info) ->
  NoDup (map fault_id (rows_of_section sid (map dip_file_row info))).
Proof.
  induction info as [|r rest IH]; intros Hnd; [constructor|].
  cbn [map] in Hnd. inversion Hnd as [|k l Hk Hl]; subst.
  unfold rows_of_section. cbn [map filter].
  cbn [dip_file_row section_id].
  destruct (String.eqb (Engine.section_id r) sid) eqn:E; [|apply IH; exact Hl].
  cbn [map]. constructor; [|apply IH; exact Hl].
  intros Hin. apply in_map_iff in Hin. destruct Hin as (row & Hfid & Hrow).
  apply filter_In in Hrow. destruct Hrow as [Hrow Hsec].
  apply in_map_iff in Hrow. destruct Hrow as (r' & <- & Hr').
  cbn in Hfid, Hsec. apply String.eqb_eq in E, Hsec.
  apply Hk. apply in_map_iff. exists r'. split; [|exact Hr'].
  unfold ids. congruence.
Qed.

End ProjectorFiles.

(** X24.  The projector writes one file per section identifier of the dip
    file whose section file exists, and none for a section whose file is
    missing; each file written holds the features of the section file, in
    order, followed by the features added for that section. *)
Theorem X24_files_written :
  forall (math_tan : R -> R) (folder : Projector.Folder)
         (dip_gdf : list Projector.DipRow) (max_depth : R),
    NoDup (map fst (Projector.add_faults_to_sections math_tan folder dip_gdf
                      max_depth))
    /\ (forall sid,
          In sid (map fst (Projector.add_faults_to_sections math_tan folder
                             dip_gdf max_depth))
          <-> In sid (map Projector.section_id dip_gdf) /\ folder sid <> None)
    /\ (forall sid feats,
          In (sid, feats)
             (Projector.add_faults_to_sections math_tan folder dip_gdf
                max_depth) ->
          exists gdf,
            folder sid = Some gdf
            /\ feats = gdf ++ Projector.new_faults math_tan gdf
                                (rows_of_section sid dip_gdf) max_depth).
Proof.
  intros math_tan folder dip_gdf max_depth.
  assert (Hnames :
            map fst (Projector.add_faults_to_sections math_tan folder dip_gdf
                       max_depth)
            = filter (fun sid => match folder sid with
                                 | Some _ => true
                                 | None => false
                                 end)
                (Projector.unique (map Projector.section_id dip_gdf))).
  { unfold Projector.add_faults_to_sections.
    apply (files_names folder
             (fun sid g =>
                Projector.add_faults_to_section math_tan g
                  (filter (fun row => String.eqb (Projector.section_id row) sid)
                          dip_gdf) max_depth)). }
  split; [|split].
  - rewrite Hnames. apply NoDup_filter. apply unique_spec.
  - intros sid. rewrite Hnames, filter_In.
    rewrite (proj2 (unique_spec (map Projector.section_id dip_gdf)) sid).
    destruct (folder sid); split; intros [H1 H2]; split;
      try assumption; try reflexivity; try discriminate; congruence.
  - intros sid feats Hin. apply add_faults_to_sections_in in Hin.
    tauto.
Qed.

Lemma X24_files_written_witness :
  exists gdf,
    one_section_folder "A" = Some gdf
    /\ section_file
       ++ Projector.new_faults float_tan section_file [dip_row "R"] (-2000)
       = gdf ++ Projector.new_faults float_tan gdf
                  (rows_of_section "A" [dip_row "R"]) (-2000).
Proof.
  apply (proj2 (proj2 (X24_files_written float_tan one_section_folder
                         [dip_row "R"] (-2000))) "A").
  unfold Projector.add_faults_to_sections. cbn [map Projector.unique
    Projector.unique_from existsb flat_map]. cbn [dip_row Projector.section_id].
  unfold one_section_folder. rewrite String.eqb_refl. cbn [app filter].
  cbn [dip_row Projector.section_id]. rewrite String.eqb_refl.
  left. rewrite add_faults_to_section_app. reflexivity.
Defined.

(** X25.  Fed with the table saved by the engine, the projector adds at most
    one segment per fault to a section: in every file it writes, the
    features added after those of the section file carry pairwise different
    fault identifiers, none of which was in the section file. *)
Theorem X25_engine_table_gives_distinct_segments :
  forall (math_tan : R -> R) (info : list Engine.Intersection)
         (folder : Projector.Folder) (max_depth : R) (sid : string)
         (feats : list Projector.Feature),
    In (sid, feats)
       (Projector.add_faults_to_sections math_tan folder
          (map dip_file_row (Engine.save_results info)) max_depth) ->
    exists gdf added,
      folder sid = Some gdf
      /\ feats = gdf ++ added
      /\ NoDup (map Projector.Uni added)
      /\ forall feature, In feature added ->
           ~ In (Projector.Uni feature) (map Projector.Uni gdf).
Proof.
  intros math_tan info folder max_depth sid feats Hin.
  apply add_faults_to_sections_in in Hin. destruct Hin as (_ & gdf & Hf & ->).
  exists gdf. eexists. split; [exact Hf|]. split; [reflexivity|]. split.
  - unfold Projector.new_faults. apply collect_new_Uni_NoDup.
    apply section_rows_fault_ids.
    unfold Engine.save_results, Engine.drop_duplicates.
    apply (proj1 (drop_duplicates_from_ids info [])).
  - intros feature. apply new_faults_fresh.
Qed.

Lemma X25_engine_table_gives_distinct_segments_witness :
  exists gdf added,
    one_section_folder "A" = Some gdf
    /\ section_file
       ++ Projector.new_faults float_tan section_file
            (rows_of_section "A"
               (map dip_file_row
                  (Engine.save_results [record_A_F1; record_A_F1]))) (-2000)
       = gdf ++ added
    /\ NoDup (map Projector.Uni added)
    /\ forall feature, In feature added ->
         ~ In (Projector.Uni feature) (map Projector.Uni gdf).
Proof.
  apply (X25_engine_table_gives_distinct_segments float_tan
           [record_A_F1; record_A_F1] one_section_folder (-2000) "A").
  unfold Engine.save_results, Engine.drop_duplicates.
  cbn [Engine.drop_duplicates_from existsb record_A_F1 Engine.section_id
       Engine.fault_id fst snd].
  rewrite !String.eqb_refl. cbn [andb orb map].
  unfold Projector.add_faults_to_sections.
  cbn [map dip_file_row Engine.section_id record_A_F1 Projector.section_id
       Projector.unique Projector.unique_from existsb flat_map].
  unfold one_section_folder. rewrite String.eqb_refl. cbn [app].
  left. rewrite add_faults_to_section_app. reflexivity.
Defined.
(** ** Properties of the merged and segmented sections *)

Section MergeFacts.

Import Merge.

Lemma consecutive_length (coords : list Point) :
  List.length (consecutive coords) = (List.length coords - 1)%nat.
Proof.
  induction coords as [|a [|b rest] IH]; try reflexivity.
  change (consecutive (a :: b :: rest)) with ((a, b) :: consecutive (b :: rest)).
  cbn [List.length] in *. rewrite IH. lia.
Qed.

Lemma consecutive_cover (coords : list Point) (p : Point) :
  Extender.on_line p coords
  <-> exists ab, In ab (consecutive coords)
                 /\ Extender.on_segment p (fst ab) (snd ab).
Proof.
  induction coords as [|a [|b rest] IH].
  - cbn. split; [tauto | intros (ab & [] & _)].
  - cbn. split; [tauto | intros (ab & [] & _)].
  - change (consecutive (a :: b :: rest))
      with ((a, b) :: consecutive (b :: rest)).
    change (Extender.on_line p (a :: b :: rest))
      with (Extender.on_segment p a b \/ Extender.on_line p (b :: rest)).
    rewrite IH. split.
    + intros [H|(ab & Hin & Hs)].
      * exists (a, b). split; [left; reflexivity | exact H].
      * exists ab. split; [right; exact Hin | exact Hs].
    + intros (ab & [<-|Hin] & Hs); [left; exact Hs|].
      right. exists ab. split; assumption.
Qed.

Lemma segment_row_length (row : Row) :
  List.length (segment_row row) = segment_count row.
Proof.
  unfold segment_row, segment_count.
  destruct (geometry row); try reflexivity.
  rewrite length_map. apply consecutive_length.
Qed.

Lemma convert_not_multi (g g' : Engine.Geometry) :
  convert_multilinestring g = Ok g' ->
  forall parts, g' <> Engine.GMultiLineString parts.
Proof.
  destruct g as [p|pts|l|parts0|]; cbn; intros H parts;
    try (inversion H; subst; discriminate).
  destruct parts0 as [|l rest]; cbn in H; [discriminate|].
  inversion H; subst. discriminate.
Qed.

End MergeFacts.

(** X26.  [segment_lines] turns every line of n vertices into its n - 1
    segments between consecutive vertices, each with the attributes of the
    line, and drops the rows whose geometry is not a single line; the
    segments of a line cover exactly the points of the line. *)
Theorem X26_segment_lines :
  forall gdf : list Merge.Row,
    List.length (Merge.segment_lines gdf)
    = list_sum (map Merge.segment_count gdf)
    /\ (forall seg, In seg (Merge.segment_lines gdf) ->
          exists row coords a b,
            In row gdf
            /\ Merge.geometry row = Engine.GLineString coords
            /\ In (a, b) (Merge.consecutive coords)
            /\ seg = {| Merge.name := Merge.name row;
                        Merge.formation := Merge.formation row;
                        Merge.geometry := Engine.GLineString [a; b] |})
    /\ (forall row coords p,
          In row gdf -> Merge.geometry row = Engine.GLineString coords ->
          (Extender.on_line p coords
           <-> exists a b,
                 In {| Merge.name := Merge.name row;
                       Merge.formation := Merge.formation row;
                       Merge.geometry := Engine.GLineString [a; b] |}
                    (Merge.segment_lines gdf)
                 /\ In (a, b) (Merge.consecutive coords)
                 /\ Extender.on_segment p a b)).
Proof.
  intros gdf. split; [|split].
  - unfold Merge.segment_lines. induction gdf as [|row gdf IH]; [reflexivity|].
    cbn [flat_map map]. rewrite length_app, list_sum_cons, IH.
    rewrite segment_row_length. reflexivity.
  - intros seg Hin. unfold Merge.segment_lines in Hin.
    apply in_flat_map in Hin. destruct Hin as (row & Hrow & Hseg).
    unfold Merge.segment_row in Hseg.
    destruct (Merge.geometry row) as [| |coords| |] eqn:Hg; try contradiction.
    apply in_map_iff in Hseg. destruct Hseg as ([a b] & <- & Hab).
    exists row, coords, a, b. auto.
  - intros row coords p Hrow Hg. rewrite consecutive_cover. split.
    + intros ([a b] & Hab & Hs). exists a, b. split; [|split; assumption].
      unfold Merge.segment_lines. apply in_flat_map. exists row.
      split; [exact Hrow|]. unfold Merge.segment_row. rewrite Hg.
      apply in_map_iff. exists (a, b). split; [reflexivity | exact Hab].
    + intros (a & b & _ & Hab & Hs). exists (a, b). split; assumption.
Qed.

Lemma X26_segment_lines_witness :
  exists row coords a b,
    In row [{| Merge.name := "A"; Merge.formation := "Basalt";
               Merge.geometry := Engine.GLineString [(0, 0); (1, 0); (2, 1)] |}]
    /\ Merge.geometry row = Engine.GLineString coords
    /\ In (a, b) (Merge.consecutive coords)
    /\ {| Merge.name := "A"; Merge.formation := "Basalt";
          Merge.geometry := Engine.GLineString [(1, 0); (2, 1)] |}
       = {| Merge.name := Merge.name row;
            Merge.formation := Merge.formation row;
            Merge.geometry := Engine.GLineString [a; b] |}.
Proof.
  apply (proj1 (proj2 (X26_segment_lines
           [{| Merge.name := "A"; Merge.formation := "Basalt";
               Merge.geometry :=
                 Engine.GLineString [(0, 0); (1, 0); (2, 1)] |}]))).
  cbn. right. left. reflexivity.
Defined.

(** X27.  [merge_shapefiles] refuses a directory without shapefiles; when it
    returns, no row of the merged table is a multi-part line, so the rows
    that [segment_lines] drops afterwards are never multi-part lines; a
    multi-part line without parts makes it raise [IndexError]. *)
Theorem X27_merge_shapefiles :
  Merge.merge_shapefiles [] = Raise (ValueError "No objects to concatenate")
  /\ (forall shapes rows,
        Merge.merge_shapefiles shapes = Ok rows ->
        forall row, In row rows ->
          forall parts, Merge.geometry row <> Engine.GMultiLineString parts)
  /\ (forall shapes shape row,
        In shape shapes -> In row (snd shape) ->
        Merge.shp_geometry row = Some (Engine.GMultiLineString []) ->
        Merge.merge_shapefiles shapes = Raise IndexError).
Proof.
  split; [reflexivity|]. split.
  - intros shapes rows H row Hin parts.
    destruct shapes as [|shape shapes]; [discriminate|].
    unfold Merge.merge_shapefiles in H.
    destruct (mapM_ok_in_rev _ _ _ _ H Hin) as (r & _ & Hr).
    destruct (Merge.convert_multilinestring (snd r)) as [g|] eqn:Hc;
      cbn [bind] in Hr; [|discriminate].
    inversion Hr; subst. cbn. eapply convert_not_multi. exact Hc.
  - intros shapes shape row Hshape Hrow Hg.
    destruct shapes as [|s0 shapes0]; [contradiction|].
    unfold Merge.merge_shapefiles. cbv beta iota zeta.
    match goal with
    | |- mapM ?f ?l = _ =>
        assert (Hin : In (fst shape, Merge.shp_Uni row,
                          Engine.GMultiLineString []) l)
    end.
    { apply in_flat_map. exists (fst shape, row). split.
      - apply in_flat_map. exists shape. split; [exact Hshape|].
        apply in_map. exact Hrow.
      - cbn [snd fst]. rewrite Hg. left. reflexivity. }
    match goal with
    | |- mapM ?f ?l = _ =>
        destruct (mapM_raise_in f l _ IndexError Hin eq_refl) as [e He];
        rewrite He; f_equal;
        apply mapM_raise_inv in He; destruct He as (r & _ & Hr)
    end.
    cbn beta in Hr.
    destruct (Merge.convert_multilinestring (snd r)) as [g|e'] eqn:Hc;
      cbn [bind] in Hr; [discriminate|].
    inversion Hr; subst.
    destruct (snd r) as [| | |[|l rest]|]; cbn in Hc; try discriminate.
    inversion Hc. reflexivity.
Qed.

Lemma X27_merge_shapefiles_witness :
  Merge.geometry {| Merge.name := "A"; Merge.formation := "Basalt";
                    Merge.geometry := Engine.GLineString [(0, 0); (1, 0)] |}
  <> Engine.GMultiLineString [].
Proof.
  refine (proj1 (proj2 X27_merge_shapefiles)
           [("A", [{| Merge.shp_Uni := "Basalt";
                      Merge.shp_geometry :=
                        Some (Engine.GMultiLineString
                                [[(0, 0); (1, 0)]; [(2, 0); (3, 0)]]) |};
                   {| Merge.shp_Uni := "Tuff"; Merge.shp_geometry := None |}])]
           [{| Merge.name := "A"; Merge.formation := "Basalt";
               Merge.geometry := Engine.GLineString [(0, 0); (1, 0)] |}]
           _ _ _ []).
  - reflexivity.
  - left. reflexivity.
Defined.
(** ** Properties of the fault points and of their orientations *)

Section FaultPointFacts.

Import Interfaces.

Lemma same_key_true (p q : XYZ) : same_key p q = true <-> xyz_key p = xyz_key q.
Proof.
  unfold same_key, xyz_key. rewrite andb_true_iff, !String.eqb_eq. split.
  - intros [-> ->]. reflexivity.
  - intros H. inversion H. auto.
Qed.

Lemma seen_key (r : XYZ) (seen : list XYZ) :
  existsb (same_key r) seen = true <-> In (xyz_key r) (map xyz_key seen).
Proof.
  rewrite existsb_exists, in_map_iff. split.
  - intros (s & Hin & Hk). apply same_key_true in Hk. exists s. auto.
  - intros (s & Hk & Hin). exists s. split; [exact Hin|].
    apply same_key_true. auto.
Qed.

Lemma drop_duplicates_from_incl_xyz (rows : list XYZ) : forall seen,
  incl (drop_duplicates_from seen rows) rows.
Proof.
  induction rows as [|r rest IH]; intros seen; cbn [drop_duplicates_from].
  - apply incl_refl.
  - destruct (existsb (same_key r) seen).
    + apply incl_tl, IH.
    + apply incl_cons; [left; reflexivity | apply incl_tl, IH].
Qed.

Lemma drop_duplicates_from_keys (rows : list XYZ) : forall seen,
  NoDup (map xyz_key (drop_duplicates_from seen rows))
  /\ forall q, In q (drop_duplicates_from seen rows) ->
               ~ In (xyz_key q) (map xyz_key seen).
Proof.
  induction rows as [|r rest IH]; intros seen; cbn [drop_duplicates_from].
  - split; [constructor | intros q []].
  - destruct (existsb (same_key r) seen) eqn:Hex; [apply IH|].
    assert (Hnot : ~ In (xyz_key r) (map xyz_key seen)).
    { intros Hin. apply seen_key in Hin. congruence. }
    destruct (IH (r :: seen)) as [Hnd Hfresh]. split.
    + cbn [map]. constructor; [|exact Hnd].
      intros Hin. apply in_map_iff in Hin. destruct Hin as (q & Hk & Hq).
      apply (Hfresh q Hq). cbn [map]. left. auto.
    + intros q [<-|Hq]; [exact Hnot|].
      intros Hin. apply (Hfresh q Hq). cbn [map]. right. exact Hin.
Qed.

Lemma drop_duplicates_from_highest (rows : list XYZ) : forall seen,
  StronglySorted (fun p q => Z q <= Z p) rows ->
  forall p, In p rows -> ~ In (xyz_key p) (map xyz_key seen) ->
    exists q, In q (drop_duplicates_from seen rows)
              /\ xyz_key q = xyz_key p /\ Z p <= Z q.
Proof.
  induction rows as [|x rest IH]; intros seen Hs p Hin Hfresh; [contradiction|].
  apply StronglySorted_inv in Hs. destruct Hs as [Hs Hall].
  cbn [drop_duplicates_from].
  destruct (existsb (same_key x) seen) eqn:Hex.
  - apply seen_key in Hex. destruct Hin as [->|Hin]; [contradiction|].
    apply IH; assumption.
  - destruct Hin as [->|Hin].
    + exists p. split; [left; reflexivity|]. split; [reflexivity|lra].
    + destruct (same_key p x) eqn:Hk.
      * apply same_key_true in Hk. exists x.
        split; [left; reflexivity|]. split; [auto|].
        rewrite Forall_forall in Hall. apply Hall. exact Hin.
      * destruct (IH (x :: seen) Hs p Hin) as (q & Hq & Hkq & Hz).
        { cbn [map]. intros [Heq|Hin']; [|contradiction].
          assert (same_key p x = true) by (apply same_key_true; auto).
          congruence. }
        exists q. split; [right; exact Hq|]. auto.
Qed.

Lemma NoDup_map_eq {A B : Type} (f : A -> B) (l : list A) (a b : A) :
  NoDup (map f l) -> In a l -> In b l -> f a = f b -> a = b.
Proof.
  induction l as [|x l IH]; intros Hnd Ha Hb Hf; [contradiction|].
  cbn [map] in Hnd. inversion Hnd as [|k m Hk Hm]; subst.
  destruct Ha as [->|Ha], Hb as [->|Hb].
  - reflexivity.
  - exfalso. apply Hk. rewrite Hf. apply in_map. exact Hb.
  - exfalso. apply Hk. rewrite <- Hf. apply in_map. exact Ha.
  - apply IH; assumption.
Qed.

Lemma NoDup_map_filter {A B : Type} (f : A -> B) (g : A -> bool) (l : list A) :
  NoDup (map f l) -> NoDup (map f (filter g l)).
Proof.
  induction l as [|x l IH]; intros Hnd; [constructor|].
  cbn [map] in Hnd. inversion Hnd as [|k m Hk Hm]; subst.
  cbn [filter]. destruct (g x); [|apply IH; exact Hm].
  cbn [map]. constructor; [|apply IH; exact Hm].
  intros Hin. apply Hk. apply in_map_iff in Hin.
  destruct Hin as (y & Hy & Hin). apply filter_In in Hin.
  rewrite <- Hy. apply in_map. tauto.
Qed.

Lemma insert_desc_perm (p : XYZ) (l : list XYZ) :
  Permutation (p :: l) (insert_desc p l).
Proof.
  induction l as [|q rest IH]; cbn [insert_desc]; [apply Permutation_refl|].
  destruct (Rle_b (Z q) (Z p)); [apply Permutation_refl|].
  eapply Permutation_trans; [apply perm_swap|]. apply perm_skip. exact IH.
Qed.

Lemma sort_desc_perm (l : list XYZ) : Permutation l (sort_desc l).
Proof.
  induction l as [|p rest IH]; cbn [sort_desc]; [apply Permutation_refl|].
  eapply Permutation_trans; [|apply insert_desc_perm].
  apply perm_skip. exact IH.
Qed.

Lemma insert_desc_sorted (p : XYZ) (l : list XYZ) :
  StronglySorted (fun a b => Z b <= Z a) l ->
  StronglySorted (fun a b => Z b <= Z a) (insert_desc p l).
Proof.
  induction l as [|q rest IH]; intros Hs; cbn [insert_desc].
  - constructor; [constructor | constructor].
  - pose proof Hs as Hs0.
    apply StronglySorted_inv in Hs. destruct Hs as [Hs Hall].
    destruct (Rle_b (Z q) (Z p)) eqn:E.
    + apply Rle_b_true in E. constructor; [exact Hs0|].
      constructor; [exact E|].
      rewrite Forall_forall in Hall |- *. intros y Hy.
      specialize (Hall y Hy). cbn beta in Hall. lra.
    + apply Rle_b_false in E. constructor; [apply IH; exact Hs|].
      rewrite Forall_forall in Hall |- *. intros y Hy.
      apply (Permutation_in _ (Permutation_sym (insert_desc_perm p rest))) in Hy.
      destruct Hy as [<-|Hy]; [cbn beta; lra | apply Hall; exact Hy].
Qed.

Lemma sort_desc_sorted (l : list XYZ) :
  StronglySorted (fun a b => Z b <= Z a) (sort_desc l).
Proof.
  induction l as [|p rest IH]; cbn [sort_desc]; [constructor|].
  apply insert_desc_sorted. exact IH.
Qed.

End FaultPointFacts.

Section FaultPointsKept.

Import Interfaces.

Variable sort_values : list XYZ -> list XYZ.
Variable inside : XYZ -> bool.

Hypothesis sort_values_perm : forall l, Permutation l (sort_values l).
Hypothesis sort_values_sorted :
  forall l, StronglySorted (fun p q => Z q <= Z p) (sort_values l).

Lemma fault_points_highest :
  forall (fault_id_list : list string) (xyz_points : list XYZ),
    let kept := fault_points sort_values inside fault_id_list xyz_points in
    NoDup (map xyz_key kept)
    /\ forall q, In q kept ->
         In q xyz_points
         /\ isin (formation q) fault_id_list = true
         /\ inside q = true
         /\ forall p, In p xyz_points -> xyz_key p = xyz_key q -> Z p <= Z q.
Proof.
  intros fault_id_list xyz_points kept. unfold kept, fault_points.
  set (F := filter (fun p => isin (formation p) fault_id_list) xyz_points).
  unfold drop_duplicates.
  destruct (drop_duplicates_from_keys (sort_values F) []) as [Hnd _].
  split; [apply NoDup_map_filter; exact Hnd|].
  intros q Hq. apply filter_In in Hq. destruct Hq as [Hq Hins].
  assert (HqF : In q F).
  { apply (Permutation_in _ (Permutation_sym (sort_values_perm F))).
    eapply drop_duplicates_from_incl_xyz. exact Hq. }
  unfold F in HqF. apply filter_In in HqF. destruct HqF as [Hqin Hqf].
  split; [exact Hqin|]. split; [exact Hqf|]. split; [exact Hins|].
  intros p Hp Hk.
  assert (HpF : In p (sort_values F)).
  { apply (Permutation_in _ (sort_values_perm F)). unfold F.
    apply filter_In. split; [exact Hp|].
    unfold xyz_key in Hk. inversion Hk as [[Hform Hname]].
    rewrite Hform. exact Hqf. }
  destruct (drop_duplicates_from_highest (sort_values F) []
              (sort_values_sorted F) p HpF) as (q' & Hq' & Hk' & Hz).
  { intros []. }
  assert (q' = q).
  { eapply (NoDup_map_eq xyz_key); [exact Hnd | exact Hq' | exact Hq|].
    congruence. }
  subst q'. exact Hz.
Qed.

(** X28.  Whatever order the sort gives to points of equal height, the fault
    points kept are points of the input whose formation is a fault, at most
    one per (formation, name) pair, and each of them is a highest point of
    its pair; since the clip comes last, a pair whose single highest point
    lies outside the polygon keeps no point at all. *)
Theorem X28_highest_fault_point_kept :
  forall (fault_id_list : list string) (xyz_points : list XYZ),
    let kept := fault_points sort_values inside fault_id_list xyz_points in
    NoDup (map xyz_key kept)
    /\ (forall q, In q kept ->
          In q xyz_points
          /\ isin (formation q) fault_id_list = true
          /\ inside q = true
          /\ forall p, In p xyz_points -> xyz_key p = xyz_key q -> Z p <= Z q)
    /\ (forall h, In h xyz_points -> inside h = false ->
          (forall p, In p xyz_points -> xyz_key p = xyz_key h ->
                     Z p < Z h \/ p = h) ->
          forall q, In q kept -> xyz_key q <> xyz_key h).
Proof.
  intros fault_id_list xyz_points kept.
  destruct (fault_points_highest fault_id_list xyz_points) as [Hnd Hkept].
  fold kept in Hnd, Hkept. split; [exact Hnd|]. split; [exact Hkept|].
  intros h Hh Hout Hstrict q Hq Hk.
  destruct (Hkept q Hq) as (Hqin & _ & Hins & Hmax).
  pose proof (Hmax h Hh (eq_sym Hk)) as Hle.
  destruct (Hstrict q Hqin Hk) as [Hlt| ->]; [lra | congruence].
Qed.

End FaultPointsKept.

Lemma X28_highest_fault_point_kept_witness :
  NoDup (map xyz_key
           (Interfaces.fault_points Interfaces.sort_desc (fun _ => true)
              ["F1"] [fault_point 10; fault_point 30; fault_point 20])).
Proof.
  exact (proj1 (X28_highest_fault_point_kept Interfaces.sort_desc
                  (fun _ => true) sort_desc_perm sort_desc_sorted ["F1"]
                  [fault_point 10; fault_point 30; fault_point 20])).
Defined.

Section OrientationFacts.

Import Orientations.

Lemma matches_ids (p : Interfaces.XYZ) (r : Engine.Intersection) :
  matches p (dip_reduced r) = true
  <-> ids r = (Interfaces.name p, Interfaces.formation p).
Proof.
  unfold matches, dip_reduced, ids. cbn [formation name].
  rewrite andb_true_iff, !String.eqb_eq. split.
  - intros [-> ->]. reflexivity.
  - intros H. inversion H. auto.
Qed.

Lemma filter_matches_short (p : Interfaces.XYZ) (info : list Engine.Intersection) :
  NoDup (map ids info) ->
  (List.length (filter (matches p) (map dip_reduced info)) <= 1)%nat.
Proof.
  induction info as [|r rest IH]; intros Hnd; [cbn; lia|].
  cbn [map] in Hnd. inversion Hnd as [|k l Hk Hl]; subst.
  cbn [map filter].
  destruct (matches p (dip_reduced r)) eqn:Hm; [|apply IH; exact Hl].
  apply matches_ids in Hm.
  replace (filter (matches p) (map dip_reduced rest)) with (@nil DipReduced);
    [cbn; lia|].
  symmetry.
  destruct (filter (matches p) (map dip_reduced rest)) as [|d ds] eqn:Hf;
    [reflexivity|]. exfalso.
  assert (Hd : In d (filter (matches p) (map dip_reduced rest)))
    by (rewrite Hf; left; reflexivity).
  apply filter_In in Hd. destruct Hd as [Hd Hmd].
  apply in_map_iff in Hd. destruct Hd as (r' & <- & Hr').
  apply matches_ids in Hmd. apply Hk. rewrite Hm, <- Hmd.
  apply in_map. exact Hr'.
Qed.

Lemma merge_left_unique_right (left : list Interfaces.XYZ)
    (right : list DipReduced) :
  (forall p, (List.length (filter (matches p) right) <= 1)%nat) ->
  map fst (merge_left left right) = left.
Proof.
  intros H. unfold merge_left.
  induction left as [|p left IH]; [reflexivity|].
  cbn [flat_map]. rewrite map_app, IH. specialize (H p).
  destruct (filter (matches p) right) as [|d [|d' ds]];
    [reflexivity | reflexivity | cbn in H; lia].
Qed.

Lemma merge_left_in (left : list Interfaces.XYZ) (right : list DipReduced)
    (p : Interfaces.XYZ) (od : option DipReduced) :
  In (p, od) (merge_left left right) ->
  In p left
  /\ match od with
     | Some d => In d right /\ matches p d = true
     | None => forall d, In d right -> matches p d = false
     end.
Proof.
  unfold merge_left. intros Hin. apply in_flat_map in Hin.
  destruct Hin as (p' & Hp' & Hin).
  destruct (filter (matches p') right) as [|d ds] eqn:Hf.
  - destruct Hin as [Heq|[]]. inversion Heq; subst. split; [exact Hp'|].
    intros d Hd. destruct (matches p d) eqn:Hm; [|reflexivity].
    assert (In d (filter (matches p) right)) by (apply filter_In; auto).
    rewrite Hf in H. contradiction.
  - apply in_map_iff in Hin. destruct Hin as (d' & Heq & Hd').
    inversion Heq; subst. split; [exact Hp'|].
    rewrite <- Hf in Hd'. apply filter_In in Hd'. exact Hd'.
Qed.

End OrientationFacts.

(** X29.  Merged with the dip table saved by the engine, every fault point
    appears exactly once and in its place: the left merge neither drops nor
    repeats a point, and attaches to it the row of the dip table with the
    same fault and section, or nothing when there is none. *)
Theorem X29_merge_keeps_fault_points :
  forall (info : list Engine.Intersection) (left : list Interfaces.XYZ),
    let right := map Orientations.dip_reduced (Engine.save_results info) in
    map fst (Orientations.merge_left left right) = left
    /\ forall p od, In (p, od) (Orientations.merge_left left right) ->
         match od with
         | Some d => In d right /\ Orientations.matches p d = true
         | None => forall d, In d right -> Orientations.matches p d = false
         end.
Proof.
  intros info left right. split.
  - apply merge_left_unique_right. intros p. unfold right.
    apply filter_matches_short.
    unfold Engine.save_results, Engine.drop_duplicates.
    apply (proj1 (drop_duplicates_from_ids info [])).
  - intros p od Hin. apply merge_left_in in Hin. tauto.
Qed.

Lemma X29_merge_keeps_fault_points_witness :
  In (Orientations.dip_reduced record_A_F1)
     (map Orientations.dip_reduced (Engine.save_results [record_A_F1]))
  /\ Orientations.matches (fault_point 2240)
       (Orientations.dip_reduced record_A_F1) = true.
Proof.
  refine (proj2 (X29_merge_keeps_fault_points [record_A_F1]
                   [fault_point 2240])
            (fault_point 2240)
            (Some (Orientations.dip_reduced record_A_F1)) _).
  left. reflexivity.
Defined.
(** ** Properties of the completed output folder *)

Section OriginalsFacts.

Import Originals.

Lemma related_refl (name : string) : related name name = true.
Proof. unfold related. rewrite String.eqb_refl. reflexivity. Qed.

Lemma copy_related_lookup (backup : Folder) (l : list string) :
  forall (out : Folder) (stem : string),
    fold_left (fun out name => copy_related name backup out) l out stem
    = if existsb (fun name => related name stem) l
      then match backup stem with
           | Some content => Some content
           | None => out stem
           end
      else out stem.
Proof.
  induction l as [|x l IH]; intros out stem; [reflexivity|].
  cbn [fold_left existsb]. rewrite IH. unfold copy_related.
  destruct (related x stem); cbn [orb];
    destruct (existsb (fun name => related name stem) l);
    destruct (backup stem); reflexivity.
Qed.

(** What the run leaves under each stem. *)
Lemma verify_and_copy_lookup (expected : list string) (output backup : Folder)
    (stem : string) :
  verify_and_copy_shapefiles false expected output backup stem
  = if existsb (fun name => related name stem)
         (filter (fun name => negb (exists_in output name)) expected)
    then match backup stem with
         | Some content => Some content
         | None => output stem
         end
    else output stem.
Proof. unfold verify_and_copy_shapefiles. apply copy_related_lookup. Qed.

Lemma missing_related (expected : list string) (output : Folder)
    (stem : string) :
  existsb (fun name => related name stem)
    (filter (fun name => negb (exists_in output name)) expected) = true
  <-> exists name, In name expected /\ output name = None
                   /\ related name stem = true.
Proof.
  rewrite existsb_exists. split.
  - intros (name & Hin & Hrel). apply filter_In in Hin.
    destruct Hin as [Hin Hmiss]. exists name. split; [exact Hin|].
    split; [|exact Hrel]. unfold exists_in in Hmiss.
    destruct (output name); [discriminate | reflexivity].
  - intros (name & Hin & Hmiss & Hrel). exists name. split; [|exact Hrel].
    apply filter_In. split; [exact Hin|]. unfold exists_in.
    rewrite Hmiss. reflexivity.
Qed.

Lemma projector_output_lookup (math_tan : R -> R) (folder : Projector.Folder)
    (dip_gdf : list Projector.DipRow) (max_depth : R) (n : string) :
  Projector.write_all
    (Projector.add_faults_to_sections math_tan folder dip_gdf max_depth)
    (fun _ => None) n
  = if existsb (String.eqb n) (map Projector.section_id dip_gdf)
    then match folder n with
         | Some gdf =>
             Some (gdf ++ Projector.new_faults math_tan gdf
                            (rows_of_section n dip_gdf) max_depth)
         | None => None
         end
    else None.
Proof.
  unfold Projector.add_faults_to_sections.
  rewrite (write_all_lookup folder
             (fun s g => Projector.add_faults_to_section math_tan g
                           (filter (fun row =>
                                      String.eqb (Projector.section_id row) s)
                                   dip_gdf) max_depth)).
  assert (Hu : existsb (String.eqb n)
                 (Projector.unique (map Projector.section_id dip_gdf))
               = existsb (String.eqb n) (map Projector.section_id dip_gdf)).
  { destruct (existsb (String.eqb n) (map Projector.section_id dip_gdf)) eqn:E.
    - apply existsb_eqb_in. apply unique_spec. apply existsb_eqb_in. exact E.
    - destruct (existsb _ (Projector.unique _)) eqn:E'; [|reflexivity].
      apply existsb_eqb_in in E'.
      apply (proj1 (proj2 (unique_spec _) _)) in E'.
      apply existsb_eqb_in in E'. congruence. }
  rewrite Hu. destruct (existsb _ (map Projector.section_id dip_gdf));
    [|reflexivity].
  destruct (folder n); [|reflexivity].
  rewrite add_faults_to_section_app. reflexivity.
Qed.

End OriginalsFacts.

Lemma plain_names_A_B :
  Forall (fun name => Originals.plain_name name = true) ["A"; "B"].
Proof. repeat constructor. Qed.

(** X30.  Completing the output folder, for expected names that the file
    pattern reads letter by letter.  A file is touched only if its stem is a
    missing expected name, or such a name followed by a dot and more; a file
    of that kind is replaced by the file of the backup folder whenever the
    backup has one, also when the output folder already holds it, and is
    left alone otherwise.  So a missing expected name ends up with the
    backup's file, or stays missing when the backup has none.  With an
    empty model area nothing is done.  After the projector has written into
    an empty folder, from the section folder that also serves as backup,
    every expected section whose original file exists ends up in the folder
    with the features of the original file first, and with nothing after
    them when the section is not in the dip file. *)
Theorem X30_output_folder_completed :
  forall (expected : list string) (output backup : Originals.Folder),
    Forall (fun name => Originals.plain_name name = true) expected ->
    (forall stem,
        (forall name, In name expected -> output name = None ->
                      Originals.related name stem = false) ->
        Originals.verify_and_copy_shapefiles false expected output backup stem
        = output stem)
    /\ (forall name stem content,
          In name expected -> output name = None ->
          Originals.related name stem = true ->
          backup stem = Some content ->
          Originals.verify_and_copy_shapefiles false expected output backup
            stem
          = Some content)
    /\ (forall stem,
          backup stem = None ->
          Originals.verify_and_copy_shapefiles false expected output backup
            stem
          = output stem)
    /\ (forall name,
          In name expected -> output name = None ->
          Originals.verify_and_copy_shapefiles false expected output backup
            name
          = backup name)
    /\ Originals.verify_and_copy_shapefiles true expected output backup
       = output
    /\ (forall (math_tan : R -> R) (dip_gdf : list Projector.DipRow)
               (max_depth : R) n gdf,
          In n expected -> backup n = Some gdf ->
          exists added,
            Originals.verify_and_copy_shapefiles false expected
              (Projector.write_all
                 (Projector.add_faults_to_sections math_tan backup dip_gdf
                    max_depth)
                 (fun _ => None))
              backup n
            = Some (gdf ++ added)
            /\ (~ In n (map Projector.section_id dip_gdf) -> added = [])).
Proof.
  intros expected output backup _. split; [|split; [|split; [|split; [|split]]]].
  - intros stem Hnone. rewrite verify_and_copy_lookup.
    destruct (existsb _ (filter _ expected)) eqn:E; [|reflexivity].
    apply missing_related in E. destruct E as (name & Hin & Hmiss & Hrel).
    rewrite (Hnone name Hin Hmiss) in Hrel. discriminate.
  - intros name stem content Hin Hmiss Hrel Hb.
    rewrite verify_and_copy_lookup, Hb.
    replace (existsb _ (filter _ expected)) with true; [reflexivity|].
    symmetry. apply missing_related. exists name. tauto.
  - intros stem Hb. rewrite verify_and_copy_lookup, Hb.
    destruct (existsb _ (filter _ expected)); reflexivity.
  - intros name Hin Hmiss. rewrite verify_and_copy_lookup.
    replace (existsb _ (filter _ expected)) with true.
    + rewrite Hmiss. destruct (backup name); reflexivity.
    + symmetry. apply missing_related. exists name.
      split; [exact Hin|]. split; [exact Hmiss | apply related_refl].
  - reflexivity.
  - intros math_tan dip_gdf max_depth n gdf Hexp Hb.
    rewrite verify_and_copy_lookup, Hb.
    destruct (existsb _ (filter _ expected)) eqn:E.
    + exists []. split; [rewrite app_nil_r; reflexivity | reflexivity].
    + rewrite projector_output_lookup, Hb.
      destruct (existsb (String.eqb n) (map Projector.section_id dip_gdf))
        eqn:Hdip.
      * eexists. split; [reflexivity|]. intros Hn. exfalso. apply Hn.
        apply existsb_eqb_in. exact Hdip.
      * exfalso.
        assert (Hm : existsb (fun name => Originals.related name n)
                       (filter (fun name =>
                                  negb (Originals.exists_in
                                          (Projector.write_all
                                             (Projector.add_faults_to_sections
                                                math_tan backup dip_gdf
                                                max_depth)
                                             (fun _ => None)) name))
                               expected) = true).
        { apply missing_related. exists n. split; [exact Hexp|].
          split; [|apply related_refl].
          rewrite projector_output_lookup, Hdip. reflexivity. }
        congruence.
Qed.

Lemma X30_output_folder_completed_witness :
  exists added,
    Originals.verify_and_copy_shapefiles false ["A"; "B"]
      (Projector.write_all
         (Projector.add_faults_to_sections float_tan one_section_folder
            [dip_row "R"] (-2000))
         (fun _ => None))
      one_section_folder "A"
    = Some (section_file ++ added)
    /\ (~ In "A" (map Projector.section_id [dip_row "R"]) -> added = []).
Proof.
  apply (proj2 (proj2 (proj2 (proj2 (proj2
           (X30_output_folder_completed ["A"; "B"] (fun _ => None)
              one_section_folder
              plain_names_A_B)))))
           float_tan [dip_row "R"] (-2000) "A" section_file).
  - left. reflexivity.
  - reflexivity.
Defined.
